(** * cert-monitor: a shallow embedding of the scan core

    The development follows the packages of the repository:
    - [internal/cert]    : classification of a parsed certificate;
    - [internal/cache]   : the path-keyed metadata table and its persistence;
    - [internal/scanner] : per-directory backoff, leaf extraction and the
                           directory walk of [ProcessDirectory].

    Go values are modelled as follows.  A [string] and a [[]byte] are both a
    sequence of bytes, here [string].  [int], [int64] and [time.Duration] are
    [Z]; where the source relies on the 64-bit range the wrap-around is
    written out.  A [time.Time] is the instant it denotes, in nanoseconds
    since the Unix epoch, as a [Z].  A Go [map] is a [gmap].  Functions of
    Go's standard library whose result depends on tables that are not part
    of this repository (Unicode case mapping, PEM and X.509 decoding,
    SHA-256, JSON text) are taken as parameters. *)

From Stdlib Require Import ZArith Lia Bool List Ascii String DecimalString DecimalZ.
From stdpp Require Import base option list strings gmap fin_maps vector sorting.

#[local] Set Warnings "-register-all".

Local Open Scope string_scope.
Local Open Scope Z_scope.

(** ** Go's [strings] package *)

(** The case mappings of package [strings] work on Unicode code points and
    depend on the Unicode tables; they are parameters of the model. *)
Class GoStrings := {
  strings_ToLower   : string -> string;
  strings_EqualFold : string -> string -> bool;
  strings_TrimSpace : string -> string;
}.

(** [strings.Contains(s, substr)]: [substr] occurs in [s] as a run of bytes. *)
Fixpoint strings_Contains (s substr : string) : bool :=
  String.prefix substr s ||
  match s with
  | EmptyString => false
  | String _ s' => strings_Contains s' substr
  end.

(** The restriction of the case mappings to ASCII text, used to evaluate
    the model on concrete inputs. *)
Module AsciiStrings.

Definition lower_byte (c : ascii) : ascii :=
  let n := nat_of_ascii c in
  if (65 <=? n)%nat && (n <=? 90)%nat then ascii_of_nat (n + 32) else c.

Fixpoint ToLower (s : string) : string :=
  match s with
  | EmptyString => EmptyString
  | String c s' => String (lower_byte c) (ToLower s')
  end.

Definition EqualFold (s t : string) : bool :=
  String.eqb (ToLower s) (ToLower t).

Definition is_space (c : ascii) : bool :=
  let n := nat_of_ascii c in
  (n =? 32)%nat || ((9 <=? n)%nat && (n <=? 13)%nat).

Fixpoint trim_left (s : string) : string :=
  match s with
  | String c s' => if is_space c then trim_left s' else s
  | EmptyString => EmptyString
  end.

Fixpoint trim_right (s : string) : string :=
  match s with
  | EmptyString => EmptyString
  | String c s' =>
      match trim_right s' with
      | EmptyString => if is_space c then EmptyString else String c EmptyString
      | r => String c r
      end
  end.

Definition TrimSpace (s : string) : string := trim_right (trim_left s).

Definition instance : GoStrings :=
  {| strings_ToLower := ToLower;
     strings_EqualFold := EqualFold;
     strings_TrimSpace := TrimSpace |}.

End AsciiStrings.

(** ** crypto/x509: the fields of a certificate the program reads *)

(** [cert.PublicKey] is an interface value; the program switches on its
    dynamic type.  An RSA key carries its modulus [N] (a [big.Int]), an
    ECDSA key the bit size of its curve ([Curve.Params().BitSize]). *)
Inductive PublicKey :=
| RSAPublicKey (N : Z)
| ECDSAPublicKey (BitSize : Z)
| Ed25519PublicKey
| DSAPublicKey
| UnknownPublicKey.

Inductive SignatureAlgorithm :=
| UnknownSignatureAlgorithm
| MD2WithRSA | MD5WithRSA | SHA1WithRSA
| SHA256WithRSA | SHA384WithRSA | SHA512WithRSA
| DSAWithSHA1 | DSAWithSHA256
| ECDSAWithSHA1 | ECDSAWithSHA256 | ECDSAWithSHA384 | ECDSAWithSHA512
| SHA256WithRSAPSS | SHA384WithRSAPSS | SHA512WithRSAPSS
| PureEd25519.

#[global] Instance SignatureAlgorithm_eq_dec : EqDecision SignatureAlgorithm.
Proof. solve_decision. Defined.

Record Certificate := {
  Raw                  : string;
  SubjectCommonName    : string;
  IssuerCommonName     : string;
  NotBefore            : Z;
  NotAfter             : Z;
  DNSNames             : list string;
  CertPublicKey        : PublicKey;
  CertSignatureAlgorithm : SignatureAlgorithm;
}.

(** [big.Int.BitLen]: the length of the absolute value in bits; the bit
    length of 0 is 0. *)
Definition BitLen (x : Z) : Z :=
  if x =? 0 then 0 else Z.log2 (Z.abs x) + 1.

(** ** internal/cert *)

Module cert.
Section WithStrings.
Context `{GoStrings}.

(** Returns: 30=digicert, 31=amazon, 32=other, 33=self-signed.  The
    [float64] results are the integers 30 to 33. *)
Definition DetermineIssuerCode (cert : Certificate) : Z :=
  if strings_EqualFold (SubjectCommonName cert) (IssuerCommonName cert) then
    33
  else
    let issuerLower := strings_ToLower (IssuerCommonName cert) in
    if strings_Contains issuerLower "digicert" then 30
    else if strings_Contains issuerLower "amazon" then 31
    else 32.

End WithStrings.

Definition IsWeakKey (cert : Certificate) : bool :=
  match CertPublicKey cert with
  | RSAPublicKey N => BitLen N <? 2048
  | ECDSAPublicKey BitSize => BitSize <? 256
  | _ => false
  end.

Definition IsDeprecatedSigAlg (alg : SignatureAlgorithm) : bool :=
  bool_decide (alg = SHA1WithRSA) ||
  bool_decide (alg = DSAWithSHA1) ||
  bool_decide (alg = ECDSAWithSHA1) ||
  bool_decide (alg = MD5WithRSA).

End cert.

(** ** Observable effects: the log and the metrics sink *)

Inductive Level := DebugLevel | InfoLevel | WarnLevel.

(** A log line: its level, its message and the value of the [dir] or
    [file] field it carries (empty when it has none). *)
Record LogEntry := Log {
  log_level   : Level;
  log_message : string;
  log_subject : string;
}.

(** The collectors of [internal/metrics] the scanner writes to. *)
Inductive Metric :=
| CertExpiration | CertNotBefore | CertSANCount | CertInfo
| CertExpiringSoon | CertIssuer | CertDuplicateCount | CertParseErrors
| CertFilesTotal | CertsParsedTotal | CertLastScan | CertScanDuration
| LabelsTruncated | WeakKeyCounter | DeprecatedSigAlgCounter
| CertIssuerCode.

#[global] Instance Metric_eq_dec : EqDecision Metric.
Proof. solve_decision. Defined.

Inductive MetricOp :=
| OpSet (v : Z)
| OpInc
| OpObserve (v : Z).

(** One write to the sink: [m.WithLabelValues(labels...).op]. *)
Record MetricWrite := Write_ {
  mw_metric : Metric;
  mw_labels : list string;
  mw_op     : MetricOp;
}.

Module metrics.
Definition MaxSANsExported : nat := 10.
Definition MaxLabelLength : nat := 120.
End metrics.

(** ** encoding/json, as far as the cache file needs it *)

Inductive json :=
| JNull
| JBool (b : bool)
| JNumber (n : Z)
| JString (s : string)
| JArray (elems : list json)
| JObject (members : list (string * json)).

(** The text layer of [encoding/json] and the text form of a [time.Time]
    are parameters: [json_render j] is the text [MarshalIndent] writes for
    the value [j] (prefix [""], indent two spaces), [json_parse] reads a
    text back ([None] on a syntax error); [time_MarshalJSON] is the
    RFC 3339 form of an instant (an error for a year outside 0..9999) and
    [time_UnmarshalJSON] reads it back. *)
Class GoJSON := {
  json_render        : json -> string;
  json_parse         : string -> option json;
  time_MarshalJSON   : Z -> option string;
  time_UnmarshalJSON : string -> option Z;
}.

(** ** Package [unicode/utf8] *)

Definition byte_in (lo hi : N) (c : ascii) : bool :=
  ((lo <=? N_of_ascii c) && (N_of_ascii c <=? hi))%N.

(** The number of bytes of the UTF-8 encoding that [s] begins with, and
    0 when it begins with none: a first byte that starts no encoding, a
    missing or wrong continuation byte, an overlong form, a surrogate or
    a value above U+10FFFF. *)
Definition utf8_rune_len (s : string) : nat :=
  match s with
  | EmptyString => 0
  | String c0 s0 =>
      let b := N_of_ascii c0 in
      if (b <? 128)%N then 1
      else if (b <? 194)%N then 0
      else if (b <? 224)%N then
        match s0 with
        | String c1 _ => if byte_in 128 191 c1 then 2 else 0
        | _ => 0
        end
      else if (b <? 240)%N then
        match s0 with
        | String c1 (String c2 _) =>
            let lo := if (b =? 224)%N then 160%N else 128%N in
            let hi := if (b =? 237)%N then 159%N else 191%N in
            if byte_in lo hi c1 && byte_in 128 191 c2 then 3 else 0
        | _ => 0
        end
      else if (b <? 245)%N then
        match s0 with
        | String c1 (String c2 (String c3 _)) =>
            let lo := if (b =? 240)%N then 144%N else 128%N in
            let hi := if (b =? 244)%N then 143%N else 191%N in
            if byte_in lo hi c1 && byte_in 128 191 c2 && byte_in 128 191 c3
            then 4 else 0
        | _ => 0
        end
      else 0
  end.

(** [utf8.ValidString]: the string is a sequence of UTF-8 encodings.
    [skip] counts the bytes still to pass of the encoding at hand. *)
Fixpoint utf8_valid_from (skip : nat) (s : string) : bool :=
  match s with
  | EmptyString => true
  | String _ rest =>
      match skip with
      | S k => utf8_valid_from k rest
      | O =>
          match utf8_rune_len s with
          | O => false
          | S k => utf8_valid_from k rest
          end
      end
  end.

Definition utf8_ValidString (s : string) : bool := utf8_valid_from 0 s.

(** U+FFFD, the replacement character, in UTF-8. *)
Definition utf8_RuneError : string :=
  String (ascii_of_N 239) (String (ascii_of_N 191)
    (String (ascii_of_N 189) EmptyString)).

(** What [encoding/json] writes for a string, as it is read back: each
    byte that begins no UTF-8 encoding is replaced by U+FFFD. *)
Fixpoint json_coerce_from (skip : nat) (s : string) : string :=
  match s with
  | EmptyString => EmptyString
  | String c rest =>
      match skip with
      | S k => String c (json_coerce_from k rest)
      | O =>
          match utf8_rune_len s with
          | O => utf8_RuneError ++ json_coerce_from 0 rest
          | S k => String c (json_coerce_from k rest)
          end
      end
  end.

Definition json_coerce_string (s : string) : string := json_coerce_from 0 s.

Fixpoint json_coerce (j : json) : json :=
  match j with
  | JString s => JString (json_coerce_string s)
  | JArray elems => JArray (map json_coerce elems)
  | JObject members =>
      JObject (map (fun kv : string * json =>
                      let '(k, v) := kv in (json_coerce_string k, json_coerce v))
                   members)
  | _ => j
  end.

(** January 2 of year 0 and December 31 of year 9999, 00:00 UTC, in
    nanoseconds since the epoch: from the first to the second the year
    of an instant is within 0..9999 in every time zone. *)
Definition time_text_first : Z := (-62167219200 + 86400) * 1000000000.
Definition time_text_last : Z := (253402300800 - 86400) * 1000000000.

(** What the program relies on of the two text layers.  A value that is
    written is read back as it is, up to the replacement of invalid
    UTF-8 in its strings.  An instant whose year is within 0..9999 has a
    text, the text is valid UTF-8, and it is read back as the same
    instant (RFC 3339 text gives the zone offset in whole minutes, so
    this is the law of a zone whose offset is a whole number of
    minutes). *)
Class GoJSONLaws `{GoJSON} : Prop := {
  json_parse_render : forall j, json_parse (json_render j) = Some (json_coerce j);
  time_MarshalJSON_years : forall t,
    time_text_first <= t < time_text_last -> is_Some (time_MarshalJSON t);
  time_MarshalJSON_utf8 : forall t s,
    time_MarshalJSON t = Some s -> utf8_ValidString s = true;
  time_UnmarshalJSON_MarshalJSON : forall t s,
    time_MarshalJSON t = Some s -> time_UnmarshalJSON s = Some t;
}.

Definition int64_min : Z := - 2 ^ 63.
Definition int64_max : Z := 2 ^ 63 - 1.
Definition in_int64 (z : Z) : bool := (int64_min <=? z) && (z <=? int64_max).

(** The zero [time.Time]: January 1, year 1, 00:00:00 UTC. *)
Definition time_zero : Z := -62135596800 * 1000000000.

(** A disk is the set of files that can be read, with their contents: a
    path that is absent is missing or unreadable. *)
Abbreviation Disk := (gmap string string).

Definition os_ReadFile (disk : Disk) (path : string) : option string :=
  disk !! path.

(** What [os.Stat] reports about a file. *)
Record FileInfo := {
  fi_ModTime : Z;
  fi_Size    : Z;
  fi_IsDir   : bool;
}.

(** ** internal/cache *)

Module cache.

Record CachedCertMeta := {
  Fingerprint : vec ascii 32;
  ModTime     : Z;
  Size        : Z;
}.

Record Cache := {
  filePath : string;
  data     : gmap string CachedCertMeta;
}.

Definition New (filePath : string) : Cache :=
  {| filePath := filePath; data := ∅ |}.

(** The zero value [CachedCertMeta{}]. *)
Definition zero_fingerprint : vec ascii 32 := fun_to_vec (fun _ => zero).
Definition zero_meta : CachedCertMeta :=
  {| Fingerprint := zero_fingerprint; ModTime := time_zero; Size := 0 |}.

Definition set_data (c : Cache) (m : gmap string CachedCertMeta) : Cache :=
  {| filePath := filePath c; data := m |}.

(** *** The JSON form of the table

    [json.MarshalIndent] of a [map[string]CachedCertMeta] is an object
    with one member per key, keys in sorted order; a [CachedCertMeta] is
    an object with the members [Fingerprint] (a [[32]byte], written as
    an array of 32 numbers), [ModTime] (a string) and [Size] (a
    number), in the order of the struct's fields. *)
Section WithJSON.
Context `{GoStrings} `{GoJSON}.

Definition encode_byte (b : ascii) : json := JNumber (Z.of_N (N_of_ascii b)).

Definition encode_fingerprint (fp : vec ascii 32) : json :=
  JArray (encode_byte <$> vec_to_list fp).

Definition encode_meta (e : CachedCertMeta) : option json :=
  s ← time_MarshalJSON (ModTime e);
  Some (JObject [("Fingerprint", encode_fingerprint (Fingerprint e));
                 ("ModTime", JString s);
                 ("Size", JNumber (Size e))]).

Fixpoint encode_members (l : list (string * CachedCertMeta))
  : option (list (string * json)) :=
  match l with
  | [] => Some []
  | (k, e) :: l' =>
      j ← encode_meta e;
      rest ← encode_members l';
      Some ((k, j) :: rest)
  end.

Definition key_le (a b : string * CachedCertMeta) : Prop :=
  String.leb a.1 b.1 = true.

#[local] Instance key_le_dec a b : Decision (key_le a b).
Proof. unfold key_le. apply _. Defined.

Definition sorted_entries (m : gmap string CachedCertMeta)
  : list (string * CachedCertMeta) :=
  merge_sort key_le (map_to_list m).

Definition encode_table (m : gmap string CachedCertMeta) : option json :=
  members ← encode_members (sorted_entries m);
  Some (JObject members).

Definition json_MarshalIndent (m : gmap string CachedCertMeta)
  : option string :=
  j ← encode_table m;
  Some (json_render j).

(** Decoding.  A number must fit the Go type it is stored in; an array
    longer than 32 is cut, a shorter one is filled with zeros; [null]
    leaves a field as it is.  The name of a member selects the field
    of the struct it is stored in: the field of that very name, or
    else the first field whose name equals it under case folding;
    members that select no field are skipped. *)
Inductive Field := FFingerprint | FModTime | FSize.

Definition field_name (f : Field) : string :=
  match f with
  | FFingerprint => "Fingerprint"
  | FModTime => "ModTime"
  | FSize => "Size"
  end.

Definition fields : list Field := [FFingerprint; FModTime; FSize].

Definition find_field (key : string) : option Field :=
  match List.find (fun f => String.eqb (field_name f) key) fields with
  | Some f => Some f
  | None => List.find (fun f => strings_EqualFold (field_name f) key) fields
  end.

Definition decode_byte (j : json) : option ascii :=
  match j with
  | JNumber n =>
      if (0 <=? n) && (n <? 256) then Some (ascii_of_N (Z.to_N n)) else None
  | _ => None
  end.

Fixpoint decode_bytes (l : list json) : option (list ascii) :=
  match l with
  | [] => Some []
  | j :: l' =>
      b ← decode_byte j;
      bs ← decode_bytes l';
      Some (b :: bs)
  end.

Definition fingerprint_of_list (bs : list ascii) : vec ascii 32 :=
  fun_to_vec (fun i : fin 32 => default zero (bs !! fin_to_nat i)).

Definition decode_fingerprint (j : json) (old : vec ascii 32)
  : option (vec ascii 32) :=
  match j with
  | JArray l => fingerprint_of_list <$> decode_bytes (take 32 l)
  | JNull => Some old
  | _ => None
  end.

Definition decode_field (e : CachedCertMeta) (kv : string * json)
  : option CachedCertMeta :=
  let '(k, v) := kv in
  match find_field k with
  | Some FFingerprint =>
      fp ← decode_fingerprint v (Fingerprint e);
      Some {| Fingerprint := fp; ModTime := ModTime e; Size := Size e |}
  | Some FModTime =>
      match v with
      | JString s =>
          t ← time_UnmarshalJSON s;
          Some {| Fingerprint := Fingerprint e; ModTime := t; Size := Size e |}
      | JNull => Some e
      | _ => None
      end
  | Some FSize =>
      match v with
      | JNumber n =>
          if in_int64 n then
            Some {| Fingerprint := Fingerprint e; ModTime := ModTime e; Size := n |}
          else None
      | JNull => Some e
      | _ => None
      end
  | None => Some e
  end.

Fixpoint decode_fields (e : CachedCertMeta) (l : list (string * json))
  : option CachedCertMeta :=
  match l with
  | [] => Some e
  | kv :: l' => e' ← decode_field e kv; decode_fields e' l'
  end.

Definition decode_meta (j : json) : option CachedCertMeta :=
  match j with
  | JObject members => decode_fields zero_meta members
  | JNull => Some zero_meta
  | _ => None
  end.

(** Unmarshalling into a map keeps the entries it has and stores each
    member of the object under its key. *)
Fixpoint decode_members (m : gmap string CachedCertMeta)
  (l : list (string * json)) : option (gmap string CachedCertMeta) :=
  match l with
  | [] => Some m
  | (k, v) :: l' => e ← decode_meta v; decode_members (<[k := e]> m) l'
  end.

Definition decode_table (m : gmap string CachedCertMeta) (j : json)
  : option (gmap string CachedCertMeta) :=
  match j with
  | JObject members => decode_members m members
  | JNull => Some ∅
  | _ => None
  end.

Definition json_Unmarshal (text : string) (m : gmap string CachedCertMeta)
  : option (gmap string CachedCertMeta) :=
  j ← json_parse text;
  decode_table m j.

(** Load loads the cache from disk. *)
Definition Load (c : Cache) (disk : Disk) : Cache * list LogEntry :=
  if String.eqb (filePath c) "" then
    (c, [Log DebugLevel "No cache file path specified, skipping cache load" ""])
  else
    match os_ReadFile disk (filePath c) with
    | None =>
        (c, [Log InfoLevel "No existing cache file or read error" ""])
    | Some text =>
        match json_Unmarshal text (data c) with
        | None =>
            (* Reset cache to empty state if parsing fails *)
            (set_data c ∅, [Log WarnLevel "Failed to parse cache file" ""])
        | Some m =>
            (set_data c m,
             [Log InfoLevel "Loaded certificate cache from file" ""])
        end
    end.

(** The outcome of the two system calls of [Save]. *)
Record SaveIO := {
  mkdir_ok : bool;
  write_ok : bool;
}.

(** Save saves the cache to disk.  [filepath.Dir] never returns the
    empty string, so the directory is always created first. *)
Definition Save (c : Cache) (io : SaveIO) (disk : Disk)
  : Disk * list LogEntry :=
  if String.eqb (filePath c) "" then
    (disk, [Log DebugLevel "No cache file path specified, skipping cache save" ""])
  else
    let cacheCopy : gmap string CachedCertMeta :=
      list_to_map (map_to_list (data c)) in
    match json_MarshalIndent cacheCopy with
    | None => (disk, [Log WarnLevel "Failed to marshal cache" ""])
    | Some text =>
        if negb (mkdir_ok io) then
          (disk, [Log WarnLevel "Failed to create cache directory" ""])
        else if negb (write_ok io) then
          (disk, [Log WarnLevel "Failed to write cache file" ""])
        else
          (<[filePath c := text]> disk,
           [Log DebugLevel "Successfully saved certificate cache" (filePath c)])
    end.

End WithJSON.

(** GetEntryAtomic retrieves a cache entry and the file's stat in one
    operation; [stat] is the result of [os.Stat(path)]. *)
Definition GetEntryAtomic (c : Cache) (stat : option FileInfo) (path : string)
  : option (CachedCertMeta * FileInfo * bool) :=
  match stat with
  | None => None
  | Some info =>
      match data c !! path with
      | Some cached => Some (cached, info, true)
      | None => Some (zero_meta, info, false)
      end
  end.

(** SetEntryAtomic updates a cache entry with file information. *)
Definition SetEntryAtomic (c : Cache) (path : string)
  (fingerprint : vec ascii 32) (info : FileInfo) : Cache :=
  set_data c (<[path := {| Fingerprint := fingerprint;
                           ModTime := fi_ModTime info;
                           Size := fi_Size info |}]> (data c)).

Definition Clear (c : Cache) : Cache := set_data c ∅.

(** PruneNonExisting removes entries whose files no longer exist.
    [stat_ok path] tells whether [os.Stat(path)] succeeds; the loop
    ranges over the keys of the table and counts what it deletes. *)
Definition prune_step (stat_ok : string -> bool)
  (acc : gmap string CachedCertMeta * Z) (path : string)
  : gmap string CachedCertMeta * Z :=
  if stat_ok path then acc else (delete path acc.1, acc.2 + 1).

Definition PruneNonExisting (c : Cache) (stat_ok : string -> bool)
  : Cache * Z * list LogEntry :=
  let '(m, pruned) :=
    foldl (prune_step stat_ok) (data c, 0) (map_to_list (data c)).*1 in
  (set_data c m, pruned,
   [if 0 <? pruned then Log InfoLevel "Pruned stale cache entries" ""
    else Log DebugLevel "No stale cache entries to prune" ""]).

(** GetPaths returns all cached file paths (in the order the map is
    ranged over, which Go leaves open). *)
Definition GetPaths (c : Cache) : list string := (map_to_list (data c)).*1.

(** Storing one entry of a list of entries (used to state what
    unmarshalling a list of members builds). *)
Definition store (m : gmap string CachedCertMeta)
  (kv : string * CachedCertMeta) : gmap string CachedCertMeta :=
  <[kv.1 := kv.2]> m.

End cache.

(** ** Package [time] *)

Definition Second : Z := 1000000000.
Definition Minute : Z := 60 * Second.
Definition Hour : Z := 60 * Minute.

(** Arithmetic on [time.Duration] is arithmetic on [int64]. *)
Definition wrap64 (z : Z) : Z := (z + 2 ^ 63) mod 2 ^ 64 - 2 ^ 63.

(** [t.Sub(u)]: the duration [t-u], or the largest (smallest) duration
    when [t-u] exceeds it. *)
Definition time_Sub (t u : Z) : Z :=
  if t - u <? int64_min then int64_min
  else if int64_max <? t - u then int64_max
  else t - u.

Definition time_Add (t d : Z) : Z := t + d.

(** [t.Unix()]: seconds since the epoch. *)
Definition time_Unix (t : Z) : Z := t / Second.

(** ** Package [path/filepath] *)

Definition is_sep (c : ascii) : bool := Ascii.eqb c "/"%char.

(** [filepath.Ext]: the suffix beginning at the final dot in the final
    element of the path; empty if there is no dot. *)
Fixpoint filepath_Ext (path : string) : string :=
  match path with
  | EmptyString => EmptyString
  | String c rest =>
      let e := filepath_Ext rest in
      if negb (String.eqb e "") then e
      else if existsb is_sep (list_ascii_of_string rest) then ""
      else if Ascii.eqb c "."%char then path
      else ""
  end.

(** The elements of a path: the runs of bytes between its separators
    (empty where two separators meet, and at either end). *)
Fixpoint path_elements (path : string) : list string :=
  match path with
  | EmptyString => [EmptyString]
  | String c rest =>
      if is_sep c then EmptyString :: path_elements rest
      else
        match path_elements rest with
        | e :: es => String c e :: es
        | [] => [String c EmptyString]
        end
  end.

(** One element of the loop of [filepath.Clean], on the elements written
    so far (the last one first).  An empty element and ["."] are dropped;
    [".."] removes the element before it, is dropped at the root, and is
    kept at the start of a path that is not rooted. *)
Definition clean_step (rooted : bool) (out : list string) (e : string)
  : list string :=
  if String.eqb e "" || String.eqb e "." then out
  else if String.eqb e ".." then
    match out with
    | [] => if rooted then [] else [e]
    | top :: out' => if String.eqb top ".." then e :: out else out'
    end
  else e :: out.

(** [filepath.Clean]: the shortest path name equivalent to [path] by
    purely lexical processing; ["."] for the empty result. *)
Definition filepath_Clean (path : string) : string :=
  let rooted :=
    match path with String c _ => is_sep c | EmptyString => false end in
  let out := foldl (clean_step rooted) [] (path_elements path) in
  let body := String.concat "/" (rev out) in
  if rooted then "/" ++ body
  else if String.eqb body "" then "." else body.

(** [filepath.Join(dir, name)]: the non-empty elements joined by a
    separator, and the result cleaned; the empty string when both are
    empty. *)
Definition filepath_Join (dir name : string) : string :=
  if negb (String.eqb dir "") then filepath_Clean (dir ++ "/" ++ name)
  else if negb (String.eqb name "") then filepath_Clean name
  else "".

Fixpoint strip_trailing_seps (s : string) : string :=
  match s with
  | EmptyString => EmptyString
  | String c rest =>
      match strip_trailing_seps rest with
      | EmptyString => if is_sep c then EmptyString else String c EmptyString
      | r => String c r
      end
  end.

Fixpoint after_last_sep (s : string) : string :=
  match s with
  | EmptyString => EmptyString
  | String c rest =>
      if existsb is_sep (list_ascii_of_string rest) then after_last_sep rest
      else if is_sep c then rest
      else s
  end.

(** [filepath.Base]: the last element of the path, trailing separators
    removed; ["."] for the empty path, ["/"] for a path of separators. *)
Definition filepath_Base (path : string) : string :=
  if String.eqb path "" then "."
  else
    match strip_trailing_seps path with
    | EmptyString => "/"
    | p => after_last_sep p
    end.

(** ** Package [fmt] *)

Definition hex_digit (n : N) : ascii :=
  ascii_of_N (if (n <? 10)%N then 48 + n else 87 + n).

(** [fmt.Sprintf("%x", sig)] for a byte array: two lower-case hexadecimal
    digits per byte. *)
Definition hex_byte (b : ascii) : string :=
  let n := N_of_ascii b in
  String (hex_digit (n / 16)) (String (hex_digit (n mod 16)) EmptyString).

Definition fmt_hex (bs : list ascii) : string :=
  String.concat "" (hex_byte <$> bs).

(** [fmt.Sprint] of an [int]. *)
Definition fmt_Sprint_int (n : Z) : string :=
  DecimalString.NilZero.string_of_int (Z.to_int n).

(** ** internal/config: the settings the scanner reads *)

Module config.
Record Config := {
  CertDirs                : list string;
  NumWorkers              : Z;
  DryRun                  : bool;
  ExpiryThresholdDays     : Z;
  ClearCacheOnReload      : bool;
  EnableWeakCryptoMetrics : bool;
}.
End config.

(** ** encoding/pem, crypto/x509, crypto/sha256 *)

Record PemBlock := {
  pem_Type  : string;
  pem_Bytes : string;
}.

Inductive result (A : Type) :=
| Ok (a : A)
| Err (msg : string).
Arguments Ok {A} a.
Arguments Err {A} msg.

(** [pem_Decode data] is the next PEM block of [data], if there is one,
    and the rest of the input. *)
Class GoCrypto := {
  pem_Decode            : string -> option PemBlock * string;
  x509_ParseCertificate : string -> result Certificate;
  sha256_Sum256         : string -> vec ascii 32;
}.

(** ** The file tree a scan walks

    An entry that is not a directory carries what [os.Stat] and
    [os.ReadFile] return for its path ([None] for an error); a directory
    carries whether [os.ReadDir] succeeds on it and the entries it
    returns, in the order it returns them. *)
Inductive Node :=
| File (name : string) (stat : option FileInfo) (content : option string)
| Dir (name : string) (readdir_ok : bool) (entries : list Node).

Definition node_Name (d : Node) : string :=
  match d with
  | File name _ _ => name
  | Dir name _ _ => name
  end.

Definition node_IsDir (d : Node) : bool :=
  match d with
  | File _ _ _ => false
  | Dir _ _ _ => true
  end.

(** [os.Stat(path)] followed by [info.IsDir()], for the entry at a path:
    an error and a non-directory both give [false]. *)
Definition stat_is_dir (root : option Node) : bool :=
  match root with
  | None => false
  | Some (Dir _ _ _) => true
  | Some (File _ (Some info) _) => fi_IsDir info
  | Some (File _ None _) => false
  end.

(** ** path/filepath.WalkDir *)

Inductive WalkErr :=
| SkipDir
| SkipAll
| WalkFailure (msg : string).

Definition is_SkipDir (e : WalkErr) : bool :=
  match e with SkipDir => true | _ => false end.

Section WalkDir.
(** The effects of the function passed to [WalkDir] are those of a
    monad [T]. *)
Context {T : Type -> Type} `{MRet T, MBind T}.

(** [fs.WalkDirFunc]: the path, the entry and the error of reading it
    (if any). *)
Definition WalkDirFunc := string -> Node -> option string -> T (option WalkErr).

Variable fn : WalkDirFunc.

(** A [SkipDir] returned for a directory is the successful skip of
    that directory. *)
Definition skipped (d : Node) (err : WalkErr) : option WalkErr :=
  if is_SkipDir err && node_IsDir d then None else Some err.

(** The loop of [walkDir] over the entries of a directory: an error
    of an entry ends it, and [SkipDir] ends it without an error. *)
Definition walk_entries (walk : string -> Node -> T (option WalkErr))
  (path : string) : list Node -> T (option WalkErr) :=
  fix loop (dirs : list Node) : T (option WalkErr) :=
    match dirs with
    | [] => mret None
    | d1 :: dirs' =>
        let path1 := filepath_Join path (node_Name d1) in
        walk path1 d1 ≫= fun err : option WalkErr =>
        match err with
        | Some err => if is_SkipDir err then mret None else mret (Some err)
        | None => loop dirs'
        end
    end.

Fixpoint walkDir (path : string) (d : Node) : T (option WalkErr) :=
  fn path d None ≫= fun err : option WalkErr =>
  match err with
  | Some err => mret (skipped d err)
  | None =>
      match d with
      | File _ _ _ => mret None
      | Dir _ readdir_ok dirs =>
          (* Second call, to report ReadDir error. *)
          (if readdir_ok then mret None
           else fn path d (Some "readdir error")) ≫= fun err : option WalkErr =>
          match err with
          | Some err => mret (skipped d err)
          | None => walk_entries walkDir path dirs
          end
      end
  end.

(** [WalkDir(root, fn)], for a root that exists. *)
Definition WalkDir (root : string) (d : Node) : T (option WalkErr) :=
  walkDir root d ≫= fun err : option WalkErr =>
  match err with
  | Some SkipDir | Some SkipAll => mret None
  | r => mret r
  end.

End WalkDir.

(** ** internal/scanner *)

Module scanner.

Definition MaxBackoff : Z := 10 * Minute.

(** What a scan does that can be observed: log lines, writes to the
    metrics sink, and the calls that read or decode a file or store a
    cache entry. *)
Inductive Event :=
| EvLog (e : LogEntry)
| EvMetric (w : MetricWrite)
| EvReadFile (path : string)
| EvPemDecode (path : string)
| EvParseCertificate (path : string)
| EvSetEntry (path : string).

(** The scanner's mutable state: the shared cache, the backoff table
    and the map [seen] of the directory scan in progress. *)
Record State := {
  st_cache   : cache.Cache;
  st_backoff : gmap string Z;
  st_seen    : gmap string Z;
}.

(** What a call reads from its surroundings.  [env_now] is the reading
    of [time.Now()] (one instant for the whole call), [env_jitter] the
    value [rand.Int63n] returns, [env_config] the result of
    [config.Get()] ([None] for a nil pointer), [env_fs] the entry found
    at a root path. *)
Record Env := {
  env_now      : Z;
  env_jitter   : Z;
  env_config   : option config.Config;
  env_hostname : string;
  env_fs       : string -> option Node;
}.

(** *** Backoff management *)

(** The value of the variable [delay] of [registerScanFailure]. *)
Definition backoffDelay (now : Z) (dir : string) (backoff : gmap string Z) : Z :=
  match backoff !! dir with
  | Some t =>
      if now <? t then
        let delay := wrap64 (time_Sub t now * 2) in
        if (delay <? 0) || (MaxBackoff <? delay) then MaxBackoff else delay
      else 30 * Second
  | None => 30 * Second
  end.

Definition registerScanFailure (now jitter : Z) (dir : string)
  (backoff : gmap string Z) : gmap string Z * list LogEntry :=
  let delay := backoffDelay now dir backoff in
  (<[dir := time_Add now (wrap64 (delay + jitter))]> backoff,
   [Log WarnLevel "Scan failed, applying backoff" dir]).

Definition shouldSkipScan (now : Z) (dir : string) (backoff : gmap string Z)
  : bool * gmap string Z * list LogEntry :=
  match backoff !! dir with
  | None => (false, backoff, [])
  | Some nextAllowed =>
      if now <? nextAllowed then
        (true, backoff,
         [Log DebugLevel "Directory scan skipped due to backoff" dir])
      else
        (false, delete dir backoff,
         [Log DebugLevel "Backoff period expired, allowing directory scan" dir])
  end.

Definition clearExpiredBackoffs (now : Z) (backoff : gmap string Z)
  : gmap string Z :=
  filter (fun kv => ¬ (kv.2 < now)) backoff.

(** *** The monad of a scan

    A computation takes the state and returns its result, the new
    state and the events it produced, in order. *)

Definition M (A : Type) : Type := State -> A * State * list Event.

#[global] Instance M_ret : MRet M := fun A a s => (a, s, []).
#[global] Instance M_bind : MBind M :=
  fun A B f m s =>
    let '(a, s1, es1) := m s in
    let '(b, s2, es2) := f a s1 in
    (b, s2, (es1 ++ es2)%list).

Definition retval {A} (r : A * State * list Event) : A := r.1.1.
Definition final {A} (r : A * State * list Event) : State := r.1.2.
Definition events {A} (r : A * State * list Event) : list Event := r.2.

Definition emit (e : Event) : M unit := fun s => (tt, s, [e]).

Fixpoint emit_all (es : list Event) : M unit :=
  match es with
  | [] => mret tt
  | e :: es' => emit e ;; emit_all es'
  end.

Definition log (lvl : Level) (msg subject : string) : M unit :=
  emit (EvLog (Log lvl msg subject)).

Definition metric (m : Metric) (labels : list string) (op : MetricOp) : M unit :=
  emit (EvMetric (Write_ m labels op)).

Definition get_cache : M cache.Cache := fun s => (st_cache s, s, []).

Definition put_cache (c : cache.Cache) : M unit := fun s =>
  (tt, {| st_cache := c; st_backoff := st_backoff s; st_seen := st_seen s |}, []).

Definition get_backoff : M (gmap string Z) := fun s => (st_backoff s, s, []).

Definition put_backoff (b : gmap string Z) : M unit := fun s =>
  (tt, {| st_cache := st_cache s; st_backoff := b; st_seen := st_seen s |}, []).

Definition get_seen : M (gmap string Z) := fun s => (st_seen s, s, []).

Definition put_seen (m : gmap string Z) : M unit := fun s =>
  (tt, {| st_cache := st_cache s; st_backoff := st_backoff s; st_seen := m |}, []).

Definition when (b : bool) (m : M unit) : M unit :=
  if b then m else mret tt.

(** *** Scanning *)

Section Scan.
Context `{GoStrings} `{GoCrypto}.
Variable env : Env.

Definition shouldWriteMetrics : bool :=
  match env_config env with
  | Some cfg => negb (config.DryRun cfg)
  | None => false
  end.

Definition sanitizeLabelValue (val : string) : M string :=
  let val := strings_TrimSpace val in
  if (metrics.MaxLabelLength <? String.length val)%nat then
    metric LabelsTruncated [] OpInc ;;
    mret (String.substring 0 metrics.MaxLabelLength val)
  else mret val.

Definition registerScanFailureM (dir : string) : M unit :=
  b ← get_backoff;
  let '(b', lines) := registerScanFailure (env_now env) (env_jitter env) dir b in
  put_backoff b' ;;
  emit_all (EvLog <$> lines).

Definition shouldSkipScanM (dir : string) : M bool :=
  b ← get_backoff;
  let '(skip, b', lines) := shouldSkipScan (env_now env) dir b in
  put_backoff b' ;;
  emit_all (EvLog <$> lines) ;;
  mret skip.

(** The loop of [clearExpiredBackoffs]: ranging over the table, it
    deletes each entry whose deadline is before [now] and counts
    them. *)
Definition clear_step (now : Z) (acc : gmap string Z * Z)
  (kv : string * Z) : gmap string Z * Z :=
  if kv.2 <? now then (delete kv.1 acc.1, acc.2 + 1) else acc.

Definition clearExpiredBackoffsM : M unit :=
  b ← get_backoff;
  let '(b', removed) :=
    foldl (clear_step (env_now env)) (b, 0) (map_to_list b) in
  put_backoff b' ;;
  when (0 <? removed)
    (log DebugLevel "Cleared expired backoff entries" "").

(** The loop of [parseLeafCertificate] over the PEM blocks of the
    input.  Each round consumes one block, so a number of rounds
    beyond the length of the input is never used up (lemma
    [pemLoop_fuel] below). *)
Fixpoint pemLoop (fuel : nat) (rest path dirPath : string)
  : M (result Certificate) :=
  match fuel with
  | O => mret (Err "no valid certificate found")
  | S fuel' =>
      emit (EvPemDecode path) ;;
      let '(block, r) := pem_Decode rest in
      match block with
      | None => mret (Err "no valid certificate found")
      | Some block =>
          if negb (String.eqb (pem_Type block) "CERTIFICATE") then
            pemLoop fuel' r path dirPath
          else
            emit (EvParseCertificate path) ;;
            match x509_ParseCertificate (pem_Bytes block) with
            | Err _ =>
                log WarnLevel "PEM parse error" path ;;
                metric CertParseErrors [path] OpInc ;;
                pemLoop fuel' r path dirPath
            | Ok c =>
                (* Take the first valid certificate as the leaf certificate *)
                metric CertsParsedTotal [dirPath] OpInc ;;
                mret (Ok c)
            end
      end
  end.

Definition parseLeafCertificate (raw ext path dirPath : string)
  : M (result Certificate) :=
  if String.eqb ext ".der" then
    (* For DER files, there's only one certificate *)
    emit (EvParseCertificate path) ;;
    match x509_ParseCertificate raw with
    | Err e =>
        metric CertParseErrors [path] OpInc ;;
        mret (Err e)
    | Ok c =>
        metric CertsParsedTotal [dirPath] OpInc ;;
        mret (Ok c)
    end
  else
    (* For PEM files, find the first certificate (leaf certificate) *)
    pemLoop (S (String.length raw)) raw path dirPath.

Definition seen_count (seen : gmap string Z) (key : string) : Z :=
  default 0 (seen !! key).

(** The block of [processCertificate] under
    [if !dryRun && s.shouldWriteMetrics()]. *)
Definition exportMetrics (cfg : config.Config) (cert : Certificate)
  (file sanitizedFile cn issuer sanitizedSANs hostname : string)
  (issuerCode count : Z) : M unit :=
  metric CertExpiration [cn; sanitizedFile] (OpSet (time_Unix (NotAfter cert))) ;;
  metric CertNotBefore [cn; sanitizedFile] (OpSet (time_Unix (NotBefore cert))) ;;
  metric CertSANCount [cn; sanitizedFile] (OpSet (Z.of_nat (length (DNSNames cert)))) ;;
  metric CertInfo [cn; sanitizedFile; sanitizedSANs] (OpSet 1) ;;
  metric CertIssuer [issuer; cn; sanitizedFile] (OpSet 1) ;;
  metric CertDuplicateCount [cn; sanitizedFile] (OpSet count) ;;
  metric CertIssuerCode [cn; sanitizedFile] (OpSet issuerCode) ;;
  (* Check expiry *)
  when (time_Sub (NotAfter cert) (env_now env)
          <=? wrap64 (config.ExpiryThresholdDays cfg * 24 * Hour))
    (metric CertExpiringSoon [cn; sanitizedFile; hostname; fmt_Sprint_int count] (OpSet 1) ;;
     log WarnLevel "Leaf certificate expiring soon" file) ;;
  (* Weak crypto detection *)
  when (config.EnableWeakCryptoMetrics cfg)
    (when (cert.IsWeakKey cert)
       (metric WeakKeyCounter [cn; sanitizedFile] OpInc ;;
        log WarnLevel "Weak key detected" sanitizedFile) ;;
     when (cert.IsDeprecatedSigAlg (CertSignatureAlgorithm cert))
       (metric DeprecatedSigAlgCounter [cn; sanitizedFile] OpInc ;;
        log WarnLevel "Deprecated signature algorithm detected" sanitizedFile)).

Definition processCertificate (cert : Certificate) (path dirPath : string)
  (hostname : string) (dryRun : bool) : M unit :=
  let file := filepath_Base path in
  sanitizedFile ← sanitizeLabelValue file;
  (* Generate fingerprint for duplicate detection *)
  let sig := sha256_Sum256 (Raw cert) in
  let key := fmt_hex (vec_to_list sig) in
  seen ← get_seen;
  let count := wrap64 (seen_count seen key + 1) in
  put_seen (<[key := count]> seen) ;;
  cn ← sanitizeLabelValue (SubjectCommonName cert);
  issuer ← sanitizeLabelValue (IssuerCommonName cert);
  (* Determine issuer code *)
  let issuerCode := cert.DetermineIssuerCode cert in
  (* Prepare SAN information *)
  sanitizedSANs ←
    (if (0 <? length (DNSNames cert))%nat then
       sanitizeLabelValue
         (String.concat "," (take metrics.MaxSANsExported (DNSNames cert)))
     else mret "");
  (* Export metrics *)
  (if negb dryRun && shouldWriteMetrics then
     match env_config env with
     | Some cfg =>
         exportMetrics cfg cert file sanitizedFile cn issuer sanitizedSANs
           hostname issuerCode count
     | None => mret tt
     end
   else mret tt) ;;
  (* Log information *)
  log InfoLevel "Parsed leaf certificate" file.

Definition is_cert_ext (ext : string) : bool :=
  String.eqb ext ".pem" || String.eqb ext ".crt" ||
  String.eqb ext ".cer" || String.eqb ext ".der".

Definition is_skipped_name (name : string) : bool :=
  let lower := strings_ToLower name in
  String.eqb lower "old" || String.eqb lower "working".

(** The function [ProcessDirectory] passes to [filepath.WalkDir]. *)
Definition visit (dirPath hostname : string) (dryRun : bool)
  (path : string) (d : Node) (err : option string) : M (option WalkErr) :=
    match err with
    | Some _ => mret None
    | None =>
        match d with
        | Dir name _ _ =>
            if is_skipped_name name then
              log InfoLevel "Skipping subdirectory" path ;;
              mret (Some SkipDir)
            else mret None
        | File name stat content =>
            let ext := strings_ToLower (filepath_Ext name) in
            if negb (is_cert_ext ext) then mret None
            else
              (* Use atomic cache operations *)
              c ← get_cache;
              match cache.GetEntryAtomic c stat path with
              | None =>
                  log WarnLevel "Stat error" path ;;
                  metric CertParseErrors [path] OpInc ;;
                  mret None
              | Some (cached, info, found) =>
                  metric CertFilesTotal [dirPath] OpInc ;;
                  if found && (cache.ModTime cached =? fi_ModTime info)
                           && (cache.Size cached =? fi_Size info) then
                    log DebugLevel "Skipping file with unchanged ModTime and Size" path ;;
                    mret None
                  else
                    emit (EvReadFile path) ;;
                    match content with
                    | None =>
                        log WarnLevel "Read error" path ;;
                        metric CertParseErrors [path] OpInc ;;
                        mret None
                    | Some raw =>
                        (* Parse certificates to find the leaf certificate *)
                        r ← parseLeafCertificate raw ext path dirPath;
                        match r with
                        | Err _ =>
                            log DebugLevel "No valid certificate found in file" path ;;
                            mret None
                        | Ok leafCert =>
                            (* Process the leaf certificate *)
                            processCertificate leafCert path dirPath hostname dryRun ;;
                            (* Update cache *)
                            let fingerprint := sha256_Sum256 (Raw leafCert) in
                            emit (EvSetEntry path) ;;
                            c ← get_cache;
                            put_cache (cache.SetEntryAtomic c path fingerprint info) ;;
                            mret None
                        end
                    end
              end
        end
    end.

(** The first deferred function of [ProcessDirectory]; with one
    instant per call the observed duration is zero. *)
Definition observeScanDuration (dirPath : string) : M unit :=
  metric CertScanDuration [dirPath]
    (OpObserve (time_Sub (env_now env) (env_now env))).

(** ProcessDirectory processes all certificates in a directory.  The
    result [None] is the nil map. *)
Definition ProcessDirectory (dirPath : string) (dryRun : bool)
  : M (option (gmap string Z)) :=
  when (negb dryRun && negb shouldWriteMetrics)
    (log InfoLevel "Dry-run mode active, metrics writes are disabled" dirPath) ;;
  shouldSkipScanM dirPath ≫= fun skip : bool =>
  if skip then
    log WarnLevel "Skipping scan due to backoff" dirPath ;;
    mret None
  else
    let notADirectory : M (option (gmap string Z)) :=
      log WarnLevel "Skipping non-directory" dirPath ;;
      registerScanFailureM dirPath ;;
      observeScanDuration dirPath ;;
      mret None in
    match env_fs env dirPath with
    | None => notADirectory
    | Some root =>
        if negb (stat_is_dir (Some root)) then notADirectory
        else
          (* Track duplicates based on leaf certificate fingerprints *)
          put_seen ∅ ;;
          WalkDir (visit dirPath (env_hostname env) dryRun) dirPath root
            ≫= fun err : option WalkErr =>
          match err with
          | Some _ =>
              log WarnLevel "WalkDir error" dirPath ;;
              registerScanFailureM dirPath
          | None => mret tt
          end ;;
          seen ← get_seen;
          when (negb dryRun && shouldWriteMetrics)
            (metric CertLastScan [dirPath] (OpSet (time_Unix (env_now env)))) ;;
          observeScanDuration dirPath ;;
          mret (Some seen)
    end.

End Scan.

(** *** Vocabulary of the properties below *)

Section Vocabulary.
Context `{GoStrings} `{GoCrypto}.

(** The sequence of PEM blocks of an input: what successive calls of
    [pem.Decode] return until one finds no block. *)
Inductive PemBlocks : string -> list PemBlock -> Prop :=
| PemBlocks_done data rest :
    pem_Decode data = (None, rest) -> PemBlocks data []
| PemBlocks_next data block rest blocks :
    pem_Decode data = (Some block, rest) ->
    PemBlocks rest blocks ->
    PemBlocks data (block :: blocks).

(** The certificate of a block that has type CERTIFICATE and parses. *)
Definition certificate_of (block : PemBlock) : option Certificate :=
  if String.eqb (pem_Type block) "CERTIFICATE" then
    match x509_ParseCertificate (pem_Bytes block) with
    | Ok c => Some c
    | Err _ => None
    end
  else None.

Fixpoint first_certificate (blocks : list PemBlock) : option Certificate :=
  match blocks with
  | [] => None
  | block :: blocks' =>
      match certificate_of block with
      | Some c => Some c
      | None => first_certificate blocks'
      end
  end.

(** A file is a candidate when its lower-cased extension is one of
    the four the scanner reads. *)
Definition is_candidate (name : string) : bool :=
  is_cert_ext (strings_ToLower (filepath_Ext name)).

(** [cached_as c path info]: the table has an entry for [path] whose
    modification time and size are those of [info]. *)
Definition cached_as (c : cache.Cache) (path : string) (info : FileInfo) : bool :=
  match cache.data c !! path with
  | Some cached =>
      (cache.ModTime cached =? fi_ModTime info) &&
      (cache.Size cached =? fi_Size info)
  | None => false
  end.

(** [unchanged c path d]: every candidate file the walk reaches below
    [d] (at [path]) that can be stat'ed is cached in [c] with its
    current modification time and size. *)
Fixpoint unchanged (c : cache.Cache) (path : string) (d : Node) : bool :=
  match d with
  | File name stat _ =>
      if is_candidate name then
        match stat with
        | Some info => cached_as c path info
        | None => true
        end
      else true
  | Dir name _ entries =>
      if is_skipped_name name then true
      else
        forallb (fun d1 => unchanged c (filepath_Join path (node_Name d1)) d1)
                entries
  end.

(** The candidate files the walk reaches below [d] (at [path]), each
    with its path, in the order of the walk. *)
Fixpoint candidates (path : string) (d : Node) : list (string * Node) :=
  match d with
  | File name _ _ => if is_candidate name then [(path, d)] else []
  | Dir name _ entries =>
      if is_skipped_name name then []
      else
        concat (map (fun d1 => candidates (filepath_Join path (node_Name d1)) d1)
                    entries)
  end.

(** The visits of a list of entries, one after the other. *)
Fixpoint visits (env : Env) (dirPath hostname : string) (dryRun : bool)
  (l : list (string * Node)) : M unit :=
  match l with
  | [] => mret tt
  | (path, d) :: l' =>
      visit env dirPath hostname dryRun path d None ;;
      visits env dirPath hostname dryRun l'
  end.

(** [no_leaf dirPath path name content]: no leaf certificate is
    extracted from the file, because it cannot be read or because
    [parseLeafCertificate] finds none in it. *)
Definition no_leaf (dirPath path name : string) (content : option string)
  : Prop :=
  match content with
  | None => True
  | Some raw =>
      forall s, exists msg,
        retval (parseLeafCertificate raw (strings_ToLower (filepath_Ext name))
                  path dirPath s) = Err msg
  end.

(** The line a scan logs first when metric writes are disabled. *)
Definition dry_run_notice (env : Env) (dirPath : string) (dryRun : bool)
  : list Event :=
  if negb dryRun && negb (shouldWriteMetrics env)
  then [EvLog (Log InfoLevel
                 "Dry-run mode active, metrics writes are disabled" dirPath)]
  else [].

(** What of a tree a scan looks at: the entries of a directory with
    an excluded name are dropped, and of a file that is not a
    candidate only the name is kept. *)
Fixpoint scanned (d : Node) : Node :=
  match d with
  | File name stat content =>
      if is_candidate name then d else File name None None
  | Dir name readdir_ok entries =>
      if is_skipped_name name then Dir name true []
      else Dir name readdir_ok (map scanned entries)
  end.

End Vocabulary.

(** The metrics written under [if !dryRun && s.shouldWriteMetrics()]. *)
Definition gated_metric (m : Metric) : bool :=
  match m with
  | CertExpiration | CertNotBefore | CertSANCount | CertInfo
  | CertExpiringSoon | CertIssuer | CertDuplicateCount | CertIssuerCode
  | WeakKeyCounter | DeprecatedSigAlgCounter | CertLastScan => true
  | CertParseErrors | CertFilesTotal | CertsParsedTotal
  | CertScanDuration | LabelsTruncated => false
  end.

(** The warnings logged inside the same block. *)
Definition gated_message (msg : string) : bool :=
  String.eqb msg "Leaf certificate expiring soon" ||
  String.eqb msg "Weak key detected" ||
  String.eqb msg "Deprecated signature algorithm detected".

(** The events a scan produces only when metrics are written. *)
Definition gated (e : Event) : bool :=
  match e with
  | EvMetric w => gated_metric (mw_metric w)
  | EvLog l => gated_message (log_message l)
  | _ => false
  end.

(** The events that read or decode a file or store a cache entry. *)
Definition touches_file (e : Event) : bool :=
  match e with
  | EvReadFile _ | EvPemDecode _ | EvParseCertificate _ | EvSetEntry _ => true
  | _ => false
  end.

(** The file such an event is about. *)
Definition file_of (e : Event) : option string :=
  match e with
  | EvReadFile p | EvPemDecode p | EvParseCertificate p | EvSetEntry p => Some p
  | _ => None
  end.

(** The events of decoding and parsing the file [path], and the
    events that touch no file. *)
Definition decodes (path : string) (e : Event) : bool :=
  match e with
  | EvPemDecode p | EvParseCertificate p => String.eqb p path
  | EvReadFile _ | EvSetEntry _ => false
  | _ => true
  end.

Definition is_metric (e : Event) : bool :=
  match e with
  | EvMetric _ => true
  | _ => false
  end.

(** A state with one component replaced. *)
Definition with_cache (s : State) (c : cache.Cache) : State :=
  {| st_cache := c; st_backoff := st_backoff s; st_seen := st_seen s |}.
Definition with_backoff (s : State) (b : gmap string Z) : State :=
  {| st_cache := st_cache s; st_backoff := b; st_seen := st_seen s |}.
Definition with_seen (s : State) (m : gmap string Z) : State :=
  {| st_cache := st_cache s; st_backoff := st_backoff s; st_seen := m |}.

(** The surroundings of a scan with another file tree. *)
Definition with_fs (env : Env) (fs : string -> option Node) : Env :=
  {| env_now := env_now env; env_jitter := env_jitter env;
     env_config := env_config env; env_hostname := env_hostname env;
     env_fs := fs |}.

Definition ungated (e : Event) : bool := negb (gated e).

Definition quiet (e : Event) : bool := negb (touches_file e).

(** [errors_only path es]: the writes to the sink among [es] all count
    a parse error of the file [path]. *)
Definition errors_only (path : string) (es : list Event) : Prop :=
  forall w, EvMetric w ∈ es -> w = Write_ CertParseErrors [path] OpInc.

(** [spec Q P R m]: from a state that satisfies [Q], the computation
    [m] ends in a state that satisfies [Q], produces only events that
    satisfy [P], and returns a value that satisfies [R]. *)
Definition spec {A} (Q : State -> Prop) (P : Event -> bool) (R : A -> Prop)
  (m : M A) : Prop :=
  forall s, Q s ->
    Q (final (m s)) /\ forallb P (events (m s)) = true /\ R (retval (m s)).

(** [sim m1 m2]: from the same state, [m2] returns what [m1] returns,
    ends in the same state, and produces the events of [m1] that are
    not gated, in the same order. *)
Definition sim {A} (m1 m2 : M A) : Prop :=
  forall s,
    retval (m2 s) = retval (m1 s) /\
    final (m2 s) = final (m1 s) /\
    events (m2 s) = List.filter ungated (events (m1 s)).

End scanner.

(** ** internal/watcher *)

(** What [os.Stat] answers: the file's information, an error for which
    [os.IsNotExist] holds, or another error. *)
Inductive StatResult :=
| StatInfo (info : FileInfo)
| StatNotExist
| StatFailed.

Module watcher.

(** The operations of [fsnotify.Op], one bit each. *)
Definition Create : Z := 1.
Definition Write : Z := 2.
Definition Remove : Z := 4.
Definition Rename : Z := 8.
Definition Chmod : Z := 16.

Record FsEvent := {
  ev_Name : string;
  ev_Op   : Z;
}.

(** The surroundings of the watcher: what [os.Stat] answers for a
    path, and whether [fsnotify]'s [Add] and [Remove] succeed on it. *)
Record Env := {
  os_Stat         : string -> StatResult;
  fsnotify_Add    : string -> bool;
  fsnotify_Remove : string -> bool;
}.

(** A computation on the map [watchedDirs] that also logs. *)
Definition W (A : Type) : Type :=
  gmap string bool -> A * gmap string bool * list LogEntry.

#[global] Instance W_ret : MRet W := fun A a m => (a, m, []).
#[global] Instance W_bind : MBind W :=
  fun A B f x m =>
    let '(a, m1, l1) := x m in
    let '(b, m2, l2) := f a m1 in
    (b, m2, (l1 ++ l2)%list).

Definition wlog (lvl : Level) (msg subject : string) : W unit :=
  fun m => (tt, m, [Log lvl msg subject]).

Definition get_watched : W (gmap string bool) := fun m => (m, m, []).
Definition put_watched (m' : gmap string bool) : W unit := fun _ => (tt, m', []).

(** [w.watchedDirs[path]]: false for a missing key. *)
Definition watched (m : gmap string bool) (path : string) : bool :=
  default false (m !! path).

Definition remove_step (env : Env) (dirPath : string)
  (acc : gmap string bool * list LogEntry) (watchedPath : string)
  : gmap string bool * list LogEntry :=
  if String.prefix dirPath watchedPath then
    (delete watchedPath acc.1,
     (acc.2 ++
      [if fsnotify_Remove env watchedPath
       then Log DebugLevel "Removed directory from watcher" watchedPath
       else Log DebugLevel "Failed to remove directory from watcher" watchedPath])%list)
  else acc.

(** Remove the specific directory and any subdirectories. *)
Definition removeDirectoryFromWatcher (env : Env) (dirPath : string) : W unit :=
  fun m =>
    let '(m', lines) :=
      foldl (remove_step env dirPath) (m, []) (map_to_list m).*1 in
    (tt, m', lines).

Definition is_not_exist (r : StatResult) : bool :=
  match r with StatNotExist => true | _ => false end.

Definition cleanup_step (env : Env)
  (acc : gmap string bool * list LogEntry) (watchedPath : string)
  : gmap string bool * list LogEntry :=
  if is_not_exist (os_Stat env watchedPath) then
    (delete watchedPath acc.1,
     (acc.2 ++
      [if fsnotify_Remove env watchedPath
       then Log DebugLevel "Removed stale directory from watcher" watchedPath
       else Log WarnLevel "Failed to remove stale watcher" watchedPath])%list)
  else acc.

Definition cleanupStaleWatchers (env : Env) : W unit :=
  fun m =>
    let '(m', lines) :=
      foldl (cleanup_step env) (m, []) (map_to_list m).*1 in
    (tt, m', lines).

Section WithStrings.
Context `{GoStrings}.

(** The function [addDirectoryToWatcher] passes to
    [filepath.WalkDir]. *)
Definition register (env : Env) (path : string) (d : Node)
  (err : option string) : W (option WalkErr) :=
  match err with
  | Some _ =>
      wlog WarnLevel "Error walking directory for watcher" path ;;
      mret None (* Continue walking despite errors *)
  | None =>
      if negb (node_IsDir d) then mret None (* Only watch directories *)
      else
        get_watched ≫= fun m : gmap string bool =>
        (* Check if we're already watching this directory *)
        if watched m path then mret None
        else if scanner.is_skipped_name (node_Name d) then
          (* Skip excluded subdirectories *)
          wlog DebugLevel "Skipping excluded directory from watcher" path ;;
          mret (Some SkipDir)
        else if fsnotify_Add env path then
          put_watched (<[path := true]> m) ;;
          wlog DebugLevel "Added directory to file system watcher" path ;;
          mret None
        else
          wlog WarnLevel "Failed to add directory to watcher" path ;;
          mret None
  end.

(** [root] is what is found at [dirPath] ([None] when [os.Lstat]
    fails, which [WalkDir] reports to the function). *)
Definition addDirectoryToWatcher (env : Env) (dirPath : string)
  (root : option Node) : W (option WalkErr) :=
  (* Clean up stale watchers before adding new ones *)
  cleanupStaleWatchers env ;;
  match root with
  | None =>
      wlog WarnLevel "Error walking directory for watcher" dirPath ;;
      mret None
  | Some d => WalkDir (register env) dirPath d
  end.

End WithStrings.

(** The body of [watchLoop] for one event; the result tells whether
    [TriggerReload] is called. *)
Definition handleEvent (env : Env) (ev : FsEvent) : W bool :=
  (* Handle directory removal events *)
  (if negb (Z.land (ev_Op ev) Remove =? 0) then
     match os_Stat env (ev_Name ev) with
     | StatNotExist => removeDirectoryFromWatcher env (ev_Name ev)
     | StatInfo info =>
         if fi_IsDir info then removeDirectoryFromWatcher env (ev_Name ev)
         else mret tt
     | StatFailed => mret tt
     end
   else mret tt) ;;
  (* Trigger reload for certificate-related changes *)
  if negb (Z.land (ev_Op ev)
             (Z.lor (Z.lor (Z.lor Create Write) Remove) Rename) =? 0) then
    wlog InfoLevel
      "Detected FS change, reloading for leaf certificate processing"
      (ev_Name ev) ;;
    mret true
  else mret false.

(** The paths of the directories of a tree whose own name is not an
    excluded one. *)
Section Paths.
Context `{GoStrings}.

Fixpoint dir_paths (path : string) (d : Node) : list string :=
  match d with
  | File _ _ _ => []
  | Dir name _ entries =>
      (if scanner.is_skipped_name name then [] else [path]) ++
      concat (map (fun d1 => dir_paths (filepath_Join path (node_Name d1)) d1)
                  entries)
  end.

(** The directories a walk registers whatever is watched already:
    those that are not below, or themselves, a directory with an
    excluded name. *)
Fixpoint reached (path : string) (d : Node) : list string :=
  match d with
  | File _ _ _ => []
  | Dir name _ entries =>
      if scanner.is_skipped_name name then []
      else
        path ::
        concat (map (fun d1 => reached (filepath_Join path (node_Name d1)) d1)
                    entries)
  end.
End Paths.

End watcher.

(** ** internal/server: the /certs endpoint *)

(** [t.Format(time.RFC3339)]. *)
Class GoTime := {
  time_Format_RFC3339 : Z -> string;
}.

Module server.

(** CertInfo represents certificate information for the API. *)
Record CertInfo := {
  ci_CommonName   : string;
  ci_Issuer       : string;
  ci_NotBefore    : string;
  ci_NotAfter     : string;
  ci_SANs         : list string;
  ci_ExpiringSoon : bool;
  ci_Type         : string;
}.

Section WithLibraries.
Context `{GoCrypto} `{GoTime}.

(** The struct that both branches of the loop of [certsHandler]
    append.  [now] is the reading of the clock by [time.Until], one
    instant for the request. *)
Definition certInfo (cfg : config.Config) (now : Z) (c : Certificate)
  : CertInfo :=
  let expSoon :=
    time_Sub (NotAfter c) now
      <=? wrap64 (config.ExpiryThresholdDays cfg * 24 * Hour) in
  {| ci_CommonName := SubjectCommonName c;
     ci_Issuer := IssuerCommonName c;
     ci_NotBefore := time_Format_RFC3339 (NotBefore c);
     ci_NotAfter := time_Format_RFC3339 (NotAfter c);
     ci_SANs := DNSNames c;
     ci_ExpiringSoon := expSoon;
     ci_Type := "leaf_certificate" |}.

(** The body of the loop for one path: what it appends to the list,
    if anything. *)
Definition certOfPath (cfg : config.Config) (now : Z)
  (readFile : string -> option string) (path : string) : option CertInfo :=
  match readFile path with
  | None => None
  | Some raw =>
      (* Try DER format if PEM decode fails *)
      let der :=
        match x509_ParseCertificate raw with
        | Ok c => Some (certInfo cfg now c)
        | Err _ => None
        end in
      (* For PEM files, get the first certificate (leaf certificate) *)
      match (pem_Decode raw).1 with
      | None => der
      | Some block =>
          if negb (String.eqb (pem_Type block) "CERTIFICATE") then der
          else
            match x509_ParseCertificate (pem_Bytes block) with
            | Err _ => None
            | Ok c => Some (certInfo cfg now c)
            end
      end
  end.

(** The list [certsHandler] encodes, in the order in which the paths
    of the cache are ranged over. *)
Definition certsHandler (cfg : config.Config) (now : Z)
  (readFile : string -> option string) (c : cache.Cache) : list CertInfo :=
  omap (certOfPath cfg now readFile) (cache.GetPaths c).

End WithLibraries.

End server.

(** ** Stand-ins for the library parameters

    Small instances of the parameter classes, used to run the model on
    concrete inputs. *)

Module Fixtures.

Definition dquote : string := String (ascii_of_nat 34) EmptyString.

(** A compact rendering of a JSON value (strings are written between
    quotes as they are). *)
Fixpoint render (j : json) : string :=
  match j with
  | JNull => "null"
  | JBool b => if b then "true" else "false"
  | JNumber n => fmt_Sprint_int n
  | JString s => dquote ++ s ++ dquote
  | JArray l => "[" ++ String.concat "," (map render l) ++ "]"
  | JObject l =>
      "{" ++ String.concat ","
               (map (fun kv => dquote ++ fst kv ++ dquote ++ ":" ++ render (snd kv)) l)
          ++ "}"
  end.

(** A reader that knows one recorded document. *)
Definition recorded_parse (doc : json) (text : string) : option json :=
  if String.eqb text (render doc) then Some doc else None.

(** 2024-01-01T00:00:00Z, in nanoseconds since the epoch. *)
Definition t2024 : Z := 1704067200 * Second.
Definition t2024_text : string := "2024-01-01T00:00:00Z".

Definition fp_a : vec ascii 32 :=
  fun_to_vec (fun i : fin 32 => ascii_of_nat (fin_to_nat i + 1)).

Definition meta_a : cache.CachedCertMeta :=
  {| cache.Fingerprint := fp_a; cache.ModTime := t2024; cache.Size := 1200 |}.

Definition table_a : gmap string cache.CachedCertMeta :=
  {[ "/certs/a.pem" := meta_a ]}.

Definition doc_a : json :=
  JObject [("/certs/a.pem",
            JObject [("Fingerprint",
                      JArray (map (fun n => JNumber (Z.of_nat n)) (seq 1 32)));
                     ("ModTime", JString t2024_text);
                     ("Size", JNumber 1200)])].

(** A JSON layer that writes compactly, reads back [doc_a] and knows the
    text of one instant. *)
Definition json_a : GoJSON :=
  {| json_render := render;
     json_parse := recorded_parse doc_a;
     time_MarshalJSON := fun t => if t =? t2024 then Some t2024_text else None;
     time_UnmarshalJSON := fun s =>
       if String.eqb s t2024_text then Some t2024 else None |}.

(** A second JSON layer, which reads back every value it writes.  A
    value is written as one byte for its kind followed by its
    content: a string, after invalid UTF-8 has been replaced, as its
    length in strokes, a zero and its bytes; a number as the string of
    its decimal digits; an array and an object as their elements,
    closed by a bracket; a member as its name and its value.  An
    instant is written as its decimal digits when its year in UTC is
    within 0..9999. *)
Fixpoint write_unary (n : nat) (rest : string) : string :=
  match n with
  | O => String "0" rest
  | S n' => String "1" (write_unary n' rest)
  end.

Definition write_string (s rest : string) : string :=
  write_unary (String.length s) (s ++ rest).

Fixpoint write_to (j : json) (rest : string) : string :=
  match j with
  | JNull => String "n" rest
  | JBool b => String (if b then "t" else "f")%char rest
  | JNumber n =>
      String "#" (write_string (NilEmpty.string_of_int (Z.to_int n)) rest)
  | JString s => String "s" (write_string s rest)
  | JArray elems =>
      String "[" (fold_right (fun j r => write_to j r) (String "]" rest) elems)
  | JObject members =>
      String "{" (fold_right
                    (fun (kv : string * json) r =>
                       let '(k, v) := kv in write_string k (write_to v r))
                    (String "}" rest) members)
  end.

Definition write (j : json) : string := write_to (json_coerce j) "".

Fixpoint read_unary (t : string) : option (nat * string) :=
  match t with
  | String c r =>
      if Ascii.eqb c "0" then Some (O, r)
      else if Ascii.eqb c "1" then
        match read_unary r with
        | Some (n, r') => Some (S n, r')
        | None => None
        end
      else None
  | EmptyString => None
  end.

Fixpoint read_chars (n : nat) (t : string) : option (string * string) :=
  match n with
  | O => Some (EmptyString, t)
  | S n' =>
      match t with
      | String c r =>
          match read_chars n' r with
          | Some (s, r') => Some (String c s, r')
          | None => None
          end
      | EmptyString => None
      end
  end.

Definition read_string (t : string) : option (string * string) :=
  match read_unary t with
  | Some (n, r) => read_chars n r
  | None => None
  end.

Fixpoint read_elems (rd : string -> option (json * string)) (n : nat)
  (t : string) : option (list json * string) :=
  match n with
  | O => None
  | S n' =>
      match t with
      | String c r =>
          if Ascii.eqb c "]" then Some ([], r)
          else
            match rd t with
            | Some (j, r1) =>
                match read_elems rd n' r1 with
                | Some (l, r2) => Some (j :: l, r2)
                | None => None
                end
            | None => None
            end
      | EmptyString => None
      end
  end.

Fixpoint read_members (rd : string -> option (json * string)) (n : nat)
  (t : string) : option (list (string * json) * string) :=
  match n with
  | O => None
  | S n' =>
      match t with
      | String c r =>
          if Ascii.eqb c "}" then Some ([], r)
          else
            match read_string t with
            | Some (k, r0) =>
                match rd r0 with
                | Some (v, r1) =>
                    match read_members rd n' r1 with
                    | Some (l, r2) => Some ((k, v) :: l, r2)
                    | None => None
                    end
                | None => None
                end
            | None => None
            end
      | EmptyString => None
      end
  end.

Fixpoint read (fuel : nat) (t : string) : option (json * string) :=
  match fuel with
  | O => None
  | S fuel' =>
      match t with
      | String c r =>
          if Ascii.eqb c "n" then Some (JNull, r)
          else if Ascii.eqb c "t" then Some (JBool true, r)
          else if Ascii.eqb c "f" then Some (JBool false, r)
          else if Ascii.eqb c "#" then
            match read_string r with
            | Some (s, r') =>
                match NilEmpty.int_of_string s with
                | Some d => Some (JNumber (Z.of_int d), r')
                | None => None
                end
            | None => None
            end
          else if Ascii.eqb c "s" then
            match read_string r with
            | Some (s, r') => Some (JString s, r')
            | None => None
            end
          else if Ascii.eqb c "[" then
            match read_elems (read fuel') fuel' r with
            | Some (l, r') => Some (JArray l, r')
            | None => None
            end
          else if Ascii.eqb c "{" then
            match read_members (read fuel') fuel' r with
            | Some (l, r') => Some (JObject l, r')
            | None => None
            end
          else None
      | EmptyString => None
      end
  end.

Definition parse (text : string) : option json :=
  match read (String.length text) text with
  | Some (j, EmptyString) => Some j
  | _ => None
  end.

(** January 1 of year 0 and of year 10000, 00:00 UTC. *)
Definition year_0 : Z := -62167219200 * Second.
Definition year_10000 : Z := 253402300800 * Second.

Definition json_b : GoJSON :=
  {| json_render := write;
     json_parse := parse;
     time_MarshalJSON := fun t =>
       if (year_0 <=? t) && (t <? year_10000)
       then Some (NilEmpty.string_of_int (Z.to_int t)) else None;
     time_UnmarshalJSON := fun s => Z.of_int <$> NilEmpty.int_of_string s |}.

(** A toy armor: ["C"] followed by one byte is a block of type
    CERTIFICATE holding that byte, ["K"] followed by one byte a block
    of type PRIVATE KEY; anything else is not a block. *)
Definition toy_Decode (data : string) : option PemBlock * string :=
  match data with
  | String "C" (String x rest) =>
      (Some {| pem_Type := "CERTIFICATE"; pem_Bytes := String x EmptyString |}, rest)
  | String "K" (String x rest) =>
      (Some {| pem_Type := "PRIVATE KEY"; pem_Bytes := String x EmptyString |}, rest)
  | _ => (None, data)
  end.

Definition toy_cert (der : string) : Certificate :=
  {| Raw := der;
     SubjectCommonName := "leaf-" ++ der;
     IssuerCommonName := "Test CA";
     NotBefore := 0;
     NotAfter := t2024;
     DNSNames := [];
     CertPublicKey := RSAPublicKey (2 ^ 2047);
     CertSignatureAlgorithm := SHA256WithRSA |}.

(** A toy DER: a single lower-case letter is a certificate. *)
Definition toy_ParseCertificate (der : string) : result Certificate :=
  match der with
  | String x EmptyString =>
      let n := nat_of_ascii x in
      if (97 <=? n)%nat && (n <=? 122)%nat then Ok (toy_cert der)
      else Err "x509: malformed certificate"
  | _ => Err "x509: malformed certificate"
  end.

Definition toy_Sum256 (data : string) : vec ascii 32 :=
  cache.fingerprint_of_list (list_ascii_of_string data).

Definition toy_crypto : GoCrypto :=
  {| pem_Decode := toy_Decode;
     x509_ParseCertificate := toy_ParseCertificate;
     sha256_Sum256 := toy_Sum256 |}.

(** A directory with a certificate, a file whose only block does not
    parse, a file that is not a candidate, a subdirectory that is left
    out by name, and a subdirectory that cannot be read. *)
Definition info_a : FileInfo :=
  {| fi_ModTime := t2024; fi_Size := 2; fi_IsDir := false |}.

Definition tree_certs : Node :=
  Dir "certs" true
    [ File "a.pem" (Some info_a) (Some "Ca");
      File "bad.pem" (Some info_a) (Some "C!");
      File "notes.txt" (Some info_a) (Some "hello");
      Dir "old" true [File "x.pem" (Some info_a) (Some "Cx")];
      Dir "sub" false [] ].

(** A directory that holds one certificate. *)
Definition tree_one : Node :=
  Dir "certs" true [File "a.pem" (Some info_a) (Some "Ca")].

(** A directory that cannot be read at all. *)
Definition tree_unreadable : Node := Dir "certs" false [].

Definition config_of (dry : bool) : config.Config :=
  {| config.CertDirs := ["/certs"];
     config.NumWorkers := 4;
     config.DryRun := dry;
     config.ExpiryThresholdDays := 45;
     config.ClearCacheOnReload := false;
     config.EnableWeakCryptoMetrics := true |}.

(** The surroundings of a scan of [/certs], ten days before the
    certificates expire. *)
Definition env_of (dry : bool) (root : Node) : scanner.Env :=
  {| scanner.env_now := t2024 - 10 * 24 * Hour;
     scanner.env_jitter := 0;
     scanner.env_config := Some (config_of dry);
     scanner.env_hostname := "node1";
     scanner.env_fs := fun path =>
       if String.eqb path "/certs" then Some root else None |}.

Definition state0 : scanner.State :=
  {| scanner.st_cache := cache.New "/var/lib/cert-monitor/cache.json";
     scanner.st_backoff := ∅;
     scanner.st_seen := ∅ |}.

Definition scan (dry : bool) (root : Node) (dryRun : bool)
  : scanner.M (option (gmap string Z)) :=
  @scanner.ProcessDirectory AsciiStrings.instance toy_crypto
    (env_of dry root) "/certs" dryRun.

End Fixtures.

(** * Properties *)

(** ** internal/cert *)

Section CertProperties.
Context `{GoStrings}.

Lemma BitLen_nonneg x : 0 <= BitLen x.
Proof.
  unfold BitLen. destruct (x =? 0); [lia|].
  pose proof (Z.log2_nonneg (Z.abs x)). lia.
Qed.

(** A number has [n] bits exactly when its absolute value lies between
    [2^(n-1)] and [2^n]. *)
Lemma BitLen_range x n :
  0 < n -> (BitLen x = n <-> 2 ^ (n - 1) <= Z.abs x < 2 ^ n).
Proof.
  intros Hn. unfold BitLen. destruct (Z.eqb_spec x 0) as [->|Hx].
  - split; [lia|]. intros [Hlo _]. simpl in Hlo.
    pose proof (Z.pow_pos_nonneg 2 (n - 1)). lia.
  - assert (Hpos : 0 < Z.abs x) by lia.
    pose proof (Z.log2_spec _ Hpos) as [Hlo Hhi].
    replace (Z.succ (Z.log2 (Z.abs x))) with (Z.log2 (Z.abs x) + 1) in Hhi by lia.
    split.
    + intros <-. replace (Z.log2 (Z.abs x) + 1 - 1) with (Z.log2 (Z.abs x)) by lia.
      split; assumption.
    + intros [Hlo' Hhi'].
      pose proof (Z.log2_unique (Z.abs x) (n - 1) ltac:(lia)) as Hu.
      replace (Z.succ (n - 1)) with n in Hu by lia.
      specialize (Hu (conj Hlo' Hhi')). lia.
Qed.

(** C5.  Issuer classification: a certificate whose subject and issuer
    common names are equal under case folding is classified 33, whatever
    the issuer name contains (so a self-signed certificate whose issuer
    name contains "digicert" is still 33); otherwise the code is 30 when
    the lower-cased issuer name contains "digicert", 31 when it contains
    "amazon", and 32 in all remaining cases. *)
Theorem DetermineIssuerCode_spec (c : Certificate) :
  let selfSigned :=
    strings_EqualFold (SubjectCommonName c) (IssuerCommonName c) in
  let issuerLower := strings_ToLower (IssuerCommonName c) in
  (selfSigned = true -> cert.DetermineIssuerCode c = 33) /\
  (selfSigned = true -> strings_Contains issuerLower "digicert" = true ->
     cert.DetermineIssuerCode c = 33) /\
  (selfSigned = false -> strings_Contains issuerLower "digicert" = true ->
     cert.DetermineIssuerCode c = 30) /\
  (selfSigned = false -> strings_Contains issuerLower "digicert" = false ->
     strings_Contains issuerLower "amazon" = true ->
     cert.DetermineIssuerCode c = 31) /\
  (selfSigned = false -> strings_Contains issuerLower "digicert" = false ->
     strings_Contains issuerLower "amazon" = false ->
     cert.DetermineIssuerCode c = 32).
Proof.
  unfold cert.DetermineIssuerCode. cbv zeta.
  repeat split; intros; repeat match goal with
    | Heq : _ = _ |- _ => rewrite Heq; clear Heq end; reflexivity.
Qed.

(** The code is always one of the four values. *)
Lemma DetermineIssuerCode_range (c : Certificate) :
  30 <= cert.DetermineIssuerCode c <= 33.
Proof.
  unfold cert.DetermineIssuerCode.
  repeat match goal with |- context [if ?b then _ else _] => destruct b end; lia.
Qed.

End CertProperties.

(** On ASCII names: a self-signed DigiCert root, an Amazon-issued leaf
    (whatever the case of the issuer name), and a leaf of another CA. *)
Example DetermineIssuerCode_examples :
  let mk subject issuer :=
    {| Raw := ""; SubjectCommonName := subject; IssuerCommonName := issuer;
       NotBefore := 0; NotAfter := 0; DNSNames := [];
       CertPublicKey := UnknownPublicKey;
       CertSignatureAlgorithm := UnknownSignatureAlgorithm |} in
  @cert.DetermineIssuerCode AsciiStrings.instance
    (mk "DigiCert Global Root CA" "digicert global root ca") = 33 /\
  @cert.DetermineIssuerCode AsciiStrings.instance
    (mk "www.example.com" "DigiCert TLS RSA SHA256 2020 CA1") = 30 /\
  @cert.DetermineIssuerCode AsciiStrings.instance
    (mk "www.example.com" "Amazon RSA 2048 M02") = 31 /\
  @cert.DetermineIssuerCode AsciiStrings.instance
    (mk "www.example.com" "R3") = 32.
Proof. vm_compute. repeat split. Qed.

(** C6.  [IsWeakKey] is true exactly for an RSA key whose modulus has
    fewer than 2048 bits and for an ECDSA key whose curve has fewer than
    256 bits, and false for every other kind of key.  In particular a
    1024-bit RSA modulus is weak and a 2048-bit one is not; a 224-bit
    curve is weak and a 256-bit one is not. *)
Theorem IsWeakKey_spec (c : Certificate) :
  (cert.IsWeakKey c = true <->
     (exists N, CertPublicKey c = RSAPublicKey N /\ BitLen N < 2048) \/
     (exists bits, CertPublicKey c = ECDSAPublicKey bits /\ bits < 256)) /\
  (forall N, CertPublicKey c = RSAPublicKey N ->
     2 ^ 1023 <= N < 2 ^ 1024 -> cert.IsWeakKey c = true) /\
  (forall N, CertPublicKey c = RSAPublicKey N ->
     2 ^ 2047 <= N < 2 ^ 2048 -> cert.IsWeakKey c = false) /\
  (CertPublicKey c = ECDSAPublicKey 224 -> cert.IsWeakKey c = true) /\
  (CertPublicKey c = ECDSAPublicKey 256 -> cert.IsWeakKey c = false) /\
  (CertPublicKey c = Ed25519PublicKey \/ CertPublicKey c = DSAPublicKey \/
   CertPublicKey c = UnknownPublicKey -> cert.IsWeakKey c = false).
Proof.
  unfold cert.IsWeakKey. repeat split.
  - destruct (CertPublicKey c) as [N|bits| | |]; intros Hw; try discriminate.
    + left. exists N. split; [reflexivity|]. apply Z.ltb_lt, Hw.
    + right. exists bits. split; [reflexivity|]. apply Z.ltb_lt, Hw.
  - intros [(N & -> & HN)|(bits & -> & Hb)]; apply Z.ltb_lt; assumption.
  - intros N -> HN. apply Z.ltb_lt.
    assert (BitLen N = 1024); [|lia].
    apply BitLen_range; [lia|]. rewrite Z.abs_eq; [|lia].
    replace (1024 - 1) with 1023 by lia. exact HN.
  - intros N -> HN. apply Z.ltb_ge.
    assert (BitLen N = 2048); [|lia].
    apply BitLen_range; [lia|]. rewrite Z.abs_eq; [|lia].
    replace (2048 - 1) with 2047 by lia. exact HN.
  - intros ->. reflexivity.
  - intros ->. reflexivity.
  - intros [->|[->| ->]]; reflexivity.
Qed.

(** ** internal/scanner: backoff *)

Section BackoffProperties.
Import scanner.

Lemma wrap64_small z : int64_min <= z <= int64_max -> wrap64 z = z.
Proof.
  unfold wrap64, int64_min, int64_max. intros Hz.
  rewrite Z.mod_small; lia.
Qed.

Lemma wrap64_high z : int64_max < z < 2 ^ 64 -> wrap64 z = z - 2 ^ 64.
Proof.
  unfold wrap64, int64_max. intros Hz.
  replace (z + 2 ^ 63) with ((z - 2 ^ 63) + 1 * 2 ^ 64) by lia.
  rewrite Z.mod_add by lia. rewrite Z.mod_small; lia.
Qed.

(** The base delay: thirty seconds when the directory has no deadline
    in the future, otherwise twice the time that remains, at most
    [MaxBackoff]. *)
Lemma backoffDelay_rule now dir (b : gmap string Z) :
  backoffDelay now dir b =
    match b !! dir with
    | Some t =>
        if now <? t then Z.min (2 * (t - now)) MaxBackoff else 30 * Second
    | None => 30 * Second
    end.
Proof.
  unfold backoffDelay. destruct (b !! dir) as [t|]; [|reflexivity].
  destruct (Z.ltb_spec now t) as [Hlt|Hge]; [|reflexivity].
  unfold time_Sub.
  destruct (Z.ltb_spec (t - now) int64_min) as [Hmin|_].
  { unfold int64_min in Hmin. lia. }
  unfold MaxBackoff, Minute, Second.
  destruct (Z.ltb_spec int64_max (t - now)) as [Hsat|Hfit].
  - rewrite wrap64_high by (unfold int64_max; lia).
    unfold int64_max in *. simpl. lia.
  - destruct (Z_lt_le_dec (int64_max) ((t - now) * 2)) as [Hbig|Hsmall].
    + rewrite wrap64_high by (unfold int64_max in *; lia).
      unfold int64_max in *.
      destruct (Z.ltb_spec ((t - now) * 2 - 2 ^ 64) 0) as [_|Hc]; [simpl; lia|lia].
    + rewrite wrap64_small by (unfold int64_min, int64_max in *; lia).
      destruct (Z.ltb_spec ((t - now) * 2) 0) as [Hc|_]; [lia|].
      destruct (Z.ltb_spec (10 * (60 * 1000000000)) ((t - now) * 2)); simpl; lia.
Qed.

Lemma backoffDelay_bounds now dir (b : gmap string Z) :
  0 < backoffDelay now dir b <= MaxBackoff.
Proof.
  rewrite backoffDelay_rule. unfold MaxBackoff, Minute, Second.
  destruct (b !! dir) as [t|]; [|lia].
  destruct (Z.ltb_spec now t); lia.
Qed.

Lemma registerScanFailure_deadline now jitter dir (b : gmap string Z) :
  0 <= jitter < 10 * Second ->
  (registerScanFailure now jitter dir b).1 !! dir
    = Some (now + backoffDelay now dir b + jitter).
Proof.
  intros Hj. unfold registerScanFailure, time_Add. simpl.
  rewrite lookup_insert_eq. f_equal.
  pose proof (backoffDelay_bounds now dir b) as Hd.
  unfold MaxBackoff, Minute, Second in *.
  rewrite wrap64_small by (unfold int64_min, int64_max; lia). lia.
Qed.

Lemma registerScanFailure_others now jitter dir dir' (b : gmap string Z) :
  dir <> dir' ->
  (registerScanFailure now jitter dir b).1 !! dir' = b !! dir'.
Proof. intros Hne. unfold registerScanFailure. simpl. by rewrite lookup_insert_ne. Qed.

(** When the next failure is registered before half of the previous
    base delay has gone by, the base delay does not shrink. *)
Lemma backoffDelay_grows now jitter now' dir (b : gmap string Z) :
  0 <= jitter < 10 * Second ->
  now <= now' ->
  2 * (now' - now) <= backoffDelay now dir b ->
  backoffDelay now dir b
    <= backoffDelay now' dir (registerScanFailure now jitter dir b).1.
Proof.
  intros Hj Hle Hhalf.
  rewrite (backoffDelay_rule now' dir).
  rewrite registerScanFailure_deadline by assumption.
  pose proof (backoffDelay_bounds now dir b) as Hd.
  destruct (Z.ltb_spec now' (now + backoffDelay now dir b + jitter)); lia.
Qed.

(** C7 (as the code has it).  For three consecutive failures of one
    directory, at any times and with any jitter below ten seconds: the
    base delay of each is thirty seconds when the directory has no
    deadline in the future and otherwise twice the remaining time, at
    most ten minutes; the new deadline is the time of the call plus base
    delay plus jitter, so the delay with its jitter stays below ten
    minutes and ten seconds; and the base delays do not decrease as
    long as each failure is registered no later than half the previous
    base delay after the one before. *)
Theorem registerScanFailure_three_failures
  (dir : string) (b0 : gmap string Z) (now1 now2 now3 j1 j2 j3 : Z) :
  0 <= j1 < 10 * Second -> 0 <= j2 < 10 * Second -> 0 <= j3 < 10 * Second ->
  let d1 := backoffDelay now1 dir b0 in
  let b1 := (registerScanFailure now1 j1 dir b0).1 in
  let d2 := backoffDelay now2 dir b1 in
  let b2 := (registerScanFailure now2 j2 dir b1).1 in
  let d3 := backoffDelay now3 dir b2 in
  let b3 := (registerScanFailure now3 j3 dir b2).1 in
  (d1 = match b0 !! dir with
        | Some t => if now1 <? t then Z.min (2 * (t - now1)) MaxBackoff
                    else 30 * Second
        | None => 30 * Second
        end) /\
  (d2 = if now2 <? now1 + d1 + j1
        then Z.min (2 * (now1 + d1 + j1 - now2)) MaxBackoff else 30 * Second) /\
  (d3 = if now3 <? now2 + d2 + j2
        then Z.min (2 * (now2 + d2 + j2 - now3)) MaxBackoff else 30 * Second) /\
  (b1 !! dir = Some (now1 + d1 + j1) /\
   b2 !! dir = Some (now2 + d2 + j2) /\
   b3 !! dir = Some (now3 + d3 + j3)) /\
  (0 < d1 <= MaxBackoff /\ 0 < d2 <= MaxBackoff /\ 0 < d3 <= MaxBackoff) /\
  (d1 + j1 < MaxBackoff + 10 * Second /\
   d2 + j2 < MaxBackoff + 10 * Second /\
   d3 + j3 < MaxBackoff + 10 * Second) /\
  (now1 <= now2 -> 2 * (now2 - now1) <= d1 -> d1 <= d2) /\
  (now2 <= now3 -> 2 * (now3 - now2) <= d2 -> d2 <= d3).
Proof.
  intros Hj1 Hj2 Hj3 d1 b1 d2 b2 d3 b3.
  assert (Hb1 : b1 !! dir = Some (now1 + d1 + j1))
    by (apply registerScanFailure_deadline; assumption).
  assert (Hb2 : b2 !! dir = Some (now2 + d2 + j2))
    by (apply registerScanFailure_deadline; assumption).
  assert (Hb3 : b3 !! dir = Some (now3 + d3 + j3))
    by (apply registerScanFailure_deadline; assumption).
  pose proof (backoffDelay_bounds now1 dir b0) as Hd1.
  pose proof (backoffDelay_bounds now2 dir b1) as Hd2.
  pose proof (backoffDelay_bounds now3 dir b2) as Hd3.
  fold d1 in Hd1. fold d2 in Hd2. fold d3 in Hd3.
  split; [apply backoffDelay_rule|].
  split; [unfold d2; rewrite backoffDelay_rule, Hb1; reflexivity|].
  split; [unfold d3; rewrite backoffDelay_rule, Hb2; reflexivity|].
  split; [auto|]. split; [auto|].
  split; [lia|].
  split; intros Hle Hhalf.
  - apply backoffDelay_grows; assumption.
  - apply backoffDelay_grows; assumption.
Qed.

(** C8.  [shouldSkipScan]: while the current time is before the
    directory's deadline the answer is true and the table is left as it
    is; once the deadline is reached the answer is false and the entry
    is deleted, the other entries being kept; without an entry the
    answer is false and the table is left as it is. *)
Theorem shouldSkipScan_spec (now : Z) (dir : string) (b : gmap string Z) :
  let '(skip, b', _) := shouldSkipScan now dir b in
  (forall t, b !! dir = Some t -> now < t -> skip = true /\ b' = b) /\
  (forall t, b !! dir = Some t -> t <= now ->
     skip = false /\ b' = delete dir b /\ b' !! dir = None /\
     (forall dir', dir' <> dir -> b' !! dir' = b !! dir') /\
     shouldSkipScan now dir b' = (false, b', [])) /\
  (b !! dir = None -> skip = false /\ b' = b).
Proof.
  unfold shouldSkipScan. destruct (b !! dir) as [t|] eqn:Hb.
  - destruct (Z.ltb_spec now t) as [Hlt|Hge].
    + split; [|split].
      * intros t' [= <-] _. done.
      * intros t' [= <-] ?. lia.
      * discriminate.
    + split; [|split].
      * intros t' [= <-] ?. lia.
      * intros t' [= <-] _. rewrite lookup_delete_eq.
        split; [done|]. split; [done|]. split; [done|]. split; [|done].
        intros dir' Hne. by rewrite lookup_delete_ne.
      * discriminate.
  - split; [|split]; [discriminate|discriminate|done].
Qed.

End BackoffProperties.

(** C7, witness: three failures registered at the same instant on a
    directory without a deadline, with jitters of 1s, 2s and 3s. *)
Lemma registerScanFailure_three_failures_witness :
  let d1 := scanner.backoffDelay 0 "/certs" ∅ in
  let b1 := (scanner.registerScanFailure 0 Second "/certs" ∅).1 in
  let d2 := scanner.backoffDelay 0 "/certs" b1 in
  let b2 := (scanner.registerScanFailure 0 (2 * Second) "/certs" b1).1 in
  let d3 := scanner.backoffDelay 0 "/certs" b2 in
  0 <= Second < 10 * Second /\ d1 <= d2 /\ d2 <= d3 /\ d3 <= scanner.MaxBackoff.
Proof.
  assert (H1 : 0 <= Second < 10 * Second) by (unfold Second; lia).
  assert (H2 : 0 <= 2 * Second < 10 * Second) by (unfold Second; lia).
  assert (H3 : 0 <= 3 * Second < 10 * Second) by (unfold Second; lia).
  destruct (registerScanFailure_three_failures "/certs" ∅ 0 0 0
              Second (2 * Second) (3 * Second) H1 H2 H3)
    as (_ & _ & _ & _ & (_ & _ & Hd3) & _ & Hgrow1 & Hgrow2).
  split; [exact H1|]. split; [|split].
  - apply Hgrow1; [lia | vm_compute; discriminate].
  - apply Hgrow2; [lia | vm_compute; discriminate].
  - apply Hd3.
Defined.

(** C7, as stated, fails: with failures registered at 0s, 29s and 29s
    (no jitter) the base delays are 30s, 2s and 4s; and with the jitter
    added a delay can exceed ten minutes (here 609s). *)
Lemma registerScanFailure_delays_not_monotone :
  let dir := "/certs" in
  let b1 := (scanner.registerScanFailure 0 0 dir ∅).1 in
  let b2 := (scanner.registerScanFailure (29 * Second) 0 dir b1).1 in
  let b3 := (scanner.registerScanFailure (29 * Second) 0 dir b2).1 in
  let late : gmap string Z := {[ dir := 400 * Second ]} in
  (scanner.backoffDelay 0 dir ∅ = 30 * Second /\
   b1 !! dir = Some (30 * Second)) /\
  (scanner.backoffDelay (29 * Second) dir b1 = 2 * Second /\
   b2 !! dir = Some (31 * Second)) /\
  (scanner.backoffDelay (29 * Second) dir b2 = 4 * Second /\
   b3 !! dir = Some (33 * Second)) /\
  (scanner.registerScanFailure 0 (9 * Second) dir late).1 !! dir
    = Some (609 * Second) /\
  scanner.MaxBackoff = 600 * Second.
Proof. vm_compute. repeat split. Qed.

(** ** internal/cache *)

Section CacheProperties.
Context `{GoStrings} `{GoJSON}.
Import cache.

Lemma decode_encode_byte (b : ascii) : decode_byte (encode_byte b) = Some b.
Proof.
  unfold decode_byte, encode_byte.
  pose proof (N_ascii_bounded b) as Hb.
  destruct (Z.leb_spec 0 (Z.of_N (N_of_ascii b))); [|lia].
  destruct (Z.ltb_spec (Z.of_N (N_of_ascii b)) 256); [|lia].
  cbn. by rewrite N2Z.id, ascii_N_embedding.
Qed.

Lemma decode_bytes_encode (l : list ascii) :
  decode_bytes (encode_byte <$> l) = Some l.
Proof.
  induction l as [|b l IH]; [reflexivity|].
  rewrite fmap_cons. cbn [decode_bytes].
  rewrite decode_encode_byte. cbn. rewrite IH. reflexivity.
Qed.

Lemma fingerprint_of_list_vec (fp : vec ascii 32) :
  fingerprint_of_list (vec_to_list fp) = fp.
Proof.
  apply vec_eq. intros i. unfold fingerprint_of_list.
  rewrite lookup_fun_to_vec.
  assert (Hl : vec_to_list fp !! fin_to_nat i = Some (fp !!! i))
    by (by apply vlookup_lookup).
  rewrite Hl. reflexivity.
Qed.

Lemma decode_encode_fingerprint (fp old : vec ascii 32) :
  decode_fingerprint (encode_fingerprint fp) old = Some fp.
Proof.
  unfold decode_fingerprint, encode_fingerprint.
  rewrite firstn_all2 by (rewrite length_fmap, length_vec_to_list; lia).
  rewrite decode_bytes_encode.
  change (Some (fingerprint_of_list (vec_to_list fp)) = Some fp).
  by rewrite fingerprint_of_list_vec.
Qed.

(** One entry survives the passage through its JSON form. *)
Lemma decode_encode_meta (e : CachedCertMeta) (j : json) :
  (forall s, time_MarshalJSON (ModTime e) = Some s ->
             time_UnmarshalJSON s = Some (ModTime e)) ->
  in_int64 (Size e) = true ->
  encode_meta e = Some j ->
  decode_meta j = Some e.
Proof.
  intros Htime Hsize. unfold encode_meta.
  destruct (time_MarshalJSON (ModTime e)) as [s|] eqn:Hs; [|discriminate].
  cbn -[encode_fingerprint]. intros [= <-].
  cbn -[decode_fingerprint encode_fingerprint zero_meta].
  rewrite decode_encode_fingerprint.
  cbn -[zero_meta]. rewrite (Htime s eq_refl).
  cbn -[zero_meta]. rewrite Hsize.
  by destruct e.
Qed.

Lemma decode_encode_members (l : list (string * CachedCertMeta))
  (members : list (string * json)) (m0 : gmap string CachedCertMeta) :
  Forall (fun kv =>
    (forall s, time_MarshalJSON (ModTime kv.2) = Some s ->
               time_UnmarshalJSON s = Some (ModTime kv.2)) /\
    in_int64 (Size kv.2) = true) l ->
  encode_members l = Some members ->
  decode_members m0 members = Some (foldl store m0 l).
Proof.
  intros Hall. revert members m0.
  induction Hall as [|[k e] l [Htime Hsize] Hall IH]; intros members m0.
  - intros [= <-]. reflexivity.
  - cbn [encode_members].
    destruct (encode_meta e) as [j|] eqn:Hj; [|discriminate]. cbn.
    destruct (encode_members l) as [rest|] eqn:Hrest; [|discriminate]. cbn.
    intros [= <-]. cbn [decode_members].
    rewrite (decode_encode_meta e j Htime Hsize Hj). cbn.
    apply IH. reflexivity.
Qed.

Lemma encode_members_is_Some (l : list (string * CachedCertMeta)) :
  Forall (fun kv => is_Some (time_MarshalJSON (ModTime kv.2))) l ->
  is_Some (encode_members l).
Proof.
  induction 1 as [|[k e] l [s Hs] _ [rest IH]]; [by eexists|].
  cbn [encode_members]. unfold encode_meta. cbn in Hs. rewrite Hs. cbn.
  rewrite IH. cbn. by eexists.
Qed.

(** Storing the entries of a list without repeated keys one after the
    other builds the map of the list. *)
Lemma foldl_store_NoDup (l : list (string * CachedCertMeta))
  (m0 : gmap string CachedCertMeta) :
  NoDup l.*1 -> foldl store m0 l = list_to_map l ∪ m0.
Proof.
  revert m0. induction l as [|[k e] l IH]; intros m0 Hnd.
  - cbn. by rewrite (left_id_L ∅ (∪)).
  - rewrite fmap_cons in Hnd. apply NoDup_cons in Hnd as [Hk Hnd].
    cbn [foldl]. rewrite IH by assumption. unfold store. cbn.
    rewrite <-insert_union_l. symmetry.
    apply insert_union_r.
    by apply not_elem_of_list_to_map_1.
Qed.

Lemma sorted_entries_Permutation (m : gmap string CachedCertMeta) :
  sorted_entries m ≡ₚ map_to_list m.
Proof. apply merge_sort_Permutation. Qed.

Lemma foldl_store_sorted_entries (m : gmap string CachedCertMeta) :
  foldl store ∅ (sorted_entries m) = m.
Proof.
  rewrite foldl_store_NoDup.
  - rewrite (right_id_L ∅ (∪)).
    rewrite (list_to_map_proper _ (map_to_list m)).
    + apply list_to_map_to_list.
    + rewrite sorted_entries_Permutation. apply NoDup_fst_map_to_list.
    + apply sorted_entries_Permutation.
  - rewrite sorted_entries_Permutation. apply NoDup_fst_map_to_list.
Qed.

(** The table survives the passage through its JSON form. *)
Lemma decode_encode_table (m : gmap string CachedCertMeta) (j : json) :
  (forall p e s, m !! p = Some e ->
     time_MarshalJSON (ModTime e) = Some s ->
     time_UnmarshalJSON s = Some (ModTime e)) ->
  (forall p e, m !! p = Some e -> in_int64 (Size e) = true) ->
  encode_table m = Some j ->
  decode_table ∅ j = Some m.
Proof.
  intros Htime Hsize. unfold encode_table.
  destruct (encode_members (sorted_entries m)) as [members|] eqn:Hm;
    [|discriminate].
  cbn. intros [= <-]. cbn [decode_table].
  rewrite (decode_encode_members (sorted_entries m) members ∅).
  - by rewrite foldl_store_sorted_entries.
  - apply Forall_forall. intros [p e] Hin. cbn.
    rewrite sorted_entries_Permutation in Hin.
    apply elem_of_map_to_list in Hin. eauto.
  - exact Hm.
Qed.

Lemma encode_table_is_Some (m : gmap string CachedCertMeta) :
  (forall p e, m !! p = Some e -> is_Some (time_MarshalJSON (ModTime e))) ->
  is_Some (encode_table m).
Proof.
  intros Htime. unfold encode_table.
  destruct (encode_members_is_Some (sorted_entries m)) as [members Hm].
  - apply Forall_forall. intros [p e] Hin. cbn.
    rewrite sorted_entries_Permutation in Hin.
    apply elem_of_map_to_list in Hin. eauto.
  - rewrite Hm. cbn. by eexists.
Qed.

(** A string that is valid UTF-8 is written as it is. *)
Lemma json_coerce_from_valid s : forall skip,
  utf8_valid_from skip s = true -> json_coerce_from skip s = s.
Proof.
  induction s as [|c s IH]; intros skip Hv; [reflexivity|].
  cbn [utf8_valid_from json_coerce_from] in *.
  destruct skip as [|k]; [|by rewrite IH].
  destruct (utf8_rune_len (String c s)) as [|k]; [discriminate|].
  by rewrite IH.
Qed.

Lemma json_coerce_string_valid s :
  utf8_ValidString s = true -> json_coerce_string s = s.
Proof. apply json_coerce_from_valid. Qed.

Lemma json_coerce_encode_byte b : json_coerce (encode_byte b) = encode_byte b.
Proof. reflexivity. Qed.

Lemma json_coerce_encode_fingerprint fp :
  json_coerce (encode_fingerprint fp) = encode_fingerprint fp.
Proof.
  unfold encode_fingerprint. cbn [json_coerce]. f_equal.
  induction (vec_to_list fp) as [|b l IH]; [reflexivity|].
  rewrite fmap_cons. cbn [map]. by rewrite IH.
Qed.

Section WithLaws.
Context {laws : GoJSONLaws}.

(** The JSON form of an entry, and of a table whose paths are valid
    UTF-8, holds no string that is rewritten. *)
Lemma json_coerce_encode_meta e j :
  encode_meta e = Some j -> json_coerce j = j.
Proof.
  unfold encode_meta.
  destruct (time_MarshalJSON (ModTime e)) as [s|] eqn:Hs; [|discriminate].
  cbn -[encode_fingerprint]. intros [= <-].
  cbn -[encode_fingerprint json_coerce_string].
  rewrite json_coerce_encode_fingerprint.
  rewrite (json_coerce_string_valid s) by exact (time_MarshalJSON_utf8 _ _ Hs).
  reflexivity.
Qed.

Lemma json_coerce_encode_members l : forall members,
  Forall (fun kv : string * CachedCertMeta => utf8_ValidString kv.1 = true) l ->
  encode_members l = Some members ->
  map (fun kv : string * json =>
         let '(k, v) := kv in (json_coerce_string k, json_coerce v)) members
  = members.
Proof.
  induction l as [|[k e] l IH]; intros members Hall; cbn [encode_members].
  - by intros [= <-].
  - destruct (encode_meta e) as [j|] eqn:Hj; [|discriminate]. cbn.
    destruct (encode_members l) as [rest|] eqn:Hrest; [|discriminate]. cbn.
    intros [= <-]. apply Forall_cons in Hall as [Hk Hall]. cbn [map].
    rewrite (json_coerce_string_valid k Hk), (json_coerce_encode_meta e j Hj).
    by rewrite (IH rest Hall).
Qed.

Lemma json_coerce_encode_table m j :
  (forall p e, m !! p = Some e -> utf8_ValidString p = true) ->
  encode_table m = Some j -> json_coerce j = j.
Proof.
  intros Hpaths. unfold encode_table.
  destruct (encode_members (sorted_entries m)) as [members|] eqn:Hm;
    [|discriminate].
  cbn. intros [= <-]. cbn [json_coerce]. f_equal.
  apply (json_coerce_encode_members (sorted_entries m)); [|exact Hm].
  apply Forall_forall. intros [p e] Hin. cbn.
  rewrite sorted_entries_Permutation in Hin.
  apply elem_of_map_to_list in Hin. eauto.
Qed.


End WithLaws.

(** C10.  [Load] when the file cannot be read: the table is left as it
    was (as it is without a file path).  The reset to the empty table
    happens exactly when the file is read and its content does not
    parse; when it parses, the table is what the content unmarshals
    to. *)
Theorem Load_read_failure_keeps_table (c : Cache) (disk : Disk) :
  let '(c', lines) := Load c disk in
  (os_ReadFile disk (filePath c) = None -> c' = c) /\
  (filePath c = "" -> c' = c) /\
  (forall text, filePath c <> "" ->
     os_ReadFile disk (filePath c) = Some text ->
     json_Unmarshal text (data c) = None ->
     c' = set_data c ∅) /\
  (forall text m, filePath c <> "" ->
     os_ReadFile disk (filePath c) = Some text ->
     json_Unmarshal text (data c) = Some m ->
     c' = set_data c m) /\
  (Log WarnLevel "Failed to parse cache file" "" ∈ lines <->
     filePath c <> "" /\
     exists text, os_ReadFile disk (filePath c) = Some text /\
                  json_Unmarshal text (data c) = None).
Proof.
  unfold Load. destruct (String.eqb_spec (filePath c) "") as [Hempty|Hpath].
  - split; [done|]. split; [done|]. split; [done|]. split; [done|]. split.
    + intros Hin%list_elem_of_singleton. discriminate.
    + intros [? _]. done.
  - destruct (os_ReadFile disk (filePath c)) as [text|] eqn:Hread.
    + destruct (json_Unmarshal text (data c)) as [m|] eqn:Hparse.
      * split; [done|]. split; [done|].
        split. { intros text' _ [= <-]. by rewrite Hparse. }
        split. { intros text' m' _ [= <-]. rewrite Hparse. by intros [= <-]. }
        split.
        -- intros Hin%list_elem_of_singleton. discriminate.
        -- intros (_ & text' & [= <-] & Hnone). congruence.
      * split; [done|]. split; [done|].
        split. { done. }
        split. { intros text' m' _ [= <-]. by rewrite Hparse. }
        split.
        -- intros _. split; [done|]. by exists text.
        -- intros _. by apply list_elem_of_singleton.
    + split; [done|]. split; [done|]. split; [done|]. split; [done|]. split.
      * intros Hin%list_elem_of_singleton. discriminate.
      * intros (_ & text & Hsome & _). discriminate.
Qed.

End CacheProperties.


(** ** The second JSON layer of the fixtures satisfies the laws *)

Lemma json_ind_members (P : json -> Prop) :
  P JNull -> (forall b, P (JBool b)) -> (forall n, P (JNumber n)) ->
  (forall s, P (JString s)) ->
  (forall elems, Forall P elems -> P (JArray elems)) ->
  (forall members, Forall (fun kv : string * json => P kv.2) members ->
     P (JObject members)) ->
  forall j, P j.
Proof.
  intros HNull HBool HNumber HString HArray HObject. fix IH 1.
  intros [|b|n|s|elems|members]; [done|done|done|done| |].
  - apply HArray. induction elems as [|j elems IHelems].
    + constructor.
    + constructor; [apply IH | exact IHelems].
  - apply HObject. induction members as [|[k v] members IHmembers].
    + constructor.
    + constructor; [apply IH | exact IHmembers].
Qed.

Section ToyLayer.
Import Fixtures.

Lemma length_app_string (s t : string) :
  String.length (s ++ t) = (String.length s + String.length t)%nat.
Proof.
  induction s as [|c s IH]; [reflexivity|].
  change (String c s ++ t)%string with (String c (s ++ t)%string).
  cbn [String.length]. by rewrite IH.
Qed.

Lemma read_unary_write n rest :
  read_unary (write_unary n rest) = Some (n, rest).
Proof.
  induction n as [|n IH]; [reflexivity|].
  cbn [write_unary read_unary]. rewrite IH. reflexivity.
Qed.

Lemma length_write_unary n rest :
  String.length (write_unary n rest) = (S n + String.length rest)%nat.
Proof.
  induction n as [|n IH]; [reflexivity|].
  cbn [write_unary String.length]. by rewrite IH.
Qed.

Lemma read_chars_app s rest :
  read_chars (String.length s) (s ++ rest) = Some (s, rest).
Proof.
  induction s as [|c s IH]; [reflexivity|].
  change (String c s ++ rest)%string with (String c (s ++ rest)%string).
  cbn [String.length read_chars]. rewrite IH. reflexivity.
Qed.

Lemma read_string_write s rest :
  read_string (write_string s rest) = Some (s, rest).
Proof.
  unfold read_string, write_string.
  rewrite read_unary_write. apply read_chars_app.
Qed.

Lemma length_write_string s rest :
  String.length (write_string s rest)
  = (S (String.length s) + String.length s + String.length rest)%nat.
Proof.
  unfold write_string. rewrite length_write_unary, length_app_string. lia.
Qed.

(** A value is written in front of what follows it, and takes at least
    one byte. *)
Lemma length_write_to j : forall rest,
  (String.length rest < String.length (write_to j rest))%nat.
Proof.
  induction j as [|b|n|s|elems IH|members IH] using json_ind_members;
    intros rest; cbn [write_to String.length];
    rewrite ?length_write_string; try lia.
  - enough (String.length (String "]" rest) <=
            String.length (fold_right (fun j r => write_to j r)
                             (String "]" rest) elems))%nat
      by (cbn [String.length] in *; lia).
    induction IH as [|j elems Hj _ IHelems]; [done|].
    cbn [fold_right]. specialize (Hj (fold_right (fun j r => write_to j r)
                                        (String "]" rest) elems)). lia.
  - enough (String.length (String "}" rest) <=
            String.length
              (fold_right (fun (kv : string * json) r =>
                             let '(k, v) := kv in write_string k (write_to v r))
                 (String "}" rest) members))%nat
      by (cbn [String.length] in *; lia).
    induction IH as [|[k v] members Hv _ IHmembers]; [done|].
    cbn [fold_right]. rewrite length_write_string. cbn [snd] in Hv.
    specialize (Hv (fold_right (fun (kv : string * json) r =>
                                  let '(k, v) := kv in
                                  write_string k (write_to v r))
                      (String "}" rest) members)). lia.
Qed.

Lemma write_to_not_bracket j rest :
  exists c r, write_to j rest = String c r /\ Ascii.eqb c "]" = false.
Proof. destruct j as [|[|]| | | |]; cbn [write_to]; by eexists _, _. Qed.

Lemma write_unary_not_brace n rest :
  exists c r, write_unary n rest = String c r /\ Ascii.eqb c "}" = false.
Proof. destruct n; cbn [write_unary]; by eexists _, _. Qed.

(** With enough fuel, a value that was written is read back, and what
    followed it is left. *)
Lemma read_write_to j : forall rest fuel,
  (String.length (write_to j rest) <= fuel + String.length rest)%nat ->
  read fuel (write_to j rest) = Some (j, rest).
Proof.
  induction j as [|b|n|s|elems IH|members IH] using json_ind_members;
    intros rest fuel Hfuel;
    match type of Hfuel with
    | (String.length (write_to ?j _) <= _)%nat =>
        pose proof (length_write_to j rest) as Hlen
    end;
    (destruct fuel as [|fuel]; [lia|]); cbn [write_to] in *.
  - reflexivity.
  - by destruct b.
  - cbn [read]. cbn [Ascii.eqb Bool.eqb]. rewrite read_string_write.
    by rewrite NilEmpty.isi, DecimalZ.of_to.
  - cbn [read]. cbn [Ascii.eqb Bool.eqb]. by rewrite read_string_write.
  - cbn [read]. cbn [Ascii.eqb Bool.eqb].
    enough (Helems : forall n,
      (String.length (fold_right (fun j r => write_to j r)
                        (String "]" rest) elems)
         <= n + String.length rest)%nat ->
      (String.length (fold_right (fun j r => write_to j r)
                        (String "]" rest) elems)
         <= fuel + String.length rest)%nat ->
      read_elems (read fuel) n
        (fold_right (fun j r => write_to j r) (String "]" rest) elems)
      = Some (elems, rest)).
    { rewrite Helems; [done| |]; cbn [String.length] in Hfuel; lia. }
    clear Hfuel Hlen.
    induction IH as [|j elems Hj _ IHelems]; intros n Hn Hf;
      cbn [fold_right] in *.
    + destruct n as [|n]; [cbn [String.length] in Hn; lia|]. reflexivity.
    + set (r1 := fold_right (fun j r => write_to j r) (String "]" rest) elems)
        in *.
      pose proof (length_write_to j r1) as Hj1.
      assert (Hr1 : (String.length rest < String.length r1)%nat).
      { clear. subst r1. induction elems as [|j' elems IHe];
          cbn [fold_right String.length]; [lia|].
        pose proof (length_write_to j'
                      (fold_right (fun j r => write_to j r)
                         (String "]" rest) elems)). lia. }
      destruct n as [|n]; [lia|].
      destruct (write_to_not_bracket j r1) as (c & r & Hw & Hc).
      cbn [read_elems]. rewrite Hw, Hc, <-Hw.
      rewrite (Hj r1 fuel) by lia.
      rewrite IHelems by lia. reflexivity.
  - cbn [read]. cbn [Ascii.eqb Bool.eqb].
    enough (Hmembers : forall n,
      (String.length
         (fold_right (fun (kv : string * json) r =>
                        let '(k, v) := kv in write_string k (write_to v r))
            (String "}" rest) members)
         <= n + String.length rest)%nat ->
      (String.length
         (fold_right (fun (kv : string * json) r =>
                        let '(k, v) := kv in write_string k (write_to v r))
            (String "}" rest) members)
         <= fuel + String.length rest)%nat ->
      read_members (read fuel) n
        (fold_right (fun (kv : string * json) r =>
                       let '(k, v) := kv in write_string k (write_to v r))
           (String "}" rest) members)
      = Some (members, rest)).
    { rewrite Hmembers; [done| |]; cbn [String.length] in Hfuel; lia. }
    clear Hfuel Hlen.
    induction IH as [|[k v] members Hv _ IHmembers]; intros n Hn Hf;
      cbn [fold_right] in *.
    + destruct n as [|n]; [cbn [String.length] in Hn; lia|]. reflexivity.
    + set (r1 := fold_right (fun (kv : string * json) r =>
                               let '(k, v) := kv in
                               write_string k (write_to v r))
                   (String "}" rest) members) in *.
      cbn [snd] in Hv.
      pose proof (length_write_to v r1) as Hv1.
      rewrite length_write_string in Hn, Hf.
      assert (Hr1 : (String.length rest < String.length r1)%nat).
      { clear. subst r1. induction members as [|[k' v'] members IHe];
          cbn [fold_right String.length]; [lia|].
        rewrite length_write_string.
        pose proof (length_write_to v'
                      (fold_right (fun (kv : string * json) r =>
                                     let '(k, v) := kv in
                                     write_string k (write_to v r))
                         (String "}" rest) members)). lia. }
      destruct n as [|n]; [lia|].
      destruct (write_unary_not_brace (String.length k)
                  (k ++ write_to v r1)) as (c & r & Hw & Hc).
      cbn [read_members]. unfold write_string at 1. rewrite Hw, Hc.
      rewrite read_string_write.
      rewrite (Hv r1 fuel) by lia.
      rewrite IHmembers by lia. reflexivity.
Qed.

Lemma parse_write j : parse (write j) = Some (json_coerce j).
Proof.
  unfold parse, write. rewrite read_write_to; [done|].
  cbn [String.length]. lia.
Qed.

(** The decimal digits of a number are ASCII. *)
Lemma utf8_valid_digits d :
  utf8_valid_from 0 (NilEmpty.string_of_uint d) = true.
Proof. induction d; cbn [NilEmpty.string_of_uint]; done. Qed.

Lemma utf8_valid_decimal d :
  utf8_ValidString (NilEmpty.string_of_int d) = true.
Proof. destruct d as [d|d]; apply (utf8_valid_digits d). Qed.

Lemma json_b_laws : @GoJSONLaws json_b.
Proof.
  split.
  - exact parse_write.
  - intros t Ht. cbn.
    destruct (Z.leb_spec year_0 t) as [_|Hlt];
      [|unfold time_text_first, year_0, Second in *; lia].
    destruct (Z.ltb_spec t year_10000) as [_|Hge];
      [|unfold time_text_last, year_10000, Second in *; lia].
    by eexists.
  - intros t s. cbn. destruct (_ && _); [|discriminate].
    intros [= <-]. apply utf8_valid_decimal.
  - intros t s. cbn. destruct (_ && _); [|discriminate].
    intros [= <-]. rewrite NilEmpty.isi. cbn. by rewrite DecimalZ.of_to.
Qed.

End ToyLayer.



(** ** internal/scanner: the directory scan *)

(** Induction over a file tree, with the property available for every
    entry of a directory. *)
Lemma Node_ind_entries (P : Node -> Prop) :
  (forall name stat content, P (File name stat content)) ->
  (forall name readdir_ok entries,
     Forall P entries -> P (Dir name readdir_ok entries)) ->
  forall d, P d.
Proof.
  intros HFile HDir. fix IH 1. intros [name stat content|name ok entries].
  - apply HFile.
  - apply HDir. induction entries as [|d1 entries IHentries].
    + constructor.
    + constructor; [apply IH | exact IHentries].
Qed.

Section MonadRules.
Import scanner.

Lemma spec_ret {A} Q P (R : A -> Prop) (a : A) : R a -> spec Q P R (mret a).
Proof. intros Ha s Hs. repeat split; assumption. Qed.

Lemma spec_bind {A B} Q P (R1 : A -> Prop) (R2 : B -> Prop)
  (m : M A) (k : A -> M B) :
  spec Q P R1 m ->
  (forall a, R1 a -> spec Q P R2 (k a)) ->
  spec Q P R2 (m ≫= k).
Proof.
  intros Hm Hk s Hs. specialize (Hm s Hs).
  unfold mbind, M_bind, retval, final, events in *.
  destruct (m s) as [[a s1] es1]. cbn in Hm. destruct Hm as (Hs1 & Hes1 & Ha).
  specialize (Hk a Ha s1 Hs1).
  destruct (k a s1) as [[b s2] es2]. cbn in *. destruct Hk as (Hs2 & Hes2 & Hb).
  repeat split; [assumption| |assumption].
  rewrite forallb_app, Hes1, Hes2. reflexivity.
Qed.

Lemma spec_seq {A B} Q P (R : B -> Prop) (m : M A) (k : A -> M B) :
  spec Q P (fun _ => True) m ->
  (forall a, spec Q P R (k a)) ->
  spec Q P R (m ≫= k).
Proof. intros Hm Hk. eapply spec_bind; [exact Hm|]. intros a _. apply Hk. Qed.

Lemma spec_weaken {A} (Q : State -> Prop) (P P' : Event -> bool)
  (R R' : A -> Prop) (m : M A) :
  spec Q P R m ->
  (forall e, P e = true -> P' e = true) ->
  (forall a, R a -> R' a) ->
  spec Q P' R' m.
Proof.
  intros Hm HP HR s Hs. destruct (Hm s Hs) as (Hs' & Hes & Ha).
  repeat split; [assumption| |auto].
  rewrite forallb_forall in *. auto.
Qed.

Lemma spec_emit Q P (e : Event) :
  P e = true -> spec Q P (fun _ => True) (emit e).
Proof. intros He s Hs. cbn. rewrite He. repeat split; assumption. Qed.

Lemma spec_log Q P lvl msg subject :
  P (EvLog (Log lvl msg subject)) = true ->
  spec Q P (fun _ => True) (log lvl msg subject).
Proof. apply spec_emit. Qed.

Lemma spec_metric Q P m labels op :
  P (EvMetric (Write_ m labels op)) = true ->
  spec Q P (fun _ => True) (metric m labels op).
Proof. apply spec_emit. Qed.

Lemma spec_emit_all Q P (es : list Event) :
  forallb P es = true -> spec Q P (fun _ => True) (emit_all es).
Proof.
  induction es as [|e es IH]; cbn [emit_all forallb].
  - intros _. by apply spec_ret.
  - intros [He Hes]%andb_prop.
    apply spec_seq; [by apply spec_emit|]. intros _. by apply IH.
Qed.

Lemma spec_when Q P (b : bool) (m : M unit) :
  (b = true -> spec Q P (fun _ => True) m) ->
  spec Q P (fun _ => True) (when b m).
Proof. destruct b; cbn; intros Hm; [by apply Hm | by apply spec_ret]. Qed.

Lemma spec_get_cache_eq Q P :
  spec Q P (fun c => exists s, Q s /\ st_cache s = c) get_cache.
Proof. intros s Hs. repeat split; [assumption|]. by exists s. Qed.

Lemma spec_get_cache Q P : spec Q P (fun _ => True) get_cache.
Proof. intros s Hs. repeat split; assumption. Qed.

Lemma spec_get_seen_eq Q P :
  spec Q P (fun m => exists s, Q s /\ st_seen s = m) get_seen.
Proof. intros s Hs. repeat split; [assumption|]. by exists s. Qed.

Lemma spec_get_seen Q P : spec Q P (fun _ => True) get_seen.
Proof. intros s Hs. repeat split; assumption. Qed.

Lemma spec_get_backoff_eq Q P :
  spec Q P (fun b => exists s, Q s /\ st_backoff s = b) get_backoff.
Proof. intros s Hs. repeat split; [assumption|]. by exists s. Qed.

Lemma spec_get_backoff Q P : spec Q P (fun _ => True) get_backoff.
Proof. intros s Hs. repeat split; assumption. Qed.

Lemma spec_put_cache (Q : State -> Prop) P c :
  (forall s, Q s -> Q (with_cache s c)) ->
  spec Q P (fun _ => True) (put_cache c).
Proof. intros HQ s Hs. repeat split. by apply HQ. Qed.

Lemma spec_put_seen (Q : State -> Prop) P m :
  (forall s, Q s -> Q (with_seen s m)) ->
  spec Q P (fun _ => True) (put_seen m).
Proof. intros HQ s Hs. repeat split. by apply HQ. Qed.

Lemma spec_put_backoff (Q : State -> Prop) P b :
  (forall s, Q s -> Q (with_backoff s b)) ->
  spec Q P (fun _ => True) (put_backoff b).
Proof. intros HQ s Hs. repeat split. by apply HQ. Qed.

(** *** Rules for [sim] *)

Lemma sim_ret {A} (a : A) : sim (mret a) (mret a).
Proof. intros s. repeat split. Qed.

Lemma sim_bind {A B} (m1 m2 : M A) (k1 k2 : A -> M B) :
  sim m1 m2 -> (forall a, sim (k1 a) (k2 a)) ->
  sim (m1 ≫= k1) (m2 ≫= k2).
Proof.
  intros Hm Hk s. specialize (Hm s).
  unfold mbind, M_bind, retval, final, events in *.
  destruct (m1 s) as [[a1 s1] es1], (m2 s) as [[a2 s2] es2]. cbn in Hm.
  destruct Hm as (-> & -> & ->). specialize (Hk a1 s1).
  destruct (k1 a1 s1) as [[b1 t1] fs1], (k2 a1 s1) as [[b2 t2] fs2]. cbn in *.
  destruct Hk as (-> & -> & ->).
  repeat split. by rewrite List.filter_app.
Qed.

(** A computation that produces no gated event is similar to itself. *)
Lemma sim_refl {A} (m : M A) :
  spec (fun _ => True) ungated (fun _ => True) m -> sim m m.
Proof.
  intros Hm s. destruct (Hm s I) as (_ & Hes & _).
  repeat split. symmetry. apply forallb_filter_id, Hes.
Qed.

(** A computation that only produces gated events and leaves the
    state as it is can be dropped. *)
Lemma sim_drop (m : M unit) :
  (forall s, final (m s) = s /\ forallb gated (events (m s)) = true) ->
  sim m (mret tt).
Proof.
  intros Hm s. destruct (Hm s) as (Hs & Hes).
  unfold retval, final, events in *. destruct (m s) as [[[] s1] es]. cbn in *.
  subst s1. repeat split.
  induction es as [|e es IH]; [reflexivity|].
  cbn in *. apply andb_prop in Hes as [He Hes]. unfold ungated at 1.
  rewrite He. cbn. by apply IH.
Qed.

End MonadRules.

Section WalkRules.
Import scanner.

Variable fn : string -> Node -> option string -> M (option WalkErr).

(** The walk preserves what the visiting function preserves on the
    entries it reaches.  [Good path d] is a property of the entries
    that passes from a directory the function does not skip to the
    entries below it. *)
Lemma walk_entries_spec Q P
  (walk : string -> Node -> M (option WalkErr)) path entries :
  Forall (fun d1 =>
    spec Q P (fun _ => True) (walk (filepath_Join path (node_Name d1)) d1))
    entries ->
  spec Q P (fun _ => True) (walk_entries walk path entries).
Proof.
  induction 1 as [|d1 entries Hd1 _ IH]; cbn [walk_entries].
  - by apply spec_ret.
  - apply spec_seq; [exact Hd1|]. intros [err|].
    + destruct (is_SkipDir err); by apply spec_ret.
    + exact IH.
Qed.

Lemma walkDir_spec Q P (Good : string -> Node -> Prop) :
  (forall path d err, Good path d ->
     spec Q P (fun _ => True) (fn path d err)) ->
  (forall path name readdir_ok entries,
     Good path (Dir name readdir_ok entries) ->
     spec Q P (fun r => r = None ->
                 Forall (fun d1 => Good (filepath_Join path (node_Name d1)) d1)
                        entries)
          (fn path (Dir name readdir_ok entries) None)) ->
  forall d path, Good path d ->
    spec Q P (fun _ => True) (walkDir fn path d).
Proof.
  intros Hfn Hdown.
  induction d as [name stat content|name ok entries IH] using Node_ind_entries;
    intros path Hgood; cbn [walkDir].
  - apply spec_seq; [by apply Hfn|]. intros [err|]; by apply spec_ret.
  - eapply spec_bind; [by apply Hdown|]. intros [err|] Hchildren.
    { by apply spec_ret. }
    specialize (Hchildren eq_refl).
    apply spec_seq.
    { destruct ok; [by apply spec_ret | by apply Hfn]. }
    intros [err|]; [by apply spec_ret|].
    apply walk_entries_spec.
    rewrite Forall_forall in *. intros d1 Hd1. apply IH; auto.
Qed.

(** When the function returns no error but [SkipDir], and that only
    for a directory, the walk returns no error. *)
Lemma walk_entries_value Q P
  (walk : string -> Node -> M (option WalkErr)) path entries :
  Forall (fun d1 =>
    spec Q P (fun r => r = None) (walk (filepath_Join path (node_Name d1)) d1))
    entries ->
  spec Q P (fun r => r = None) (walk_entries walk path entries).
Proof.
  induction 1 as [|d1 entries Hd1 _ IH]; cbn [walk_entries].
  - by apply spec_ret.
  - eapply spec_bind; [exact Hd1|]. intros err ->. exact IH.
Qed.

Lemma walkDir_value Q P :
  (forall path d err,
     spec Q P (fun r => r = None \/ (r = Some SkipDir /\ node_IsDir d = true))
          (fn path d err)) ->
  forall d path, spec Q P (fun r => r = None) (walkDir fn path d).
Proof.
  intros Hfn.
  induction d as [name stat content|name ok entries IH] using Node_ind_entries;
    intros path; cbn [walkDir].
  - eapply spec_bind; [by apply Hfn|].
    intros r [->|[_ Hdir]]; [by apply spec_ret | discriminate].
  - eapply spec_bind; [by apply Hfn|].
    intros r [->|[-> _]]; [|by apply spec_ret].
    apply (spec_bind _ _
             (fun r => r = None \/
                (r = Some SkipDir /\ node_IsDir (Dir name ok entries) = true))).
    { destruct ok; [apply spec_ret; by left | by apply Hfn]. }
    intros r [->|[-> _]]; [|by apply spec_ret].
    apply walk_entries_value.
    rewrite Forall_forall in *. intros d1 Hd1. by apply IH.
Qed.

Lemma WalkDir_value Q P :
  (forall path d err,
     spec Q P (fun r => r = None \/ (r = Some SkipDir /\ node_IsDir d = true))
          (fn path d err)) ->
  forall d root, spec Q P (fun r => r = None) (WalkDir fn root d).
Proof.
  intros Hfn d root. unfold WalkDir.
  eapply spec_bind; [by apply walkDir_value|].
  intros r ->. by apply spec_ret.
Qed.

Lemma WalkDir_spec Q P (Good : string -> Node -> Prop) :
  (forall path d err, Good path d ->
     spec Q P (fun _ => True) (fn path d err)) ->
  (forall path name readdir_ok entries,
     Good path (Dir name readdir_ok entries) ->
     spec Q P (fun r => r = None ->
                 Forall (fun d1 => Good (filepath_Join path (node_Name d1)) d1)
                        entries)
          (fn path (Dir name readdir_ok entries) None)) ->
  forall d root, Good root d ->
    spec Q P (fun _ => True) (WalkDir fn root d).
Proof.
  intros Hfn Hdown d root Hgood. unfold WalkDir.
  apply spec_seq; [by eapply walkDir_spec|].
  intros [[]|]; by apply spec_ret.
Qed.

End WalkRules.

Section WalkSim.
Import scanner.

Variables fn1 fn2 : string -> Node -> option string -> M (option WalkErr).
Hypothesis fn_sim : forall path d err, sim (fn1 path d err) (fn2 path d err).

Lemma walk_entries_sim
  (walk1 walk2 : string -> Node -> M (option WalkErr)) path entries :
  Forall (fun d1 =>
    sim (walk1 (filepath_Join path (node_Name d1)) d1)
        (walk2 (filepath_Join path (node_Name d1)) d1)) entries ->
  sim (walk_entries walk1 path entries) (walk_entries walk2 path entries).
Proof.
  induction 1 as [|d1 entries Hd1 _ IH]; cbn [walk_entries].
  - apply sim_ret.
  - apply sim_bind; [exact Hd1|]. intros [err|].
    + destruct (is_SkipDir err); apply sim_ret.
    + exact IH.
Qed.

Lemma walkDir_sim d : forall path, sim (walkDir fn1 path d) (walkDir fn2 path d).
Proof.
  induction d as [name stat content|name ok entries IH] using Node_ind_entries;
    intros path; cbn [walkDir].
  - apply sim_bind; [apply fn_sim|]. intros [err|]; apply sim_ret.
  - apply sim_bind; [apply fn_sim|]. intros [err|]; [apply sim_ret|].
    apply sim_bind.
    { destruct ok; [apply sim_ret | apply fn_sim]. }
    intros [err|]; [apply sim_ret|].
    apply walk_entries_sim.
    rewrite Forall_forall in *. intros d1 Hd1. by apply IH.
Qed.

Lemma WalkDir_sim d root : sim (WalkDir fn1 root d) (WalkDir fn2 root d).
Proof.
  unfold WalkDir. apply sim_bind; [apply walkDir_sim|].
  intros [[]|]; apply sim_ret.
Qed.

End WalkSim.

Section ScanRules.
Import scanner.
Context `{GoStrings} `{GoCrypto}.
Variable env : Env.

(** The proof steps shared by the lemmas below: split a sequence,
    close a return, and discharge the side condition of an emitted
    event with [tac]. *)
Ltac spec_step tac :=
  first
    [ apply spec_ret; exact I
    | apply spec_log; tac
    | apply spec_metric; tac
    | apply spec_emit; tac
    | apply spec_when; intros ?
    | apply spec_seq; [|intros ?] ].

Ltac spec_steps tac := repeat (spec_step tac).

Section AnyInvariant.
Variable Q : State -> Prop.
Variable P : Event -> bool.
Hypothesis P_ungated : forall e, gated e = false -> P e = true.

Ltac ungated := apply P_ungated; reflexivity.

Lemma sanitizeLabelValue_spec val :
  spec Q P (fun _ => True) (sanitizeLabelValue val).
Proof.
  unfold sanitizeLabelValue. cbv zeta.
  destruct (_ <? _)%nat; spec_steps ltac:(ungated).
Qed.

Lemma pemLoop_spec fuel : forall rest path dirPath,
  spec Q P (fun _ => True) (pemLoop fuel rest path dirPath).
Proof.
  induction fuel as [|fuel IH]; intros rest path dirPath; cbn [pemLoop].
  - by apply spec_ret.
  - apply spec_seq; [apply spec_emit; ungated|]. intros _.
    destruct (pem_Decode rest) as [[block|] r]; [|by apply spec_ret].
    destruct (negb _); [apply IH|].
    apply spec_seq; [apply spec_emit; ungated|]. intros _.
    destruct (x509_ParseCertificate _).
    + spec_steps ltac:(ungated).
    + apply spec_seq; [apply spec_log; ungated|]. intros _.
      apply spec_seq; [apply spec_metric; ungated|]. intros _.
      apply IH.
Qed.

Lemma parseLeafCertificate_spec raw ext path dirPath :
  spec Q P (fun _ => True) (parseLeafCertificate raw ext path dirPath).
Proof.
  unfold parseLeafCertificate. destruct (String.eqb ext ".der").
  - apply spec_seq; [apply spec_emit; ungated|]. intros _.
    destruct (x509_ParseCertificate raw); spec_steps ltac:(ungated).
  - apply pemLoop_spec.
Qed.

Lemma exportMetrics_spec cfg c file sanitizedFile cn issuer sans hostname
  issuerCode count :
  (forall e, gated e = true -> P e = true) ->
  spec Q P (fun _ => True)
    (exportMetrics env cfg c file sanitizedFile cn issuer sans hostname
       issuerCode count).
Proof.
  intros P_gated. unfold exportMetrics.
  spec_steps ltac:(apply P_gated; reflexivity).
Qed.

End AnyInvariant.

(** Invariants of the walk: they do not depend on the cache nor on
    the map [seen]. *)
Section WalkInvariant.
Variable Q : State -> Prop.
Variable P : Event -> bool.
Variable dryRun : bool.
Hypothesis Q_cache : forall s c, Q s -> Q (with_cache s c).
Hypothesis Q_seen : forall s m, Q s -> Q (with_seen s m).
Hypothesis P_ungated : forall e, gated e = false -> P e = true.
Hypothesis P_gated :
  negb dryRun && shouldWriteMetrics env = true ->
  forall e, gated e = true -> P e = true.

Ltac ungated := apply P_ungated; reflexivity.

Lemma processCertificate_spec c path dirPath hostname :
  spec Q P (fun _ => True) (processCertificate env c path dirPath hostname dryRun).
Proof.
  unfold processCertificate. cbv zeta.
  apply spec_seq; [by apply sanitizeLabelValue_spec|]. intros sanitizedFile.
  apply spec_seq; [apply spec_get_seen|]. intros seen.
  apply spec_seq; [apply spec_put_seen; auto|]. intros _.
  apply spec_seq; [by apply sanitizeLabelValue_spec|]. intros cn.
  apply spec_seq; [by apply sanitizeLabelValue_spec|]. intros issuer.
  apply spec_seq.
  { destruct (_ <? _)%nat; [by apply sanitizeLabelValue_spec | by apply spec_ret]. }
  intros sans.
  apply spec_seq; [|intros _; apply spec_log; ungated].
  destruct (negb dryRun && shouldWriteMetrics env) eqn:Hwrite;
    [|by apply spec_ret].
  destruct (env_config env); [|by apply spec_ret].
  apply exportMetrics_spec. by apply P_gated.
Qed.

Lemma visit_spec dirPath hostname path d err :
  spec Q P (fun r => r = None \/ (r = Some SkipDir /\ node_IsDir d = true))
    (visit env dirPath hostname dryRun path d err).
Proof.
  unfold visit. destruct err; [apply spec_ret; by left|].
  destruct d as [name stat content|name ok entries].
  - cbv zeta. destruct (negb (is_cert_ext _)); [apply spec_ret; by left|].
    apply spec_seq; [apply spec_get_cache|]. intros c.
    destruct (cache.GetEntryAtomic c stat path) as [[[cached info] found]|].
    + apply spec_seq; [apply spec_metric; ungated|]. intros _.
      destruct (found && _ && _).
      { apply spec_seq; [apply spec_log; ungated|]. intros _.
        apply spec_ret; by left. }
      apply spec_seq; [apply spec_emit; ungated|]. intros _.
      destruct content as [raw|].
      * apply spec_seq; [by apply parseLeafCertificate_spec|]. intros [leaf|msg].
        -- apply spec_seq; [apply processCertificate_spec|]. intros _.
           apply spec_seq; [apply spec_emit; ungated|]. intros _.
           apply spec_seq; [apply spec_get_cache|]. intros c'.
           apply spec_seq; [apply spec_put_cache; auto|]. intros _.
           apply spec_ret; by left.
        -- apply spec_seq; [apply spec_log; ungated|]. intros _.
           apply spec_ret; by left.
      * apply spec_seq; [apply spec_log; ungated|]. intros _.
        apply spec_seq; [apply spec_metric; ungated|]. intros _.
        apply spec_ret; by left.
    + apply spec_seq; [apply spec_log; ungated|]. intros _.
      apply spec_seq; [apply spec_metric; ungated|]. intros _.
      apply spec_ret; by left.
  - destruct (is_skipped_name name).
    + apply spec_seq; [apply spec_log; ungated|]. intros _.
      apply spec_ret. by right.
    + apply spec_ret; by left.
Qed.

Lemma WalkDir_visit_spec dirPath hostname root d :
  spec Q P (fun r => r = None)
    (WalkDir (visit env dirPath hostname dryRun) root d).
Proof. apply WalkDir_value. intros. apply visit_spec. Qed.

End WalkInvariant.

(** *** The two backoff operations, run *)

Lemma emit_all_run es s : emit_all es s = (tt, s, es).
Proof.
  induction es as [|e es IH]; [reflexivity|].
  cbn [emit_all]. unfold mbind, M_bind. cbn. by rewrite IH.
Qed.

Lemma shouldSkipScanM_run dir s :
  shouldSkipScanM env dir s =
    let '(skip, b', lines) := shouldSkipScan (env_now env) dir (st_backoff s) in
    (skip, with_backoff s b', EvLog <$> lines).
Proof.
  unfold shouldSkipScanM, mbind, M_bind, get_backoff.
  destruct (shouldSkipScan _ _ _) as [[skip b'] lines].
  unfold put_backoff. rewrite emit_all_run. cbn. by rewrite app_nil_r.
Qed.

Lemma registerScanFailureM_run dir s :
  registerScanFailureM env dir s =
    let '(b', lines) :=
      registerScanFailure (env_now env) (env_jitter env) dir (st_backoff s) in
    (tt, with_backoff s b', EvLog <$> lines).
Proof.
  unfold registerScanFailureM, mbind, M_bind, get_backoff.
  destruct (registerScanFailure _ _ _ _) as [b' lines].
  unfold put_backoff. by rewrite emit_all_run.
Qed.

Lemma shouldSkipScanM_spec (Q : State -> Prop) P dir :
  (forall s b, Q s -> Q (with_backoff s b)) ->
  (forall l, gated (EvLog l) = false -> P (EvLog l) = true) ->
  spec Q P (fun _ => True) (shouldSkipScanM env dir).
Proof.
  intros HQ HP s Hs. rewrite shouldSkipScanM_run.
  unfold shouldSkipScan. destruct (st_backoff s !! dir) as [t|]; cbn.
  - destruct (env_now env <? t); cbn; rewrite HP by reflexivity; auto.
  - auto.
Qed.

Lemma registerScanFailureM_spec (Q : State -> Prop) P dir :
  (forall s b, Q s -> Q (with_backoff s b)) ->
  (forall l, gated (EvLog l) = false -> P (EvLog l) = true) ->
  spec Q P (fun _ => True) (registerScanFailureM env dir).
Proof.
  intros HQ HP s Hs. rewrite registerScanFailureM_run. cbn.
  rewrite HP by reflexivity. auto.
Qed.

Lemma ungated_intro e : gated e = false -> ungated e = true.
Proof. unfold ungated. by intros ->. Qed.

(** *** Dry run: no gated event *)

Lemma ProcessDirectory_dry dirPath dryRun :
  negb dryRun && shouldWriteMetrics env = false ->
  spec (fun _ => True) ungated (fun _ => True)
    (ProcessDirectory env dirPath dryRun).
Proof.
  intros Hdry. unfold ProcessDirectory. rewrite Hdry.
  apply spec_seq; [apply spec_when; intros _; by apply spec_log|]. intros _.
  apply spec_seq.
  { apply shouldSkipScanM_spec; [done|]. intros l. apply ungated_intro. }
  intros [|].
  { apply spec_seq; [by apply spec_log|]. intros _. by apply spec_ret. }
  cbv zeta.
  assert (Hfail : spec (fun _ => True) ungated (fun _ => True)
            (log WarnLevel "Skipping non-directory" dirPath ;;
             registerScanFailureM env dirPath ;;
             observeScanDuration env dirPath ;;
             mret (None : option (gmap string Z)))).
  { apply spec_seq; [by apply spec_log|]. intros _.
    apply spec_seq.
    { apply registerScanFailureM_spec; [done|]. intros l. apply ungated_intro. }
    intros _. apply spec_seq; [by apply spec_metric|]. intros _.
    by apply spec_ret. }
  destruct (env_fs env dirPath) as [root|]; [|exact Hfail].
  destruct (negb (stat_is_dir (Some root))); [exact Hfail|].
  apply spec_seq; [by apply spec_put_seen|]. intros _.
  apply spec_seq.
  { eapply spec_weaken; [apply (WalkDir_visit_spec (fun _ => True) ungated dryRun)| |];
      try done.
    - intros e. apply ungated_intro.
    - rewrite Hdry. discriminate. }
  intros err. apply spec_seq.
  { destruct err.
    - apply spec_seq; [by apply spec_log|]. intros _.
      apply registerScanFailureM_spec; [done|]. intros l. apply ungated_intro.
    - by apply spec_ret. }
  intros _. apply spec_seq; [apply spec_get_seen|]. intros seen.
  apply spec_seq; [by apply spec_ret|]. intros _.
  apply spec_seq; [by apply spec_metric|]. intros _.
  by apply spec_ret.
Qed.

(** *** A dry run against a normal scan *)

Section DryRunRelation.
Hypothesis metrics_on : shouldWriteMetrics env = true.

Lemma sanitizeLabelValue_sim val :
  sim (sanitizeLabelValue val) (sanitizeLabelValue val).
Proof. apply sim_refl, sanitizeLabelValue_spec. apply ungated_intro. Qed.

Lemma emit_sim e : gated e = false -> sim (emit e) (emit e).
Proof. intros He. apply sim_refl, spec_emit. by apply ungated_intro. Qed.

Lemma exportMetrics_sim cfg c file sanitizedFile cn issuer sans hostname
  issuerCode count :
  sim (exportMetrics env cfg c file sanitizedFile cn issuer sans hostname
         issuerCode count)
      (mret tt).
Proof.
  apply sim_drop. intros s.
  destruct (exportMetrics_spec (fun s' => s' = s) gated cfg c file
              sanitizedFile cn issuer sans hostname issuerCode count
              (fun e He => He) s eq_refl) as (Hs & Hes & _).
  by split.
Qed.

Lemma processCertificate_sim c path dirPath hostname :
  sim (processCertificate env c path dirPath hostname false)
      (processCertificate env c path dirPath hostname true).
Proof.
  unfold processCertificate. cbv zeta. rewrite metrics_on. cbn [negb andb].
  apply sim_bind; [apply sanitizeLabelValue_sim|]. intros sanitizedFile.
  apply sim_bind; [by apply sim_refl, spec_get_seen|]. intros seen.
  apply sim_bind; [by apply sim_refl, spec_put_seen|]. intros _.
  apply sim_bind; [apply sanitizeLabelValue_sim|]. intros cn.
  apply sim_bind; [apply sanitizeLabelValue_sim|]. intros issuer.
  apply sim_bind.
  { destruct (_ <? _)%nat; [apply sanitizeLabelValue_sim | apply sim_ret]. }
  intros sans.
  apply sim_bind; [|intros _; by apply emit_sim].
  destruct (env_config env); [apply exportMetrics_sim | apply sim_ret].
Qed.

Lemma visit_sim dirPath hostname path d err :
  sim (visit env dirPath hostname false path d err)
      (visit env dirPath hostname true path d err).
Proof.
  unfold visit. destruct err; [apply sim_ret|].
  destruct d as [name stat content|name ok entries].
  - cbv zeta. destruct (negb (is_cert_ext _)); [apply sim_ret|].
    apply sim_bind; [by apply sim_refl, spec_get_cache|]. intros c.
    destruct (cache.GetEntryAtomic c stat path) as [[[cached info] found]|].
    + apply sim_bind; [by apply emit_sim|]. intros _.
      destruct (found && _ && _).
      { apply sim_bind; [by apply emit_sim|]. intros _. apply sim_ret. }
      apply sim_bind; [by apply emit_sim|]. intros _.
      destruct content as [raw|].
      * apply sim_bind.
        { apply sim_refl, parseLeafCertificate_spec. apply ungated_intro. }
        intros [leaf|msg].
        -- apply sim_bind; [apply processCertificate_sim|]. intros _.
           apply sim_bind; [by apply emit_sim|]. intros _.
           apply sim_bind; [by apply sim_refl, spec_get_cache|]. intros c'.
           apply sim_bind; [by apply sim_refl, spec_put_cache|]. intros _.
           apply sim_ret.
        -- apply sim_bind; [by apply emit_sim|]. intros _. apply sim_ret.
      * apply sim_bind; [by apply emit_sim|]. intros _.
        apply sim_bind; [by apply emit_sim|]. intros _. apply sim_ret.
    + apply sim_bind; [by apply emit_sim|]. intros _.
      apply sim_bind; [by apply emit_sim|]. intros _. apply sim_ret.
  - destruct (is_skipped_name name).
    + apply sim_bind; [by apply emit_sim|]. intros _. apply sim_ret.
    + apply sim_ret.
Qed.

Lemma registerScanFailureM_sim dir :
  sim (registerScanFailureM env dir) (registerScanFailureM env dir).
Proof.
  apply sim_refl, registerScanFailureM_spec; [done|].
  intros l. apply ungated_intro.
Qed.

Lemma ProcessDirectory_sim dirPath :
  sim (ProcessDirectory env dirPath false) (ProcessDirectory env dirPath true).
Proof.
  unfold ProcessDirectory. rewrite metrics_on. cbn [negb andb].
  apply sim_bind; [apply sim_ret|]. intros _.
  apply sim_bind.
  { apply sim_refl, shouldSkipScanM_spec; [done|]. intros l. apply ungated_intro. }
  intros [|].
  { apply sim_bind; [by apply emit_sim|]. intros _. apply sim_ret. }
  cbv zeta.
  assert (Hfail : sim
            (log WarnLevel "Skipping non-directory" dirPath ;;
             registerScanFailureM env dirPath ;;
             observeScanDuration env dirPath ;;
             mret (None : option (gmap string Z)))
            (log WarnLevel "Skipping non-directory" dirPath ;;
             registerScanFailureM env dirPath ;;
             observeScanDuration env dirPath ;;
             mret (None : option (gmap string Z)))).
  { apply sim_bind; [by apply emit_sim|]. intros _.
    apply sim_bind; [apply registerScanFailureM_sim|]. intros _.
    apply sim_bind; [by apply emit_sim|]. intros _. apply sim_ret. }
  destruct (env_fs env dirPath) as [root|]; [|exact Hfail].
  destruct (negb (stat_is_dir (Some root))); [exact Hfail|].
  apply sim_bind; [by apply sim_refl, spec_put_seen|]. intros _.
  apply sim_bind; [apply WalkDir_sim; intros; apply visit_sim|]. intros err.
  apply sim_bind.
  { destruct err.
    - apply sim_bind; [by apply emit_sim|]. intros _.
      apply registerScanFailureM_sim.
    - apply sim_ret. }
  intros _. apply sim_bind; [by apply sim_refl, spec_get_seen|]. intros seen.
  apply sim_bind.
  { apply sim_drop. intros s. by split. }
  intros _. apply sim_bind; [by apply emit_sim|]. intros _. apply sim_ret.
Qed.

End DryRunRelation.

(** *** Unchanged files *)

(** A file that is cached with its current modification time and size
    is skipped: apart from the files-seen counter and a debug line
    nothing happens. *)
Lemma visit_cached_file dirPath hostname dryRun path name info content s :
  cached_as (st_cache s) path info = true ->
  visit env dirPath hostname dryRun path (File name (Some info) content) None s =
    if is_candidate name then
      (None, s,
       [EvMetric (Write_ CertFilesTotal [dirPath] OpInc);
        EvLog (Log DebugLevel "Skipping file with unchanged ModTime and Size" path)])
    else (None, s, []).
Proof.
  unfold cached_as, visit, is_candidate. intros Hcached. cbv zeta.
  destruct (is_cert_ext _); [|reflexivity]. cbn [negb].
  unfold mbind, M_bind, get_cache, cache.GetEntryAtomic.
  destruct (cache.data (st_cache s) !! path) as [cached|]; [|discriminate].
  cbn. rewrite Hcached. reflexivity.
Qed.

Section Unchanged.
Variable c0 : cache.Cache.

Lemma visit_unchanged dirPath hostname dryRun path d err :
  unchanged c0 path d = true ->
  spec (fun s => st_cache s = c0) quiet (fun _ => True)
    (visit env dirPath hostname dryRun path d err).
Proof.
  intros Hgood. destruct err; [by apply spec_ret|].
  destruct d as [name stat content|name ok entries]; cbn [unchanged] in Hgood.
  - destruct (is_candidate name) eqn:Hcand.
    + destruct stat as [info|].
      * intros s Hs. rewrite visit_cached_file by (by rewrite Hs).
        rewrite Hcand. by cbn.
      * unfold is_candidate in Hcand. unfold visit. cbv zeta.
        rewrite Hcand. cbn [negb].
        apply spec_seq; [apply spec_get_cache|]. intros c. cbn.
        apply spec_seq; [by apply spec_log|]. intros _.
        apply spec_seq; [by apply spec_metric|]. intros _.
        by apply spec_ret.
    + unfold is_candidate in Hcand. unfold visit. cbv zeta.
      rewrite Hcand. by apply spec_ret.
  - unfold visit. destruct (is_skipped_name name).
    + apply spec_seq; [by apply spec_log|]. intros _. by apply spec_ret.
    + by apply spec_ret.
Qed.

Lemma visit_unchanged_entries dirPath hostname dryRun path name ok entries :
  unchanged c0 path (Dir name ok entries) = true ->
  spec (fun s => st_cache s = c0) quiet
    (fun r => r = None ->
       Forall (fun d1 =>
         unchanged c0 (filepath_Join path (node_Name d1)) d1 = true) entries)
    (visit env dirPath hostname dryRun path (Dir name ok entries) None).
Proof.
  intros Hgood. unfold visit. cbn [unchanged] in Hgood.
  destruct (is_skipped_name name).
  - apply (spec_bind _ _ (fun _ => True)); [by apply spec_log|]. intros _ _.
    apply spec_ret. discriminate.
  - apply spec_ret. intros _.
    apply Forall_forall. intros d1 Hd1.
    rewrite forallb_forall in Hgood. apply Hgood.
    by apply list_elem_of_In.
Qed.

Lemma ProcessDirectory_unchanged dirPath dryRun :
  (forall root, env_fs env dirPath = Some root ->
     unchanged c0 dirPath root = true) ->
  spec (fun s => st_cache s = c0) quiet (fun _ => True)
    (ProcessDirectory env dirPath dryRun).
Proof.
  intros Hgood. unfold ProcessDirectory.
  apply spec_seq; [apply spec_when; intros _; by apply spec_log|]. intros _.
  apply spec_seq; [by apply shouldSkipScanM_spec|].
  intros [|].
  { apply spec_seq; [by apply spec_log|]. intros _. by apply spec_ret. }
  cbv zeta.
  assert (Hfail : spec (fun s => st_cache s = c0) quiet (fun _ => True)
            (log WarnLevel "Skipping non-directory" dirPath ;;
             registerScanFailureM env dirPath ;;
             observeScanDuration env dirPath ;;
             mret (None : option (gmap string Z)))).
  { apply spec_seq; [by apply spec_log|]. intros _.
    apply spec_seq; [by apply registerScanFailureM_spec|].
    intros _. apply spec_seq; [by apply spec_metric|]. intros _.
    by apply spec_ret. }
  destruct (env_fs env dirPath) as [root|]; [|exact Hfail].
  destruct (negb (stat_is_dir (Some root))); [exact Hfail|].
  apply spec_seq; [by apply spec_put_seen|]. intros _.
  apply spec_seq.
  { apply (WalkDir_spec _ _ _
             (fun path d => unchanged c0 path d = true)).
    - intros. by apply visit_unchanged.
    - intros. by apply visit_unchanged_entries.
    - by apply Hgood. }
  intros err. apply spec_seq.
  { destruct err.
    - apply spec_seq; [by apply spec_log|]. intros _.
      by apply registerScanFailureM_spec.
    - by apply spec_ret. }
  intros _. apply spec_seq; [apply spec_get_seen|]. intros seen.
  apply spec_seq; [apply spec_when; intros _; by apply spec_metric|]. intros _.
  apply spec_seq; [by apply spec_metric|]. intros _.
  by apply spec_ret.
Qed.

End Unchanged.

(** *** Errors during the walk *)

(** The function passed to [WalkDir] returns no error of its own, so
    the walk returns none: on a root that is a directory no failure is
    registered, whatever cannot be read below it. *)
Lemma ProcessDirectory_walk_errors_ignored dirPath dryRun root b0 :
  env_fs env dirPath = Some root ->
  stat_is_dir (Some root) = true ->
  b0 !! dirPath = None ->
  spec (fun s => st_backoff s = b0) (fun _ => true) is_Some
    (ProcessDirectory env dirPath dryRun).
Proof.
  intros Hroot Hdir Hnone. unfold ProcessDirectory.
  apply spec_seq; [apply spec_when; intros _; by apply spec_log|]. intros _.
  apply (spec_bind _ _ (fun skip => skip = false)).
  { intros s Hs. rewrite shouldSkipScanM_run. unfold shouldSkipScan.
    rewrite Hs, Hnone. cbn. by rewrite <-Hs. }
  intros skip ->. cbv zeta. rewrite Hroot, Hdir. cbn [negb].
  apply spec_seq; [by apply spec_put_seen|]. intros _.
  apply (spec_bind _ _ (fun r => r = None)).
  { by apply WalkDir_visit_spec. }
  intros err ->.
  apply spec_seq; [by apply spec_ret|]. intros _.
  apply spec_seq; [apply spec_get_seen|]. intros seen.
  apply spec_seq; [apply spec_when; intros _; by apply spec_metric|]. intros _.
  apply spec_seq; [by apply spec_metric|]. intros _.
  by apply spec_ret.
Qed.

End ScanRules.

(** ** Leaf extraction *)

Section LeafExtraction.
Import scanner.
Context `{GoCrypto}.

Lemma value_emit_bind {A} (e : Event) (k : unit -> M A) s :
  retval ((emit e ≫= k) s) = retval (k tt s).
Proof.
  unfold mbind, M_bind, emit, retval. by destruct (k tt s) as [[a s'] es].
Qed.

Lemma PemBlocks_functional data blocks1 :
  PemBlocks data blocks1 ->
  forall blocks2, PemBlocks data blocks2 -> blocks2 = blocks1.
Proof.
  induction 1 as [data rest Hdec|data block rest blocks Hdec _ IH];
    intros blocks2 H2; inversion H2 as [? ? Hdec2|? ? ? ? Hdec2 Hrest2]; subst.
  - reflexivity.
  - congruence.
  - congruence.
  - rewrite Hdec in Hdec2. injection Hdec2 as <- <-.
    f_equal. by apply IH.
Qed.

Lemma first_certificate_Some blocks c :
  first_certificate blocks = Some c <->
  exists before block after,
    blocks = (before ++ block :: after)%list /\
    Forall (fun b => certificate_of b = None) before /\
    certificate_of block = Some c.
Proof.
  induction blocks as [|b blocks IH]; cbn [first_certificate].
  - split; [discriminate|]. intros ([|? ?] & ? & ? & Heq & _); discriminate.
  - destruct (certificate_of b) as [c'|] eqn:Hb.
    + split.
      * intros [= <-]. exists [], b, blocks. by repeat split.
      * intros (before & block & after & Heq & Hbefore & Hblock).
        destruct before as [|b0 before]; cbn in Heq; injection Heq as <- ->.
        -- congruence.
        -- apply Forall_cons in Hbefore as [Hb0 _]. congruence.
    + rewrite IH. split.
      * intros (before & block & after & -> & Hbefore & Hblock).
        exists (b :: before), block, after.
        repeat split; [|assumption]. by constructor.
      * intros (before & block & after & Heq & Hbefore & Hblock).
        destruct before as [|b0 before]; cbn in Heq; injection Heq as <- ->.
        -- congruence.
        -- apply Forall_cons in Hbefore as [_ Hbefore]. by exists before, block, after.
Qed.

Lemma first_certificate_None blocks :
  first_certificate blocks = None <->
  Forall (fun b => certificate_of b = None) blocks.
Proof.
  induction blocks as [|b blocks IH]; cbn [first_certificate].
  - split; [constructor|reflexivity].
  - destruct (certificate_of b) as [c'|] eqn:Hb.
    + split; [discriminate|]. intros [Hb' _]%Forall_cons. congruence.
    + rewrite IH. split; [by constructor|]. by intros [_ ?]%Forall_cons.
Qed.

(** The loop returns the certificate of the first block that has one,
    as soon as it may run once more than there are blocks. *)
Lemma pemLoop_value data blocks :
  PemBlocks data blocks ->
  forall fuel path dirPath s,
    (length blocks < fuel)%nat ->
    retval (pemLoop fuel data path dirPath s) =
      match first_certificate blocks with
      | Some c => Ok c
      | None => Err "no valid certificate found"
      end.
Proof.
  induction 1 as [data rest Hdec|data block rest blocks Hdec _ IH];
    intros [|fuel] path dirPath s Hfuel; try (cbn in Hfuel; lia);
    cbn [pemLoop]; rewrite value_emit_bind, Hdec.
  - reflexivity.
  - cbn [first_certificate]. unfold certificate_of.
    cbn in Hfuel.
    destruct (String.eqb (pem_Type block) "CERTIFICATE"); cbn [negb].
    + rewrite value_emit_bind.
      destruct (x509_ParseCertificate (pem_Bytes block)) as [c|msg].
      * unfold metric. by rewrite value_emit_bind.
      * unfold log, metric. rewrite !value_emit_bind. apply IH. lia.
    + apply IH. lia.
Qed.

Section Consumes.
(** A block that [pem.Decode] returns is taken from the input. *)
Hypothesis pem_Decode_consumes : forall data block rest,
  pem_Decode data = (Some block, rest) ->
  (String.length rest < String.length data)%nat.

Lemma PemBlocks_exists n : forall data,
  (String.length data < n)%nat ->
  exists blocks, PemBlocks data blocks /\
                 (length blocks <= String.length data)%nat.
Proof.
  induction n as [|n IH]; intros data Hn; [lia|].
  destruct (pem_Decode data) as [[block|] rest] eqn:Hdec.
  - pose proof (pem_Decode_consumes _ _ _ Hdec) as Hlt.
    destruct (IH rest ltac:(lia)) as (blocks & Hblocks & Hlen).
    exists (block :: blocks). split; [by econstructor|]. cbn. lia.
  - exists []. split; [by econstructor|]. cbn. lia.
Qed.

(** The rounds [parseLeafCertificate] allows are never used up: any
    larger number gives the same result. *)
Lemma pemLoop_fuel raw fuel path dirPath s :
  (String.length raw < fuel)%nat ->
  retval (pemLoop fuel raw path dirPath s) =
  retval (pemLoop (S (String.length raw)) raw path dirPath s).
Proof.
  intros Hfuel.
  destruct (PemBlocks_exists (S (String.length raw)) raw ltac:(lia))
    as (blocks & Hblocks & Hlen).
  rewrite !(pemLoop_value raw blocks Hblocks) by lia. reflexivity.
Qed.

(** C4.  For an extension other than [.der], the input has a
    sequence of PEM blocks, and [parseLeafCertificate] returns the
    certificate of the first block of type CERTIFICATE that parses
    (what follows it is not looked at); it fails, with the error
    "no valid certificate found", exactly when no block has type
    CERTIFICATE and parses. *)
Theorem parseLeafCertificate_first_certificate raw ext path dirPath s :
  ext <> ".der" ->
  exists blocks,
    PemBlocks raw blocks /\
    (forall blocks', PemBlocks raw blocks' -> blocks' = blocks) /\
    let r := retval (parseLeafCertificate raw ext path dirPath s) in
    (r = match first_certificate blocks with
         | Some c => Ok c
         | None => Err "no valid certificate found"
         end) /\
    (forall c, r = Ok c <->
       exists before block after,
         blocks = (before ++ block :: after)%list /\
         Forall (fun b => certificate_of b = None) before /\
         certificate_of block = Some c) /\
    (r = Err "no valid certificate found" <->
       Forall (fun b => certificate_of b = None) blocks) /\
    ((exists msg, r = Err msg) <->
       Forall (fun b => certificate_of b = None) blocks).
Proof.
  intros Hext.
  destruct (PemBlocks_exists (S (String.length raw)) raw ltac:(lia))
    as (blocks & Hblocks & Hlen).
  exists blocks. split; [exact Hblocks|].
  split; [by apply PemBlocks_functional|]. cbv zeta.
  assert (Hr : retval (parseLeafCertificate raw ext path dirPath s) =
               match first_certificate blocks with
               | Some c => Ok c
               | None => Err "no valid certificate found"
               end).
  { unfold parseLeafCertificate.
    destruct (String.eqb_spec ext ".der") as [->|_]; [done|].
    apply pemLoop_value; [exact Hblocks | lia]. }
  rewrite Hr. split; [reflexivity|].
  split; [|split].
  - intros c. rewrite <-first_certificate_Some.
    destruct (first_certificate blocks); split; congruence.
  - rewrite <-first_certificate_None.
    destruct (first_certificate blocks); split; congruence.
  - rewrite <-first_certificate_None.
    destruct (first_certificate blocks); split; try congruence.
    + intros [msg Hmsg]. discriminate.
    + intros _. by eexists.
Qed.

End Consumes.

End LeafExtraction.

Lemma toy_Decode_consumes data block rest :
  Fixtures.toy_Decode data = (Some block, rest) ->
  (String.length rest < String.length data)%nat.
Proof.
  unfold Fixtures.toy_Decode.
  destruct data as [|a [|x data]]; try discriminate.
  - destruct a as [[] [] [] [] [] [] [] []]; discriminate.
  - destruct a as [[] [] [] [] [] [] [] []]; try discriminate;
      intros [= <- <-]; cbn; lia.
Qed.

(** C4, witness: a key block, a CERTIFICATE block that does not parse,
    and two certificates: the result is the first of the two. *)
Lemma parseLeafCertificate_first_certificate_witness :
  ".pem" <> ".der" /\
  scanner.retval (@scanner.parseLeafCertificate Fixtures.toy_crypto
           "KxC!CaCb" ".pem" "/certs/chain.pem" "/certs" Fixtures.state0)
    = Ok (Fixtures.toy_cert "a").
Proof.
  assert (Hext : ".pem" <> ".der") by discriminate.
  split; [exact Hext|].
  destruct (@parseLeafCertificate_first_certificate Fixtures.toy_crypto
              toy_Decode_consumes "KxC!CaCb" ".pem" "/certs/chain.pem" "/certs"
              Fixtures.state0 Hext)
    as (blocks & _ & Hunique & Hvalue & _).
  rewrite Hvalue.
  rewrite <-(Hunique
    [ {| pem_Type := "PRIVATE KEY"; pem_Bytes := "x" |};
      {| pem_Type := "CERTIFICATE"; pem_Bytes := "!" |};
      {| pem_Type := "CERTIFICATE"; pem_Bytes := "a" |};
      {| pem_Type := "CERTIFICATE"; pem_Bytes := "b" |} ]).
  - reflexivity.
  - repeat (eapply scanner.PemBlocks_next; [reflexivity|]).
    eapply scanner.PemBlocks_done. reflexivity.
Defined.
(** ** The directory scan: the claims on concrete directories *)

(** C1, on the code: a dry run writes to the metrics sink.  Over the
    directory of the fixtures, with [DryRun] set in the configuration and
    [dryRun] passed as the command does, the sink receives five writes:
    the files-seen counter for each of the two candidate files, the
    certs-parsed counter, the parse-error counter and the scan
    duration.  The same five are written when only the argument, or only
    the configuration, says so.  They are the writes of the normal scan
    that do not stand under [if !dryRun && s.shouldWriteMetrics()]: only
    the per-certificate metrics and the last-scan timestamp are
    suppressed. *)
Theorem ProcessDirectory_dry_run_writes_metrics :
  let writes (r : option (gmap string Z) * scanner.State * list scanner.Event) :=
    List.filter scanner.is_metric (scanner.events r) in
  let five :=
    [ scanner.EvMetric (Write_ CertFilesTotal ["/certs"] OpInc);
      scanner.EvMetric (Write_ CertsParsedTotal ["/certs"] OpInc);
      scanner.EvMetric (Write_ CertFilesTotal ["/certs"] OpInc);
      scanner.EvMetric (Write_ CertParseErrors ["/certs/bad.pem"] OpInc);
      scanner.EvMetric (Write_ CertScanDuration ["/certs"] (OpObserve 0)) ] in
  writes (Fixtures.scan true Fixtures.tree_certs true Fixtures.state0) = five /\
  writes (Fixtures.scan false Fixtures.tree_certs true Fixtures.state0) = five /\
  writes (Fixtures.scan true Fixtures.tree_certs false Fixtures.state0) = five /\
  List.filter scanner.ungated
    (writes (Fixtures.scan false Fixtures.tree_certs false Fixtures.state0)) = five /\
  length (writes (Fixtures.scan false Fixtures.tree_certs false Fixtures.state0))
    = 14%nat.
Proof.
  cbv zeta. split; [|split; [|split; [|split]]].
  - vm_compute. reflexivity.
  - vm_compute. reflexivity.
  - vm_compute. reflexivity.
  - vm_compute. reflexivity.
  - vm_compute. reflexivity.
Qed.

(** C2, on the code: a subdirectory that cannot be read, and a root
    that cannot be read, are walked without an error: the scan returns its
    map, no failure is registered for the directory, and the scan is
    recorded as a successful one. *)
Theorem ProcessDirectory_read_error_not_registered :
  let r := Fixtures.scan false Fixtures.tree_certs false Fixtures.state0 in
  let r' := Fixtures.scan false Fixtures.tree_unreadable false Fixtures.state0 in
  (scanner.st_backoff (scanner.final r) = ∅ /\
   scanner.retval r =
     Some {[ "6100000000000000000000000000000000000000000000000000000000000000"
             := 1 ]} /\
   List.filter
     (fun e => match e with
               | scanner.EvLog l =>
                   String.eqb (log_message l) "WalkDir error" ||
                   String.eqb (log_message l) "Scan failed, applying backoff"
               | _ => false
               end) (scanner.events r) = []) /\
  (scanner.st_backoff (scanner.final r') = ∅ /\
   scanner.retval r' = Some ∅ /\
   scanner.events r' =
     [ scanner.EvMetric (Write_ CertLastScan ["/certs"] (OpSet 1703203200));
       scanner.EvMetric (Write_ CertScanDuration ["/certs"] (OpObserve 0)) ]).
Proof.
  cbv zeta. split; [split; [|split] | split; [|split]].
  - vm_compute. reflexivity.
  - vm_compute. reflexivity.
  - vm_compute. reflexivity.
  - vm_compute. reflexivity.
  - vm_compute. reflexivity.
  - vm_compute. reflexivity.
Qed.


(** * Further properties *)

(** ** Loops that delete keys while ranging over a map *)

Section RangeDelete.
Context {A B K : Type}.
Variable key : K -> string.
Variable step : gmap string A * B -> K -> gmap string A * B.
Variable P : K -> bool.
Hypothesis step_map : forall acc k,
  (step acc k).1 = if P k then delete (key k) acc.1 else acc.1.

Lemma foldl_delete_lookup items : forall acc p,
  (foldl step acc items).1 !! p =
    if existsb (fun k => P k && bool_decide (key k = p)) items
    then None else acc.1 !! p.
Proof.
  induction items as [|k items IH]; intros acc p; cbn [foldl existsb]; [done|].
  rewrite IH, step_map.
  destruct (P k) eqn:Hk; cbn [andb orb]; [|done].
  case_bool_decide as Hkey; cbn [orb].
  - subst p. destruct (existsb _ items); [done|]. by rewrite lookup_delete_eq.
  - destruct (existsb _ items); [done|]. by rewrite lookup_delete_ne.
Qed.

End RangeDelete.

(** Ranging over all the keys of the map itself deletes exactly the keys
    that satisfy [P]. *)
Lemma foldl_delete_keys {A B} (step : gmap string A * B -> string -> gmap string A * B)
  (P : string -> bool) :
  (forall acc k, (step acc k).1 = if P k then delete k acc.1 else acc.1) ->
  forall (m : gmap string A) (b : B) p,
    (foldl step (m, b) (map_to_list m).*1).1 !! p =
      if P p then None else m !! p.
Proof.
  intros Hstep m b p.
  rewrite (foldl_delete_lookup id step P Hstep). cbn [fst].
  destruct (existsb _ _) eqn:Hex.
  - apply existsb_exists in Hex as (k & _ & Hk).
    apply andb_true_iff in Hk as [Hk Heq].
    apply bool_decide_eq_true in Heq. cbn in Heq. subst k. by rewrite Hk.
  - destruct (P p) eqn:Hp; [|done].
    destruct (m !! p) as [x|] eqn:Hx; [|done].
    assert (Hin : existsb (fun k => P k && bool_decide (id k = p))
                    (map_to_list m).*1 = true); [|congruence].
    apply existsb_exists. exists p. split.
    + apply list_elem_of_In, list_elem_of_fmap. exists (p, x).
      split; [done|]. by apply elem_of_map_to_list.
    + rewrite Hp. by apply bool_decide_eq_true.
Qed.

(** The same for a loop that ranges over the entries and decides by key
    and value. *)
Lemma foldl_delete_entries {A B}
  (step : gmap string A * B -> string * A -> gmap string A * B)
  (P : string * A -> bool) :
  (forall acc kv, (step acc kv).1 = if P kv then delete kv.1 acc.1 else acc.1) ->
  forall (m : gmap string A) (b : B) p,
    (foldl step (m, b) (map_to_list m)).1 !! p =
      match m !! p with
      | Some x => if P (p, x) then None else Some x
      | None => None
      end.
Proof.
  intros Hstep m b p.
  rewrite (foldl_delete_lookup fst step P Hstep). cbn [fst].
  destruct (existsb _ _) eqn:Hex.
  - apply existsb_exists in Hex as ([k x] & Hin & Hk).
    apply andb_true_iff in Hk as [Hk Heq].
    apply bool_decide_eq_true in Heq. cbn in Heq. subst k.
    apply list_elem_of_In, elem_of_map_to_list in Hin. by rewrite Hin, Hk.
  - destruct (m !! p) as [x|] eqn:Hx; [|done].
    destruct (P (p, x)) eqn:Hp; [|done].
    assert (Hin : existsb (fun k => P k && bool_decide (k.1 = p))
                    (map_to_list m) = true); [|congruence].
    apply existsb_exists. exists (p, x). split.
    + by apply list_elem_of_In, elem_of_map_to_list.
    + rewrite Hp. by apply bool_decide_eq_true.
Qed.

(** ** internal/cache: pruning and listing *)

Section CacheMore.
Import cache.

Lemma prune_step_map stat_ok (acc : gmap string CachedCertMeta * Z) k :
  (prune_step stat_ok acc k).1 =
    if negb (stat_ok k) then delete k acc.1 else acc.1.
Proof. unfold prune_step. by destruct (stat_ok k). Qed.

(** Each deletion is counted: over keys that are all present and
    pairwise different, the size of the map and the counter add up to
    what they were. *)
Lemma prune_count stat_ok keys : forall acc : gmap string CachedCertMeta * Z,
  NoDup keys ->
  (forall k, k ∈ keys -> is_Some (acc.1 !! k)) ->
  Z.of_nat (size (foldl (prune_step stat_ok) acc keys).1)
    + (foldl (prune_step stat_ok) acc keys).2
  = Z.of_nat (size acc.1) + acc.2.
Proof.
  induction keys as [|k keys IH]; intros acc Hnd Hpresent; [done|].
  apply NoDup_cons in Hnd as [Hk Hnd]. cbn [foldl].
  rewrite IH; [|done|].
  - unfold prune_step. destruct (stat_ok k); [done|]. cbn [fst snd].
    pose proof (Hpresent k ltac:(apply list_elem_of_here)) as Hsome.
    rewrite map_size_delete_Some by done.
    pose proof (map_size_ne_0_lookup_2 acc.1 k Hsome). lia.
  - intros k' Hk'. unfold prune_step.
    destruct (stat_ok k); [apply Hpresent; by apply list_elem_of_further|].
    cbn [fst]. rewrite lookup_delete_ne by (intros ->; done).
    apply Hpresent. by apply list_elem_of_further.
Qed.

(** X1.  [PruneNonExisting] keeps exactly the entries whose file can be
    stat'ed, each as it was, and leaves the file path of the cache; the
    number it returns is the number of entries it removed; pruning
    again right away removes nothing. *)
Theorem PruneNonExisting_spec (c : Cache) (stat_ok : string -> bool) :
  let r := PruneNonExisting c stat_ok in
  let c' := r.1.1 in
  let pruned := r.1.2 in
  filePath c' = filePath c /\
  (forall p, data c' !! p = if stat_ok p then data c !! p else None) /\
  pruned = Z.of_nat (size (data c)) - Z.of_nat (size (data c')) /\
  0 <= pruned /\
  (PruneNonExisting c' stat_ok).1 = (c', 0).
Proof.
  cbv zeta. unfold PruneNonExisting.
  destruct (foldl (prune_step stat_ok) (data c, 0) (map_to_list (data c)).*1)
    as [m pruned] eqn:Hfold. cbn [fst snd].
  assert (Hlookup : forall p, m !! p = if stat_ok p then data c !! p else None).
  { intros p.
    pose proof (foldl_delete_keys (prune_step stat_ok) (fun k => negb (stat_ok k))
                  (prune_step_map stat_ok) (data c) 0 p) as Hp.
    rewrite Hfold in Hp. cbn [fst] in Hp. rewrite Hp. by destruct (stat_ok p). }
  assert (Hcount : Z.of_nat (size m) + pruned = Z.of_nat (size (data c))).
  { pose proof (prune_count stat_ok (map_to_list (data c)).*1 (data c, 0)) as Hc.
    rewrite Hfold in Hc. cbn [fst snd] in Hc. rewrite Hc; [lia| |].
    - apply NoDup_fst_map_to_list.
    - intros k [[k' x] [-> Hin]]%list_elem_of_fmap.
      apply elem_of_map_to_list in Hin. by eexists. }
  cbn [set_data filePath data].
  split; [done|]. split; [exact Hlookup|]. split; [lia|]. split.
  { assert (Hsub : m ⊆ data c).
    { apply map_subseteq_spec. intros p x Hp. rewrite Hlookup in Hp.
      by destruct (stat_ok p). }
    apply map_subseteq_size in Hsub. lia. }
  destruct (foldl (prune_step stat_ok) (m, 0) (map_to_list m).*1)
    as [m2 pruned2] eqn:Hfold2. cbn [fst].
  assert (Hm2 : m2 = m).
  { apply map_eq. intros p.
    pose proof (foldl_delete_keys (prune_step stat_ok) (fun k => negb (stat_ok k))
                  (prune_step_map stat_ok) m 0 p) as Hp.
    rewrite Hfold2 in Hp. cbn [fst] in Hp. rewrite Hp, Hlookup.
    by destruct (stat_ok p). }
  subst m2.
  pose proof (prune_count stat_ok (map_to_list m).*1 (m, 0)) as Hc.
  rewrite Hfold2 in Hc. cbn [fst snd] in Hc.
  assert (pruned2 = 0) as ->.
  { enough (Z.of_nat (size m) + pruned2 = Z.of_nat (size m) + 0) by lia.
    apply Hc.
    - apply NoDup_fst_map_to_list.
    - intros k [[k' x] [-> Hin]]%list_elem_of_fmap.
      apply elem_of_map_to_list in Hin. by eexists. }
  reflexivity.
Qed.

(** X2.  [GetPaths] lists every cached path once: a path is listed
    exactly when the table has an entry for it, no path is listed twice,
    and there are as many paths as entries. *)
Theorem GetPaths_spec (c : Cache) :
  (forall p, p ∈ GetPaths c <-> is_Some (data c !! p)) /\
  NoDup (GetPaths c) /\
  length (GetPaths c) = size (data c) /\
  GetPaths (Clear c) = [] /\
  (forall path fp info,
     data c !! path = None ->
     GetPaths (SetEntryAtomic c path fp info) ≡ₚ path :: GetPaths c).
Proof.
  unfold GetPaths. split; [|split; [|split; [|split]]].
  - intros p. split.
    + intros [[p' x] [-> Hin]]%list_elem_of_fmap.
      apply elem_of_map_to_list in Hin. by eexists.
    + intros [x Hx]. apply list_elem_of_fmap. exists (p, x).
      split; [done|]. by apply elem_of_map_to_list.
  - apply NoDup_fst_map_to_list.
  - by rewrite length_fmap, length_map_to_list.
  - unfold Clear. cbn [set_data data]. by rewrite map_to_list_empty.
  - intros path fp info Hnone. unfold SetEntryAtomic. cbn [set_data data].
    rewrite map_to_list_insert by done. reflexivity.
Qed.

(** X3.  An entry stored with [SetEntryAtomic] is what [GetEntryAtomic]
    finds for the same path, with the fingerprint given and the
    modification time and size of the file information; the file path of
    the cache and the entries of all other paths are as before; without a
    successful stat nothing is found, whatever the table holds. *)
Theorem SetEntryAtomic_GetEntryAtomic (c : Cache) (path : string)
  (fp : vec ascii 32) (info info' : FileInfo) :
  let c' := SetEntryAtomic c path fp info in
  GetEntryAtomic c' (Some info') path =
    Some ({| Fingerprint := fp; ModTime := fi_ModTime info;
             Size := fi_Size info |}, info', true) /\
  filePath c' = filePath c /\
  (forall other stat, other <> path ->
     GetEntryAtomic c' stat other = GetEntryAtomic c stat other) /\
  (forall p, GetEntryAtomic c' None p = None) /\
  (forall p stat, data c !! p = None -> p <> path ->
     GetEntryAtomic c' (Some stat) p = Some (zero_meta, stat, false)).
Proof.
  cbv zeta. unfold SetEntryAtomic, GetEntryAtomic. cbn [set_data data filePath].
  split; [|split; [|split; [|split]]].
  - by rewrite lookup_insert_eq.
  - reflexivity.
  - intros other stat Hne. by rewrite lookup_insert_ne.
  - reflexivity.
  - intros p stat Hnone Hne. by rewrite lookup_insert_ne, Hnone.
Qed.

End CacheMore.

Section LoadMore.
Context `{GoStrings} `{GoJSON}.
Import cache.

Lemma decode_members_keeps l : forall (m m' : gmap string CachedCertMeta),
  decode_members m l = Some m' ->
  (forall p, is_Some (m !! p) -> is_Some (m' !! p)) /\
  (forall p, p ∉ l.*1 -> m' !! p = m !! p) /\
  (forall p, p ∈ l.*1 -> is_Some (m' !! p)).
Proof.
  induction l as [|[k v] l IH]; intros m m' Hdec; cbn [decode_members] in Hdec.
  - injection Hdec as <-. split; [done|]. split; [done|].
    intros p Hp. by apply elem_of_nil in Hp.
  - destruct (decode_meta v) as [e|]; [|discriminate]. cbn in Hdec.
    destruct (IH _ _ Hdec) as (Hkeep & Hother & Hin).
    split; [|split].
    + intros p Hp. apply Hkeep.
      destruct (decide (k = p)) as [->|Hne].
      * rewrite lookup_insert_eq. by eexists.
      * by rewrite lookup_insert_ne.
    + intros p Hp. cbn in Hp. apply not_elem_of_cons in Hp as [Hne Hp].
      rewrite Hother by done. by rewrite lookup_insert_ne.
    + intros p [->|Hp]%elem_of_cons.
      * apply Hkeep. rewrite lookup_insert_eq. by eexists.
      * by apply Hin.
Qed.


End LoadMore.


(** The name of a member selects a field also when it differs from the
    field's name in case only: a file that gives [size] as a string does
    not decode, and [Load] resets the table it had. *)
Lemma Load_field_names_fold :
  let c := {| cache.filePath := "/cache.json";
              cache.data := {[ "/other" := Fixtures.meta_a ]} |} in
  let doc := JObject [("/p", JObject [("size", JString "x")])] in
  let disk : Disk := {[ "/cache.json" := Fixtures.write doc ]} in
  @json_parse Fixtures.json_b (Fixtures.write doc) = Some doc /\
  @cache.Load AsciiStrings.instance Fixtures.json_b c disk =
    (cache.set_data c ∅, [Log WarnLevel "Failed to parse cache file" ""]).
Proof. cbv zeta. split; vm_compute; reflexivity. Qed.

(** ** internal/scanner: more on the backoff table *)

Section BackoffMore.
Import scanner.

Lemma clear_step_map now (acc : gmap string Z * Z) kv :
  (clear_step now acc kv).1 =
    if kv.2 <? now then delete kv.1 acc.1 else acc.1.
Proof. unfold clear_step. by destruct (kv.2 <? now). Qed.

Lemma clear_step_count now items : forall acc : gmap string Z * Z,
  (foldl (clear_step now) acc items).2 =
    acc.2 + Z.of_nat (length (List.filter (fun kv => kv.2 <? now) items)).
Proof.
  induction items as [|kv items IH]; intros acc; cbn [foldl List.filter].
  - cbn. lia.
  - rewrite IH. unfold clear_step.
    destruct (kv.2 <? now); cbn [snd length]; lia.
Qed.

Lemma clearExpiredBackoffs_lookup now (b : gmap string Z) dir :
  clearExpiredBackoffs now b !! dir =
    match b !! dir with
    | Some t => if t <? now then None else Some t
    | None => None
    end.
Proof.
  unfold clearExpiredBackoffs.
  destruct (b !! dir) as [t|] eqn:Hb.
  - destruct (Z.ltb_spec t now) as [Hlt|Hge].
    + apply map_lookup_filter_None. right. intros t' Ht'. cbn.
      assert (t' = t) by congruence. subst t'. lia.
    + apply map_lookup_filter_Some. split; [done|]. cbn. lia.
  - apply map_lookup_filter_None. by left.
Qed.

(** X5.  [clearExpiredBackoffs] removes exactly the entries whose
    deadline is before the current time and keeps the others as they
    are; it touches neither the cache nor the map of duplicates; it
    logs its one line exactly when it removed something; and run again
    at the same instant it does nothing. *)
Theorem clearExpiredBackoffsM_spec (env : Env) (s : State) :
  let r := clearExpiredBackoffsM env s in
  (forall dir,
     st_backoff (final r) !! dir =
       match st_backoff s !! dir with
       | Some t => if t <? env_now env then None else Some t
       | None => None
       end) /\
  st_backoff (final r) = clearExpiredBackoffs (env_now env) (st_backoff s) /\
  st_cache (final r) = st_cache s /\
  st_seen (final r) = st_seen s /\
  (events r = [] \/
   events r = [EvLog (Log DebugLevel "Cleared expired backoff entries" "")]) /\
  (events r = [] <->
   forall dir t, st_backoff s !! dir = Some t -> env_now env <= t) /\
  clearExpiredBackoffsM env (final r) = (tt, final r, []).
Proof.
  set (now := env_now env).
  assert (Hrun : forall s0,
    let b := st_backoff s0 in
    let n := Z.of_nat (length (List.filter (fun kv : string * Z => kv.2 <? now)
                                 (map_to_list b))) in
    clearExpiredBackoffsM env s0 =
      (tt, with_backoff s0 (clearExpiredBackoffs now b),
       if 0 <? n then [EvLog (Log DebugLevel "Cleared expired backoff entries" "")]
       else [])).
  { intros s0 b n. unfold clearExpiredBackoffsM, mbind, M_bind, get_backoff.
    fold now. fold b.
    destruct (foldl (clear_step now) (b, 0) (map_to_list b)) as [b' removed] eqn:Hfold.
    assert (Hb' : b' = clearExpiredBackoffs now b).
    { apply map_eq. intros dir.
      pose proof (foldl_delete_entries (clear_step now)
                    (fun kv => kv.2 <? now) (clear_step_map now) b 0 dir) as Hl.
      rewrite Hfold in Hl. cbn [fst snd] in Hl.
      by rewrite Hl, clearExpiredBackoffs_lookup. }
    assert (Hn : removed = n).
    { pose proof (clear_step_count now (map_to_list b) (b, 0)) as Hc.
      rewrite Hfold in Hc. cbn [snd] in Hc. unfold n. lia. }
    subst b' removed. unfold put_backoff, when, with_backoff.
    destruct (0 <? n); reflexivity. }
  intros r.
  assert (Hnone : forall b : gmap string Z,
    List.filter (fun kv : string * Z => kv.2 <? now) (map_to_list b) = [] <->
    forall dir t, b !! dir = Some t -> now <= t).
  { intros b. split.
    - intros Hnil dir t Hdir.
      destruct (Z.ltb_spec t now) as [Hlt|Hge]; [|done].
      assert (Hin : In (dir, t) (List.filter (fun kv : string * Z => kv.2 <? now)
                                   (map_to_list b))).
      { apply filter_In. split.
        - by apply list_elem_of_In, elem_of_map_to_list.
        - cbn. by apply Z.ltb_lt. }
      rewrite Hnil in Hin. destruct Hin.
    - intros Hall.
      destruct (List.filter _ _) as [|[dir t] l] eqn:Hf; [done|].
      assert (Hin : In (dir, t) (List.filter (fun kv : string * Z => kv.2 <? now)
                                   (map_to_list b))).
      { rewrite Hf. by left. }
      apply filter_In in Hin as [Hin Ht].
      apply list_elem_of_In, elem_of_map_to_list in Hin.
      specialize (Hall _ _ Hin). cbn in Ht. apply Z.ltb_lt in Ht. lia. }
  unfold r. rewrite Hrun. cbv zeta. unfold final, events, retval. cbn [fst snd].
  split; [intros dir; apply clearExpiredBackoffs_lookup|].
  split; [reflexivity|]. split; [reflexivity|]. split; [reflexivity|].
  split; [destruct (0 <? _); auto|].
  split.
  - rewrite <-Hnone.
    destruct (List.filter _ _) as [|kv l]; cbn [length]; [done|].
    replace (0 <? Z.of_nat (S (length l))) with true
      by (symmetry; apply Z.ltb_lt; lia).
    split; discriminate.
  - rewrite Hrun. cbv zeta. cbn [with_backoff st_backoff st_cache st_seen].
    assert (Hidem : clearExpiredBackoffs now (clearExpiredBackoffs now (st_backoff s))
                    = clearExpiredBackoffs now (st_backoff s)).
    { apply map_eq. intros dir. rewrite !clearExpiredBackoffs_lookup.
      destruct (st_backoff s !! dir) as [t|]; [|done].
      destruct (t <? now) eqn:Ht; [done|]. by rewrite Ht. }
    rewrite Hidem.
    assert (Hnil : List.filter (fun kv : string * Z => kv.2 <? now)
                     (map_to_list (clearExpiredBackoffs now (st_backoff s))) = []).
    { apply Hnone. intros dir t. rewrite clearExpiredBackoffs_lookup.
      destruct (st_backoff s !! dir) as [t'|]; [|done].
      destruct (Z.ltb_spec t' now); [done|]. intros [= <-]. done. }
    rewrite Hnil. reflexivity.
Qed.

(** X6.  Clearing the expired entries changes no later decision: from
    the instant of the clearing on, every directory is skipped or not
    as it would have been, and a failure registered later gets the same
    base delay.  The two operations differ at the boundary: an entry
    whose deadline is the current instant survives the clearing, while
    [shouldSkipScan] removes it. *)
Theorem clearExpiredBackoffs_keeps_decisions (now now' : Z) (dir : string)
  (b : gmap string Z) :
  now <= now' ->
  (shouldSkipScan now' dir (clearExpiredBackoffs now b)).1.1
    = (shouldSkipScan now' dir b).1.1 /\
  backoffDelay now' dir (clearExpiredBackoffs now b) = backoffDelay now' dir b /\
  (b !! dir = Some now ->
     clearExpiredBackoffs now b !! dir = Some now /\
     (shouldSkipScan now dir b).1 = (false, delete dir b)).
Proof.
  intros Hle. unfold shouldSkipScan, backoffDelay.
  rewrite clearExpiredBackoffs_lookup.
  destruct (b !! dir) as [t|] eqn:Hb.
  - split; [|split].
    + destruct (Z.ltb_spec t now) as [Hlt|Hge].
      * destruct (Z.ltb_spec now' t); [lia|done].
      * by destruct (now' <? t).
    + destruct (Z.ltb_spec t now) as [Hlt|Hge]; [|done].
      destruct (Z.ltb_spec now' t); [lia|done].
    + intros [= ->]. rewrite Z.ltb_irrefl. done.
  - repeat split; discriminate.
Qed.

(** X7.  After a failure is registered the directory is skipped at
    once, whatever the table held, and is scanned again no later than
    ten minutes and ten seconds afterwards.  When the directory was not
    being skipped at the time of the failure, which is how
    [ProcessDirectory] comes to register one, the deadline is thirty
    seconds plus jitter away: the directory is skipped for the next
    thirty seconds. *)
Theorem registerScanFailure_then_shouldSkipScan (now jitter now' : Z)
  (dir : string) (b : gmap string Z) :
  0 <= jitter < 10 * Second ->
  let b' := (registerScanFailure now jitter dir b).1 in
  (now' <= now -> (shouldSkipScan now' dir b').1.1 = true) /\
  (now + MaxBackoff + 10 * Second <= now' ->
     (shouldSkipScan now' dir b').1 = (false, delete dir b')) /\
  ((shouldSkipScan now dir b).1.1 = false ->
     b' !! dir = Some (now + 30 * Second + jitter) /\
     (now' < now + 30 * Second -> (shouldSkipScan now' dir b').1.1 = true)).
Proof.
  intros Hj b'.
  pose proof (registerScanFailure_deadline now jitter dir b Hj) as Hdead.
  fold b' in Hdead.
  pose proof (backoffDelay_bounds now dir b) as Hd.
  unfold shouldSkipScan at 1 2. rewrite Hdead.
  split; [|split].
  - intros Hle. destruct (Z.ltb_spec now' (now + backoffDelay now dir b + jitter));
      [done|lia].
  - intros Hlate.
    destruct (Z.ltb_spec now' (now + backoffDelay now dir b + jitter)); [lia|done].
  - intros Hnot.
    assert (Hbase : backoffDelay now dir b = 30 * Second).
    { unfold shouldSkipScan in Hnot. unfold backoffDelay.
      destruct (b !! dir) as [t|]; [|done].
      destruct (now <? t); [discriminate|done]. }
    rewrite Hbase in *. split; [done|].
    intros Hsoon. unfold shouldSkipScan. rewrite Hdead.
    destruct (Z.ltb_spec now' (now + 30 * Second + jitter)); [done|lia].
Qed.

End BackoffMore.

(** X6, witness: a deadline of 7 cleared at 5 and asked about at 10. *)
Lemma clearExpiredBackoffs_keeps_decisions_witness :
  (scanner.shouldSkipScan 10 "d" (scanner.clearExpiredBackoffs 5 {[ "d" := 7 ]})).1.1
    = (scanner.shouldSkipScan 10 "d" {[ "d" := 7 ]}).1.1.
Proof.
  refine (proj1 (clearExpiredBackoffs_keeps_decisions 5 10 "d" {[ "d" := 7 ]} _)).
  lia.
Defined.

(** X7, witness: a first failure, with one nanosecond of jitter. *)
Lemma registerScanFailure_then_shouldSkipScan_witness :
  (scanner.shouldSkipScan 0 "d"
     (scanner.registerScanFailure 0 1 "d" ∅).1).1.1 = true.
Proof.
  refine (proj1 (registerScanFailure_then_shouldSkipScan 0 1 0 "d" ∅ _) _).
  - unfold Second. lia.
  - lia.
Defined.

(** ** internal/scanner: the steps of a scan, run *)

Section RunRules.
Import scanner.

Lemma run_bind {A B} (m : M A) (k : A -> M B) s :
  (m ≫= k) s =
    (retval (k (retval (m s)) (final (m s))),
     final (k (retval (m s)) (final (m s))),
     (events (m s) ++ events (k (retval (m s)) (final (m s))))%list).
Proof.
  unfold mbind, M_bind, retval, final, events.
  destruct (m s) as [[a s1] es1]. cbn.
  by destruct (k a s1) as [[b s2] es2].
Qed.

Lemma retval_bind {A B} (m : M A) (k : A -> M B) s :
  retval ((m ≫= k) s) = retval (k (retval (m s)) (final (m s))).
Proof. by rewrite run_bind. Qed.

Lemma final_bind {A B} (m : M A) (k : A -> M B) s :
  final ((m ≫= k) s) = final (k (retval (m s)) (final (m s))).
Proof. by rewrite run_bind. Qed.

Lemma events_bind {A B} (m : M A) (k : A -> M B) s :
  events ((m ≫= k) s) =
    (events (m s) ++ events (k (retval (m s)) (final (m s))))%list.
Proof. by rewrite run_bind. Qed.

Lemma run_emit_bind {A} (e : Event) (k : unit -> M A) s :
  (emit e ≫= k) s = (retval (k tt s), final (k tt s), e :: events (k tt s)).
Proof. by rewrite run_bind. Qed.

Lemma final_get_seen s : final (get_seen s) = s.
Proof. reflexivity. Qed.

Lemma retval_get_seen s : retval (get_seen s) = st_seen s.
Proof. reflexivity. Qed.

Lemma events_get_seen s : events (get_seen s) = [].
Proof. reflexivity. Qed.

Lemma final_put_seen m s : final (put_seen m s) = with_seen s m.
Proof. reflexivity. Qed.

Lemma events_put_seen m s : events (put_seen m s) = [].
Proof. reflexivity. Qed.

Lemma final_get_cache s : final (get_cache s) = s.
Proof. reflexivity. Qed.

Lemma retval_get_cache s : retval (get_cache s) = st_cache s.
Proof. reflexivity. Qed.

Lemma events_get_cache s : events (get_cache s) = [].
Proof. reflexivity. Qed.

Lemma final_put_cache c s : final (put_cache c s) = with_cache s c.
Proof. reflexivity. Qed.

Lemma events_put_cache c s : events (put_cache c s) = [].
Proof. reflexivity. Qed.

Lemma final_emit e s : final (emit e s) = s.
Proof. reflexivity. Qed.

Lemma events_emit e s : events (emit e s) = [e].
Proof. reflexivity. Qed.

Lemma retval_ret {A} (a : A) s : retval ((mret a : M A) s) = a.
Proof. reflexivity. Qed.

Lemma final_ret {A} (a : A) s : final ((mret a : M A) s) = s.
Proof. reflexivity. Qed.

Lemma events_ret {A} (a : A) s : events ((mret a : M A) s) = [].
Proof. reflexivity. Qed.

Lemma final_metric m labels op s : final (metric m labels op s) = s.
Proof. reflexivity. Qed.

Lemma events_metric m labels op s :
  events (metric m labels op s) = [EvMetric (Write_ m labels op)].
Proof. reflexivity. Qed.

Lemma final_log lvl msg subject s : final (log lvl msg subject s) = s.
Proof. reflexivity. Qed.

Lemma events_log lvl msg subject s :
  events (log lvl msg subject s) = [EvLog (Log lvl msg subject)].
Proof. reflexivity. Qed.

Lemma run_eta {A} (r : A * State * list Event) :
  r = (retval r, final r, events r).
Proof. by destruct r as [[a s] es]. Qed.

(** A computation that only emits events leaves the state alone. *)
Lemma spec_final {A} (m : M A) s :
  spec (fun s' => s' = s) (fun _ => true) (fun _ => True) m ->
  final (m s) = s.
Proof. intros Hm. by destruct (Hm s eq_refl) as (Hs & _). Qed.

End RunRules.

(** ** Strings cut to a length *)

Lemma length_substring_0 (n : nat) : forall s : string,
  String.length (String.substring 0 n s) = Nat.min n (String.length s).
Proof.
  induction n as [|n IH]; intros [|c s]; cbn; try reflexivity.
  by rewrite IH.
Qed.

Lemma prefix_substring_0 (n : nat) : forall s : string,
  String.prefix (String.substring 0 n s) s = true.
Proof.
  induction n as [|n IH]; intros [|c s]; cbn; try reflexivity.
  destruct (ascii_dec c c); [apply IH|done].
Qed.

Lemma length_fmt_hex (bs : list ascii) :
  String.length (fmt_hex bs) = (2 * length bs)%nat.
Proof.
  unfold fmt_hex. induction bs as [|b bs IH]; [reflexivity|].
  assert (Hstep : String.length (String.concat "" (hex_byte <$> b :: bs)) =
                  S (S (String.length (String.concat "" (hex_byte <$> bs))))).
  { destruct bs as [|b' bs]; reflexivity. }
  rewrite Hstep, IH. cbn [length]. lia.
Qed.

Section ScanSteps.
Import scanner.
Context `{GoStrings} `{GoCrypto}.
Variable env : Env.

Lemma sanitizeLabelValue_final val s : final (sanitizeLabelValue val s) = s.
Proof. apply spec_final. by apply sanitizeLabelValue_spec. Qed.

(** X8.  [sanitizeLabelValue] returns a prefix of the trimmed value of
    at most [MaxLabelLength] bytes: the trimmed value itself when that
    is short enough, and otherwise its first [MaxLabelLength] bytes,
    counting the truncation once.  It changes no state. *)
Theorem sanitizeLabelValue_bounded (val : string) (s : State) :
  let r := sanitizeLabelValue val s in
  let trimmed := strings_TrimSpace val in
  final r = s /\
  (String.length (retval r) <= metrics.MaxLabelLength)%nat /\
  String.prefix (retval r) trimmed = true /\
  ((String.length trimmed <= metrics.MaxLabelLength)%nat ->
     retval r = trimmed /\ events r = []) /\
  ((metrics.MaxLabelLength < String.length trimmed)%nat ->
     String.length (retval r) = metrics.MaxLabelLength /\
     events r = [EvMetric (Write_ LabelsTruncated [] OpInc)]).
Proof.
  intros r trimmed. split; [apply sanitizeLabelValue_final|].
  unfold r, sanitizeLabelValue. fold trimmed.
  destruct (Nat.ltb_spec metrics.MaxLabelLength (String.length trimmed))
    as [Hlong|Hshort].
  - unfold metric. rewrite run_emit_bind. unfold mret, M_ret.
    cbn [retval final events fst snd].
    rewrite length_substring_0, prefix_substring_0.
    split; [lia|]. split; [reflexivity|]. split; [lia|].
    intros _. split; [lia|reflexivity].
  - cbn. split; [done|]. split.
    + clear. induction trimmed as [|c t IH]; [done|]. cbn.
      destruct (ascii_dec c c); [exact IH|done].
    + split; [done|]. lia.
Qed.

(** *** Parsing *)

Lemma errors_only_nil path : errors_only path [].
Proof. intros w Hw. by apply elem_of_nil in Hw. Qed.

Lemma errors_only_cons path e es :
  (forall w, e = EvMetric w -> w = Write_ CertParseErrors [path] OpInc) ->
  errors_only path es -> errors_only path (e :: es).
Proof.
  intros He Hes w [Hw|Hw]%elem_of_cons; [by apply He | by apply Hes].
Qed.

Lemma pemLoop_counts path dirPath fuel : forall rest s,
  let r := pemLoop fuel rest path dirPath s in
  final r = s /\
  match retval r with
  | Ok _ =>
      exists es,
        events r = (es ++ [EvMetric (Write_ CertsParsedTotal [dirPath] OpInc)])%list /\
        errors_only path es
  | Err _ => errors_only path (events r)
  end.
Proof.
  induction fuel as [|fuel IH]; intros rest s; cbn [pemLoop].
  - cbn. split; [done|]. apply errors_only_nil.
  - rewrite run_emit_bind. cbn [retval final events fst snd].
    destruct (pem_Decode rest) as [[block|] rest'].
    2:{ cbn. split; [done|].
        apply errors_only_cons; [discriminate|apply errors_only_nil]. }
    destruct (negb (String.eqb (pem_Type block) "CERTIFICATE")).
    { destruct (IH rest' s) as [Hs Hr]. split; [exact Hs|].
      destruct (retval (pemLoop fuel rest' path dirPath s)).
      - destruct Hr as (es & -> & Hes). exists (EvPemDecode path :: es).
        split; [done|]. apply errors_only_cons; [discriminate|done].
      - apply errors_only_cons; [discriminate|done]. }
    rewrite run_emit_bind. cbn [retval final events fst snd].
    destruct (x509_ParseCertificate (pem_Bytes block)) as [c|msg].
    + unfold metric. rewrite run_emit_bind. cbn. split; [done|].
      exists [EvPemDecode path; EvParseCertificate path]. split; [done|].
      apply errors_only_cons; [discriminate|].
      apply errors_only_cons; [discriminate|apply errors_only_nil].
    + unfold log, metric. rewrite !run_emit_bind. cbn [retval final events fst snd].
      destruct (IH rest' s) as [Hs Hr]. split; [exact Hs|].
      destruct (retval (pemLoop fuel rest' path dirPath s)).
      * destruct Hr as (es & -> & Hes).
        exists (EvPemDecode path :: EvParseCertificate path
                :: EvLog (Log WarnLevel "PEM parse error" path)
                :: EvMetric (Write_ CertParseErrors [path] OpInc) :: es).
        split; [done|].
        repeat (apply errors_only_cons; [try discriminate|]); [|done].
        by intros w [= <-].
      * repeat (apply errors_only_cons; [try discriminate|]); [|done].
        by intros w [= <-].
Qed.

(** X9.  [parseLeafCertificate] changes no state.  When it returns a
    certificate, its last event is the one increment of the
    certs-parsed counter of the directory; when it returns an error,
    that counter is not written.  Every other write to the sink counts
    a parse error of the file. *)
Theorem parseLeafCertificate_counts (raw ext path dirPath : string) (s : State) :
  let r := parseLeafCertificate raw ext path dirPath s in
  final r = s /\
  match retval r with
  | Ok _ =>
      exists es,
        events r = (es ++ [EvMetric (Write_ CertsParsedTotal [dirPath] OpInc)])%list /\
        errors_only path es
  | Err _ => errors_only path (events r)
  end.
Proof.
  unfold parseLeafCertificate. destruct (String.eqb ext ".der").
  - rewrite run_emit_bind. cbn [retval final events fst snd].
    destruct (x509_ParseCertificate raw) as [c|msg];
      unfold metric; rewrite run_emit_bind; cbn; (split; [done|]).
    + exists [EvParseCertificate path]. split; [done|].
      apply errors_only_cons; [discriminate|apply errors_only_nil].
    + apply errors_only_cons; [discriminate|].
      apply errors_only_cons; [by intros w [= <-]|apply errors_only_nil].
  - apply pemLoop_counts.
Qed.


(** *** Processing a certificate *)

Lemma sanitizeLabelValue_events val s e :
  e ∈ events (sanitizeLabelValue val s) ->
  e = EvMetric (Write_ LabelsTruncated [] OpInc).
Proof.
  unfold sanitizeLabelValue.
  destruct (_ <? _)%nat.
  - unfold metric. rewrite run_emit_bind. cbn.
    intros [->|He]%elem_of_cons; [done|]. by apply elem_of_nil in He.
  - cbn. intros He. by apply elem_of_nil in He.
Qed.

Lemma exportMetrics_final cfg c file sanitizedFile cn issuer sans hostname
  issuerCode count s :
  final (exportMetrics env cfg c file sanitizedFile cn issuer sans hostname
           issuerCode count s) = s.
Proof. apply spec_final. by apply exportMetrics_spec. Qed.

(** Among the metrics exported for a certificate, the duplicate count
    is written once, with the count given. *)
Lemma exportMetrics_duplicate_count cfg c file sanitizedFile cn issuer sans
  hostname issuerCode count s w :
  EvMetric w ∈ events (exportMetrics env cfg c file sanitizedFile cn issuer
                         sans hostname issuerCode count s) ->
  mw_metric w = CertDuplicateCount ->
  w = Write_ CertDuplicateCount [cn; sanitizedFile] (OpSet count).
Proof.
  set (P := fun e : Event =>
    match e with
    | EvMetric (Write_ CertDuplicateCount labels (OpSet v)) =>
        bool_decide (labels = [cn; sanitizedFile]) && (v =? count)
    | EvMetric (Write_ CertDuplicateCount _ _) => false
    | _ => true
    end).
  assert (Hspec : spec (fun _ => True) P (fun _ => True)
            (exportMetrics env cfg c file sanitizedFile cn issuer sans hostname
               issuerCode count)).
  { unfold exportMetrics.
    repeat first
      [ apply spec_ret; exact I
      | apply spec_log; reflexivity
      | apply spec_metric; cbn; rewrite ?Z.eqb_refl, ?bool_decide_eq_true_2 by done;
        reflexivity
      | apply spec_when; intros ?
      | apply spec_seq; [|intros ?] ]. }
  destruct (Hspec s I) as (_ & Hes & _).
  intros Hin Hm. rewrite forallb_forall in Hes.
  specialize (Hes _ (proj1 (list_elem_of_In _ _) Hin)).
  destruct w as [m labels op]. cbn in Hm. subst m. cbn in Hes.
  destruct op as [v| |v]; try discriminate.
  apply andb_true_iff in Hes as [Hl Hv].
  apply bool_decide_eq_true in Hl. apply Z.eqb_eq in Hv. by subst.
Qed.

Lemma sans_final (b : bool) v s :
  final ((if b then sanitizeLabelValue v else mret "") s) = s.
Proof. destruct b; [apply sanitizeLabelValue_final|reflexivity]. Qed.

Lemma export_final (b : bool) c file sf cn issuer sans hostname code n s :
  final ((if b then
            match env_config env with
            | Some cfg =>
                exportMetrics env cfg c file sf cn issuer sans hostname code n
            | None => mret tt
            end
          else mret tt) s) = s.
Proof.
  destruct b; [|reflexivity].
  destruct (env_config env); [apply exportMetrics_final|reflexivity].
Qed.

Lemma processCertificate_final c path dirPath hostname dryRun s :
  final (processCertificate env c path dirPath hostname dryRun s) =
    let key := fmt_hex (vec_to_list (sha256_Sum256 (Raw c))) in
    with_seen s (<[key := wrap64 (seen_count (st_seen s) key + 1)]> (st_seen s)).
Proof.
  unfold processCertificate. cbv zeta.
  repeat first
    [ rewrite final_bind | rewrite sanitizeLabelValue_final
    | rewrite final_get_seen | rewrite retval_get_seen
    | rewrite final_put_seen | rewrite sans_final | rewrite export_final ].
  reflexivity.
Qed.

Lemma parseLeafCertificate_final raw ext path dirPath s :
  final (parseLeafCertificate raw ext path dirPath s) = s.
Proof. apply spec_final. by apply parseLeafCertificate_spec. Qed.

(** X10.  [processCertificate] counts the certificate in the map of
    duplicates under the 64 hexadecimal digits of its fingerprint, and
    changes nothing else of the state; the duplicate count it exports,
    when it exports metrics, is the count it stored; its last event is
    the line that reports the certificate. *)
Theorem processCertificate_counts (c : Certificate)
  (path dirPath hostname : string) (dryRun : bool) (s : State) :
  let r := processCertificate env c path dirPath hostname dryRun s in
  let key := fmt_hex (vec_to_list (sha256_Sum256 (Raw c))) in
  let count := wrap64 (seen_count (st_seen s) key + 1) in
  final r = with_seen s (<[key := count]> (st_seen s)) /\
  String.length key = 64%nat /\
  (exists es,
     events r =
       (es ++ [EvLog (Log InfoLevel "Parsed leaf certificate"
                        (filepath_Base path))])%list /\
     forall w, EvMetric w ∈ es -> mw_metric w = CertDuplicateCount ->
       mw_op w = OpSet count).
Proof.
  intros r key count.
  split; [|split].
  - apply processCertificate_final.
  - unfold key. rewrite length_fmt_hex, length_vec_to_list. reflexivity.
  - unfold r, processCertificate. cbv zeta.
    repeat first
      [ rewrite events_bind | rewrite sanitizeLabelValue_final
      | rewrite final_get_seen | rewrite retval_get_seen
      | rewrite events_get_seen | rewrite events_put_seen
      | rewrite final_put_seen | rewrite sans_final | rewrite export_final ].
    unfold log at 1. rewrite events_emit.
    rewrite !app_nil_l, !app_assoc.
    eexists. split; [reflexivity|].
    intros w Hw Hm.
    rewrite !elem_of_app in Hw.
    destruct Hw as [[[[Hw|Hw]|Hw]|Hw]|Hw];
      try (apply sanitizeLabelValue_events in Hw; injection Hw as ->;
           discriminate Hm).
    + destruct (_ <? _)%nat.
      * apply sanitizeLabelValue_events in Hw. injection Hw as ->. discriminate Hm.
      * by apply elem_of_nil in Hw.
    + destruct (negb dryRun && shouldWriteMetrics env);
        [|by apply elem_of_nil in Hw].
      destruct (env_config env); [|by apply elem_of_nil in Hw].
      apply exportMetrics_duplicate_count in Hw; [|done]. by subst w.
Qed.

End ScanSteps.

(** ** internal/scanner: visiting a file, and the scan of a directory *)

Section ScanRuns.
Import scanner.
Context `{GoStrings} `{GoCrypto}.
Variable env : Env.

Lemma visit_retval_file dirPath hostname dryRun path name stat content err s :
  retval (visit env dirPath hostname dryRun path (File name stat content) err s)
    = None.
Proof.
  destruct (visit_spec env (fun _ => True) (fun _ => true) dryRun
              ltac:(done) ltac:(done) ltac:(done) ltac:(done)
              dirPath hostname path (File name stat content) err s I)
    as (_ & _ & [Hr|[_ Hdir]]); [exact Hr|discriminate Hdir].
Qed.

(** What a visit does to the state: nothing, or it counts one
    certificate in the map of duplicates and stores the entry of the
    file it read. *)
Lemma visit_final dirPath hostname dryRun path d err s :
  let v := visit env dirPath hostname dryRun path d err s in
  final v = s \/
  exists leaf info name raw,
    d = File name (Some info) (Some raw) /\
    is_candidate name = true /\
    cached_as (st_cache s) path info = false /\
    retval (parseLeafCertificate raw (strings_ToLower (filepath_Ext name))
              path dirPath s) = Ok leaf /\
    final v =
      with_cache
        (final (processCertificate env leaf path dirPath hostname dryRun s))
        (cache.SetEntryAtomic (st_cache s) path (sha256_Sum256 (Raw leaf)) info).
Proof.
  intros v. remember (final v) as fv eqn:Hfv. unfold v, visit in Hfv. clear v.
  destruct err as [msg|]; [by left|].
  destruct d as [name stat content|name ok entries].
  2:{ destruct (is_skipped_name name); by left. }
  cbv zeta in Hfv. destruct (is_cert_ext _) eqn:Hcand; [|by left].
  cbn [negb] in Hfv.
  rewrite final_bind, final_get_cache, retval_get_cache in Hfv.
  destruct stat as [info|]; [|by left].
  unfold cache.GetEntryAtomic in Hfv.
  assert (Htail : forall s0, s0 = s ->
    cached_as (st_cache s) path info = false ->
    fv = final ((emit (EvReadFile path) ;;
         match content with
         | None =>
             log WarnLevel "Read error" path ;;
             metric CertParseErrors [path] OpInc ;;
             mret (None : option WalkErr)
         | Some raw =>
             r ← parseLeafCertificate raw (strings_ToLower (filepath_Ext name))
                   path dirPath;
             match r with
             | Err _ =>
                 log DebugLevel "No valid certificate found in file" path ;;
                 mret None
             | Ok leafCert =>
                 processCertificate env leafCert path dirPath hostname dryRun ;;
                 emit (EvSetEntry path) ;;
                 c ← get_cache;
                 put_cache (cache.SetEntryAtomic c path
                              (sha256_Sum256 (Raw leafCert)) info) ;;
                 mret None
             end
         end) s0) ->
    fv = s \/
    exists leaf info' name' raw,
      File name (Some info) content = File name' (Some info') (Some raw) /\
      is_candidate name' = true /\
      cached_as (st_cache s) path info' = false /\
      retval (parseLeafCertificate raw (strings_ToLower (filepath_Ext name'))
                path dirPath s) = Ok leaf /\
      fv =
        with_cache
          (final (processCertificate env leaf path dirPath hostname dryRun s))
          (cache.SetEntryAtomic (st_cache s) path (sha256_Sum256 (Raw leaf)) info')).
  { clear Hfv. intros s0 -> Hnot Hfv.
    rewrite final_bind, final_emit in Hfv.
    destruct content as [raw|]; [|by left].
    rewrite final_bind, parseLeafCertificate_final in Hfv.
    destruct (retval (parseLeafCertificate raw _ path dirPath s)) as [leaf|msg] eqn:Hp;
      [|by left].
    right. exists leaf, info, name, raw.
    split; [done|]. split; [exact Hcand|]. split; [exact Hnot|].
    split; [exact Hp|].
    rewrite final_bind in Hfv. rewrite final_bind, final_emit in Hfv.
    rewrite final_bind, final_get_cache, retval_get_cache in Hfv.
    rewrite final_bind, final_put_cache in Hfv.
    rewrite processCertificate_final in *. exact Hfv. }
  destruct (cache.data (st_cache s) !! path) as [cached|] eqn:Hd;
    cbv beta iota in Hfv; rewrite final_bind, final_metric in Hfv;
    cbn [andb] in Hfv.
  - destruct ((cache.ModTime cached =? fi_ModTime info) &&
              (cache.Size cached =? fi_Size info)) eqn:Hc; [by left|].
    apply (Htail s eq_refl); [|exact Hfv].
    unfold cached_as. by rewrite Hd.
  - apply (Htail s eq_refl); [|exact Hfv].
    unfold cached_as. by rewrite Hd.
Qed.


(** A candidate file that is not cached with its current modification
    time and size is read and parsed; what the visit leaves depends on
    the parse. *)
Lemma visit_file_final dirPath hostname dryRun path name info raw s :
  is_candidate name = true ->
  cached_as (st_cache s) path info = false ->
  final (visit env dirPath hostname dryRun path
           (File name (Some info) (Some raw)) None s) =
    match retval (parseLeafCertificate raw (strings_ToLower (filepath_Ext name))
                    path dirPath s) with
    | Ok leaf =>
        with_cache
          (final (processCertificate env leaf path dirPath hostname dryRun s))
          (cache.SetEntryAtomic (st_cache s) path (sha256_Sum256 (Raw leaf)) info)
    | Err _ => s
    end.
Proof.
  intros Hcand Hnot.
  destruct (visit_final dirPath hostname dryRun path
              (File name (Some info) (Some raw)) None s)
    as [Hs|(leaf & info' & name' & raw' & Hd & _ & _ & Hp & Hf)].
  - (* the state is unchanged: the parse failed *)
    rewrite Hs.
    destruct (retval (parseLeafCertificate raw _ path dirPath s)) as [leaf|msg] eqn:Hp;
      [|done].
    exfalso. revert Hs. unfold visit. cbv zeta.
    unfold is_candidate in Hcand. rewrite Hcand. cbn [negb].
    rewrite final_bind, final_get_cache, retval_get_cache.
    unfold cache.GetEntryAtomic. unfold cached_as in Hnot.
    destruct (cache.data (st_cache s) !! path) as [cached|] eqn:Hdata;
      cbv beta iota; rewrite final_bind, final_metric; cbn [andb];
      rewrite ?Hnot; rewrite final_bind, final_emit;
      rewrite final_bind, parseLeafCertificate_final, Hp;
      rewrite final_bind; rewrite final_bind, final_emit;
      rewrite final_bind, final_get_cache, retval_get_cache;
      rewrite final_bind, final_put_cache;
      rewrite processCertificate_final; cbv zeta;
      intros Hs; apply (f_equal (fun s' => cache.data (st_cache s') !! path)) in Hs;
      cbn in Hs; rewrite lookup_insert_eq, Hdata in Hs.
    + injection Hs as <-. cbn in Hnot. by rewrite !Z.eqb_refl in Hnot.
    + discriminate Hs.
  - injection Hd as <- <- <-. by rewrite Hp, Hf.
Qed.

(** X11.  A candidate file that is not cached with its current
    modification time and size is read; the visit returns no error and
    leaves the backoff table alone.  When a leaf certificate is found,
    the file's entry is stored with the certificate's fingerprint and
    the modification time and size just seen, so that the next visit of
    the file, while these stay the same, only counts the file and skips
    it, whatever it holds.  When none is found, the state is left as it
    was, and the file is read again by the next visit. *)
Theorem visit_then_revisit (dirPath hostname path name raw : string)
  (dryRun : bool) (info : FileInfo) (s : State) :
  is_candidate name = true ->
  cached_as (st_cache s) path info = false ->
  let p := parseLeafCertificate raw (strings_ToLower (filepath_Ext name))
             path dirPath s in
  let v := visit env dirPath hostname dryRun path
             (File name (Some info) (Some raw)) None s in
  retval v = None /\
  st_backoff (final v) = st_backoff s /\
  EvReadFile path ∈ events v /\
  match retval p with
  | Ok leaf =>
      st_cache (final v) =
        cache.SetEntryAtomic (st_cache s) path (sha256_Sum256 (Raw leaf)) info /\
      cached_as (st_cache (final v)) path info = true /\
      (forall content,
         visit env dirPath hostname dryRun path
           (File name (Some info) content) None (final v) =
           (None, final v,
            [EvMetric (Write_ CertFilesTotal [dirPath] OpInc);
             EvLog (Log DebugLevel
                      "Skipping file with unchanged ModTime and Size" path)]))
  | Err _ => final v = s
  end.
Proof.
  intros Hcand Hnot p v.
  pose proof (visit_file_final dirPath hostname dryRun path name info raw s
                Hcand Hnot) as Hfinal.
  fold p v in Hfinal.
  split; [apply visit_retval_file|].
  assert (Hread : EvReadFile path ∈ events v).
  { unfold v, visit. cbv zeta.
    unfold is_candidate in Hcand. rewrite Hcand. cbn [negb].
    rewrite events_bind, final_get_cache, retval_get_cache.
    unfold cache.GetEntryAtomic. unfold cached_as in Hnot.
    destruct (cache.data (st_cache s) !! path) as [cached|];
      cbv beta iota; rewrite events_bind, final_metric; cbn [andb];
      rewrite ?Hnot; rewrite events_bind, events_emit;
      rewrite !elem_of_app, elem_of_cons; tauto. }
  destruct (retval p) as [leaf|msg].
  - assert (Hcache : st_cache (final v) =
              cache.SetEntryAtomic (st_cache s) path (sha256_Sum256 (Raw leaf)) info).
    { by rewrite Hfinal. }
    assert (Hcached : cached_as (st_cache (final v)) path info = true).
    { rewrite Hcache. unfold cached_as, cache.SetEntryAtomic. cbn.
      rewrite lookup_insert_eq. cbn. by rewrite !Z.eqb_refl. }
    split; [|split; [exact Hread|split; [exact Hcache|split; [exact Hcached|]]]].
    + rewrite Hfinal, processCertificate_final. reflexivity.
    + intros content. rewrite visit_cached_file by exact Hcached.
      by rewrite Hcand.
  - split; [by rewrite Hfinal|]. split; [exact Hread|exact Hfinal].
Qed.

End ScanRuns.

(** ** internal/scanner: the three ways a scan of a directory goes *)

Section DirectoryRuns.
Import scanner.
Context `{GoStrings} `{GoCrypto}.
Variable env : Env.

Lemma when_log_run (b : bool) lvl msg subject s :
  when b (log lvl msg subject) s =
    (tt, s, if b then [EvLog (Log lvl msg subject)] else []).
Proof. by destruct b. Qed.

Lemma when_metric_run (b : bool) m labels op s :
  when b (metric m labels op) s =
    (tt, s, if b then [EvMetric (Write_ m labels op)] else []).
Proof. by destruct b. Qed.

Lemma with_backoff_id s : with_backoff s (st_backoff s) = s.
Proof. by destruct s. Qed.

Lemma shouldSkipScan_true now dir (b : gmap string Z) :
  (shouldSkipScan now dir b).1.1 = true <->
  exists t, b !! dir = Some t /\ now < t.
Proof.
  unfold shouldSkipScan. destruct (b !! dir) as [t|].
  - destruct (Z.ltb_spec now t) as [Hlt|Hge]; cbn.
    + split; [intros _; by exists t|done].
    + split; [discriminate|]. intros (t' & [= <-] & Hlt). lia.
  - cbn. split; [discriminate|]. by intros (t & Ht & _).
Qed.

Lemma shouldSkipScan_false now dir (b : gmap string Z) :
  (shouldSkipScan now dir b).1.1 = false ->
  (shouldSkipScan now dir b).1.2 = delete dir b /\
  backoffDelay now dir b = 30 * Second /\
  forall l, l ∈ (shouldSkipScan now dir b).2 ->
    l = Log DebugLevel "Backoff period expired, allowing directory scan" dir.
Proof.
  unfold shouldSkipScan, backoffDelay. destruct (b !! dir) as [t|] eqn:Hb.
  - destruct (now <? t); cbn; [discriminate|]. intros _.
    split; [done|]. split; [done|].
    intros l [->|Hl]%elem_of_cons; [done|]. by apply elem_of_nil in Hl.
  - cbn. intros _. split; [by rewrite delete_id|]. split; [done|].
    intros l Hl. by apply elem_of_nil in Hl.
Qed.

(** The scan of a directory that is backed off. *)
Lemma ProcessDirectory_run_skipped dirPath dryRun s :
  (shouldSkipScan (env_now env) dirPath (st_backoff s)).1.1 = true ->
  ProcessDirectory env dirPath dryRun s =
    (None, s,
     (dry_run_notice env dirPath dryRun ++
      [EvLog (Log DebugLevel "Directory scan skipped due to backoff" dirPath);
       EvLog (Log WarnLevel "Skipping scan due to backoff" dirPath)])%list).
Proof.
  intros Hskip. unfold ProcessDirectory.
  rewrite run_bind, when_log_run. cbn [retval final events fst snd].
  rewrite run_bind, shouldSkipScanM_run.
  unfold shouldSkipScan in *.
  destruct (st_backoff s !! dirPath) as [t|]; [|discriminate].
  destruct (env_now env <? t); [|discriminate].
  cbn [retval final events fst snd fmap list_fmap].
  rewrite with_backoff_id. unfold log. rewrite run_emit_bind.
  reflexivity.
Qed.

(** The scan of a path that is not a directory. *)
Lemma ProcessDirectory_run_not_a_directory dirPath dryRun s :
  (shouldSkipScan (env_now env) dirPath (st_backoff s)).1.1 = false ->
  stat_is_dir (env_fs env dirPath) = false ->
  let b := delete dirPath (st_backoff s) in
  ProcessDirectory env dirPath dryRun s =
    (None,
     with_backoff s
       (registerScanFailure (env_now env) (env_jitter env) dirPath b).1,
     (dry_run_notice env dirPath dryRun ++
      (EvLog <$> (shouldSkipScan (env_now env) dirPath (st_backoff s)).2) ++
      [EvLog (Log WarnLevel "Skipping non-directory" dirPath);
       EvLog (Log WarnLevel "Scan failed, applying backoff" dirPath);
       EvMetric (Write_ CertScanDuration [dirPath] (OpObserve 0))])%list).
Proof.
  intros Hskip Hstat b.
  destruct (shouldSkipScan_false _ _ _ Hskip) as (Hb & _ & _).
  unfold ProcessDirectory.
  rewrite run_bind, when_log_run. cbn [retval final events fst snd].
  rewrite run_bind, shouldSkipScanM_run.
  destruct (shouldSkipScan (env_now env) dirPath (st_backoff s))
    as [[skip b'] lines].
  cbn [fst snd] in Hskip, Hb. subst skip b'.
  cbn [retval final events fst snd]. cbv zeta.
  assert (Hfail :
    (log WarnLevel "Skipping non-directory" dirPath ;;
     registerScanFailureM env dirPath ;;
     observeScanDuration env dirPath ;;
     mret (None : option (gmap string Z)))
      (with_backoff s (delete dirPath (st_backoff s))) =
    (None,
     with_backoff s
       (registerScanFailure (env_now env) (env_jitter env) dirPath b).1,
     [EvLog (Log WarnLevel "Skipping non-directory" dirPath);
      EvLog (Log WarnLevel "Scan failed, applying backoff" dirPath);
      EvMetric (Write_ CertScanDuration [dirPath] (OpObserve 0))])).
  { unfold log. rewrite run_emit_bind.
    rewrite run_bind, registerScanFailureM_run.
    unfold registerScanFailure. cbn [retval final events fst snd fmap list_fmap].
    unfold observeScanDuration, metric. rewrite run_emit_bind.
    unfold time_Sub. rewrite Z.sub_diag. cbn. reflexivity. }
  destruct (env_fs env dirPath) as [root|].
  - rewrite Hstat. cbn [negb]. rewrite Hfail. reflexivity.
  - rewrite Hfail. reflexivity.
Qed.

(** The scan of a directory: the walk, from the state with the map of
    duplicates emptied, between the lines of the backoff check and the
    two deferred writes. *)
Lemma ProcessDirectory_run_directory dirPath dryRun root s :
  (shouldSkipScan (env_now env) dirPath (st_backoff s)).1.1 = false ->
  env_fs env dirPath = Some root ->
  stat_is_dir (Some root) = true ->
  let s0 := with_seen (with_backoff s (delete dirPath (st_backoff s))) ∅ in
  let w := WalkDir (visit env dirPath (env_hostname env) dryRun) dirPath root s0 in
  let r := ProcessDirectory env dirPath dryRun s in
  retval w = None /\
  retval r = Some (st_seen (final w)) /\
  final r = final w /\
  events r =
    (dry_run_notice env dirPath dryRun ++
     (EvLog <$> (shouldSkipScan (env_now env) dirPath (st_backoff s)).2) ++
     events w ++
     (if negb dryRun && shouldWriteMetrics env
      then [EvMetric (Write_ CertLastScan [dirPath]
                        (OpSet (time_Unix (env_now env))))]
      else []) ++
     [EvMetric (Write_ CertScanDuration [dirPath] (OpObserve 0))])%list.
Proof.
  intros Hskip Hroot Hdir s0 w r.
  destruct (shouldSkipScan_false _ _ _ Hskip) as (Hb & _ & _).
  assert (Hw : retval w = None).
  { by destruct (WalkDir_visit_spec env (fun _ => True) (fun _ => true) dryRun
                   ltac:(done) ltac:(done) ltac:(done) ltac:(done)
                   dirPath (env_hostname env) dirPath root s0 I) as (_ & _ & Hr). }
  split; [exact Hw|].
  assert (Hrun : r =
    (Some (st_seen (final w)), final w,
     (dry_run_notice env dirPath dryRun ++
      (EvLog <$> (shouldSkipScan (env_now env) dirPath (st_backoff s)).2) ++
      events w ++
      (if negb dryRun && shouldWriteMetrics env
       then [EvMetric (Write_ CertLastScan [dirPath]
                         (OpSet (time_Unix (env_now env))))]
       else []) ++
      [EvMetric (Write_ CertScanDuration [dirPath] (OpObserve 0))])%list));
    [|by rewrite Hrun].
  unfold r, ProcessDirectory.
  rewrite run_bind, when_log_run. cbn [retval final events fst snd].
  rewrite run_bind, shouldSkipScanM_run.
  destruct (shouldSkipScan (env_now env) dirPath (st_backoff s))
    as [[skip b'] lines].
  cbn [fst snd] in Hskip, Hb. subst skip b'.
  cbn [retval final events fst snd]. cbv zeta.
  rewrite Hroot, Hdir. cbn [negb].
  rewrite run_bind, final_put_seen, events_put_seen.
  fold s0. rewrite run_bind. fold w. rewrite Hw.
  rewrite run_bind, final_ret, events_ret.
  rewrite run_bind, final_get_seen, retval_get_seen, events_get_seen.
  rewrite run_bind.
  rewrite when_metric_run.
  cbn [retval final events fst snd].
  unfold observeScanDuration, metric. rewrite run_emit_bind.
  unfold time_Sub. rewrite Z.sub_diag.
  cbn [retval final events fst snd mret M_ret].
  rewrite !app_nil_l. unfold dry_run_notice. reflexivity.
Qed.

End DirectoryRuns.

(** ** internal/scanner: what a scan of a directory does *)

Section WalkInvariants.
Import scanner.
Context `{GoStrings} `{GoCrypto}.
Variable env : Env.
Variable Q : State -> Prop.
Variables (dirPath hostname : string) (dryRun : bool).

(** [Q] survives the one change of state a visit makes: the leaf
    certificate of a file is counted under the hexadecimal form of its
    SHA-256 fingerprint, and the entry of the file is stored. *)
Hypothesis Q_visit : forall s leaf raw ext path n info,
  retval (parseLeafCertificate raw ext path dirPath s) = Ok leaf ->
  Q s ->
  Q (with_cache
       (with_seen s
          (<[fmt_hex (vec_to_list (sha256_Sum256 (Raw leaf))) := n]> (st_seen s)))
       (cache.SetEntryAtomic (st_cache s) path (sha256_Sum256 (Raw leaf)) info)).

Lemma visit_inv path d err :
  spec Q (fun _ => true)
    (fun r => r = None \/ (r = Some SkipDir /\ node_IsDir d = true))
    (visit env dirPath hostname dryRun path d err).
Proof.
  intros s Hs.
  destruct (visit_spec env (fun _ => True) (fun _ => true) dryRun
              ltac:(done) ltac:(done) ltac:(done) ltac:(done)
              dirPath hostname path d err s I) as (_ & Hes & Hr).
  split; [|done].
  destruct (visit_final env dirPath hostname dryRun path d err s)
    as [->|(leaf & info & name & raw & _ & _ & _ & Hleaf & ->)]; [done|].
  rewrite processCertificate_final. cbv zeta.
  by apply (Q_visit s leaf raw (strings_ToLower (filepath_Ext name))).
Qed.

Lemma WalkDir_visit_inv root d :
  spec Q (fun _ => true) (fun r => r = None)
    (WalkDir (visit env dirPath hostname dryRun) root d).
Proof. apply WalkDir_value. apply visit_inv. Qed.

End WalkInvariants.

Section ScanMore.
Import scanner.
Context `{GoStrings} `{GoCrypto}.

(** X12.  The scan of a directory that is backed off does nothing: it
    returns the nil map, leaves the state as it is, and only logs, the
    notice of the dry run first when metric writes are disabled.  No
    metric is written, not even the scan duration, and no file is
    touched. *)
Theorem ProcessDirectory_backed_off (env : Env) (dirPath : string)
  (dryRun : bool) (s : State) (t : Z) :
  st_backoff s !! dirPath = Some t ->
  env_now env < t ->
  let r := ProcessDirectory env dirPath dryRun s in
  retval r = None /\
  final r = s /\
  events r =
    (dry_run_notice env dirPath dryRun ++
     [EvLog (Log DebugLevel "Directory scan skipped due to backoff" dirPath);
      EvLog (Log WarnLevel "Skipping scan due to backoff" dirPath)])%list /\
  (forall e, e ∈ events r -> is_metric e = false /\ touches_file e = false).
Proof.
  intros Hb Hlt r.
  assert (Hrun := ProcessDirectory_run_skipped env dirPath dryRun s).
  rewrite shouldSkipScan_true in Hrun. specialize (Hrun ltac:(by exists t)).
  fold r in Hrun. rewrite Hrun. cbn [retval final events fst snd].
  split; [done|]. split; [done|]. split; [done|].
  intros e. unfold dry_run_notice.
  destruct (negb dryRun && negb (shouldWriteMetrics env)); cbn [app];
    rewrite ?elem_of_cons, elem_of_nil; intros He;
    repeat (destruct He as [->|He]; [done|]); done.
Qed.


(** X14.  The scan of a directory that is not backed off: the map of
    duplicates is emptied, the tree is walked, and the map the walk
    leaves is returned.  No failure is registered, whatever happens
    during the walk: the directory has no deadline afterwards.  The
    events are those of the backoff check and of the walk, followed by
    the last-scan timestamp, when metrics are written, and by the scan
    duration. *)
Theorem ProcessDirectory_directory (env : Env) (dirPath : string)
  (dryRun : bool) (root : Node) (s : State) :
  (forall t, st_backoff s !! dirPath = Some t -> t <= env_now env) ->
  env_fs env dirPath = Some root ->
  stat_is_dir (Some root) = true ->
  let w := WalkDir (visit env dirPath (env_hostname env) dryRun) dirPath root
             (with_seen (with_backoff s (delete dirPath (st_backoff s))) ∅) in
  let r := ProcessDirectory env dirPath dryRun s in
  retval r = Some (st_seen (final r)) /\
  final r = final w /\
  st_backoff (final r) = delete dirPath (st_backoff s) /\
  events r =
    (dry_run_notice env dirPath dryRun ++
     (EvLog <$> (shouldSkipScan (env_now env) dirPath (st_backoff s)).2) ++
     events w ++
     (if negb dryRun && shouldWriteMetrics env
      then [EvMetric (Write_ CertLastScan [dirPath]
                        (OpSet (time_Unix (env_now env))))]
      else []) ++
     [EvMetric (Write_ CertScanDuration [dirPath] (OpObserve 0))])%list.
Proof.
  intros Hb Hroot Hdir w r.
  assert (Hskip : (shouldSkipScan (env_now env) dirPath (st_backoff s)).1.1 = false).
  { apply not_true_is_false. rewrite shouldSkipScan_true.
    intros (t & Ht & Hlt). specialize (Hb _ Ht). lia. }
  destruct (ProcessDirectory_run_directory env dirPath dryRun root s
              Hskip Hroot Hdir) as (_ & Hret & Hfinal & Hevents).
  fold w r in Hret, Hfinal, Hevents.
  split; [by rewrite Hret, Hfinal|]. split; [exact Hfinal|].
  split; [|exact Hevents].
  rewrite Hfinal.
  destruct (WalkDir_visit_inv env
              (fun s' => st_backoff s' = delete dirPath (st_backoff s))
              dirPath (env_hostname env) dryRun) with
    (root := dirPath) (d := root)
    (s := with_seen (with_backoff s (delete dirPath (st_backoff s))) ∅)
    as (Hq & _).
  - intros s' leaf raw ext path n info _ Hs'. exact Hs'.
  - reflexivity.
  - exact Hq.
Qed.

(** X15.  Every key of the map a scan returns is the hexadecimal form
    of the SHA-256 fingerprint of a leaf certificate that
    [parseLeafCertificate] extracted from a file, whatever the map of
    duplicates held before.  It has 64 digits, so that cutting a key to
    its first 16 bytes, as the dry run of the command does, stays
    within the key. *)
Theorem ProcessDirectory_duplicate_keys (env : Env) (dirPath : string)
  (dryRun : bool) (s : State) :
  forall m k,
    retval (ProcessDirectory env dirPath dryRun s) = Some m ->
    is_Some (m !! k) ->
    (exists (leaf : Certificate) (raw ext path : string) (s' : State),
       retval (parseLeafCertificate raw ext path dirPath s') = Ok leaf /\
       k = fmt_hex (vec_to_list (sha256_Sum256 (Raw leaf)))) /\
    String.length k = 64%nat /\
    String.length (String.substring 0 16 k) = 16%nat.
Proof.
  intros m k Hret Hk.
  assert (Hkey : exists (leaf : Certificate) (raw ext path : string) (s' : State),
            retval (parseLeafCertificate raw ext path dirPath s') = Ok leaf /\
            k = fmt_hex (vec_to_list (sha256_Sum256 (Raw leaf)))).
  2:{ split; [exact Hkey|].
      destruct Hkey as (leaf & _ & _ & _ & _ & _ & ->).
      assert (Hlen : String.length
                       (fmt_hex (vec_to_list (sha256_Sum256 (Raw leaf)))) = 64%nat)
        by (by rewrite length_fmt_hex, length_vec_to_list).
      split; [exact Hlen|]. rewrite length_substring_0; lia. }
  destruct ((shouldSkipScan (env_now env) dirPath (st_backoff s)).1.1) eqn:Hskip.
  { by rewrite (ProcessDirectory_run_skipped env dirPath dryRun s Hskip) in Hret. }
  destruct (stat_is_dir (env_fs env dirPath)) eqn:Hstat.
  2:{ by rewrite (ProcessDirectory_run_not_a_directory env dirPath dryRun s
                    Hskip Hstat) in Hret. }
  destruct (env_fs env dirPath) as [root|] eqn:Hroot; [|discriminate].
  destruct (ProcessDirectory_run_directory env dirPath dryRun root s
              Hskip Hroot Hstat) as (_ & Hret' & _).
  rewrite Hret' in Hret. injection Hret as <-.
  destruct (WalkDir_visit_inv env
              (fun s' => forall k, is_Some (st_seen s' !! k) ->
                 exists (leaf : Certificate) (raw ext path : string) (s0 : State),
                   retval (parseLeafCertificate raw ext path dirPath s0) = Ok leaf /\
                   k = fmt_hex (vec_to_list (sha256_Sum256 (Raw leaf))))
              dirPath (env_hostname env) dryRun) with
    (root := dirPath) (d := root)
    (s := with_seen (with_backoff s (delete dirPath (st_backoff s))) ∅)
    as (Hq & _).
  - intros s' leaf raw ext path n info Hleaf Hs' k'. cbn.
    destruct (decide (fmt_hex (vec_to_list (sha256_Sum256 (Raw leaf))) = k'))
      as [<-|Hne]; [intros _; by exists leaf, raw, ext, path, s'|].
    rewrite lookup_insert_ne by done. apply Hs'.
  - intros k'. cbn. rewrite lookup_empty. by intros [? ?].
  - by apply Hq.
Qed.

(** X16.  Whatever a scan of a directory does, it leaves the backoff
    deadlines of all other directories as they are, keeps the file path
    of the cache, and removes no entry from the cache. *)
Theorem ProcessDirectory_frame (env : Env) (dirPath : string)
  (dryRun : bool) (s : State) :
  let r := ProcessDirectory env dirPath dryRun s in
  (forall dir, dir <> dirPath ->
     st_backoff (final r) !! dir = st_backoff s !! dir) /\
  cache.filePath (st_cache (final r)) = cache.filePath (st_cache s) /\
  (forall p, is_Some (cache.data (st_cache s) !! p) ->
     is_Some (cache.data (st_cache (final r)) !! p)) /\
  (size (cache.data (st_cache s)) <= size (cache.data (st_cache (final r))))%nat.
Proof.
  intros r.
  assert (Hgoal : forall s',
    (forall dir, dir <> dirPath ->
       st_backoff s' !! dir = st_backoff s !! dir) ->
    cache.filePath (st_cache s') = cache.filePath (st_cache s) ->
    dom (cache.data (st_cache s)) ⊆ dom (cache.data (st_cache s')) ->
    (forall dir, dir <> dirPath ->
       st_backoff s' !! dir = st_backoff s !! dir) /\
    cache.filePath (st_cache s') = cache.filePath (st_cache s) /\
    (forall p, is_Some (cache.data (st_cache s) !! p) ->
       is_Some (cache.data (st_cache s') !! p)) /\
    (size (cache.data (st_cache s)) <= size (cache.data (st_cache s')))%nat).
  { intros s' Hb Hf Hd. split; [exact Hb|]. split; [exact Hf|]. split.
    - intros p Hp. apply elem_of_dom. apply Hd. by apply elem_of_dom.
    - rewrite <-!size_dom. by apply subseteq_size. }
  destruct ((shouldSkipScan (env_now env) dirPath (st_backoff s)).1.1) eqn:Hskip.
  { unfold r. rewrite (ProcessDirectory_run_skipped env dirPath dryRun s Hskip).
    by apply Hgoal. }
  destruct (stat_is_dir (env_fs env dirPath)) eqn:Hstat.
  2:{ unfold r.
      rewrite (ProcessDirectory_run_not_a_directory env dirPath dryRun s
                 Hskip Hstat).
      cbn [final fst snd]. apply Hgoal; [|done|done].
      intros dir Hne. cbn. unfold registerScanFailure. cbn.
      rewrite lookup_insert_ne by done. by rewrite lookup_delete_ne. }
  destruct (env_fs env dirPath) as [root|] eqn:Hroot; [|discriminate].
  destruct (ProcessDirectory_run_directory env dirPath dryRun root s
              Hskip Hroot Hstat) as (_ & _ & Hfinal & _).
  fold r in Hfinal. rewrite Hfinal.
  destruct (WalkDir_visit_inv env
              (fun s' =>
                 (forall dir, dir <> dirPath ->
                    st_backoff s' !! dir = st_backoff s !! dir) /\
                 cache.filePath (st_cache s') = cache.filePath (st_cache s) /\
                 dom (cache.data (st_cache s)) ⊆ dom (cache.data (st_cache s')))
              dirPath (env_hostname env) dryRun) with
    (root := dirPath) (d := root)
    (s := with_seen (with_backoff s (delete dirPath (st_backoff s))) ∅)
    as ((Hb & Hf & Hd) & _).
  - intros s' leaf raw ext path n info _ (Hb & Hf & Hd). cbn.
    split; [exact Hb|]. split; [exact Hf|].
    rewrite dom_insert_L. etrans; [exact Hd|]. apply union_subseteq_r.
  - cbn. split; [|done]. intros dir Hne. by rewrite lookup_delete_ne.
  - by apply Hgoal.
Qed.

End ScanMore.

(** ** internal/scanner: what of a tree a scan depends on *)

Section Scanned.
Import scanner.
Context `{GoStrings} `{GoCrypto}.
Variable env : Env.
Variables (dirPath hostname : string) (dryRun : bool).

Lemma bind_run_ext {A B} (m1 m2 : M A) (k1 k2 : A -> M B) s :
  m1 s = m2 s ->
  k1 (retval (m2 s)) (final (m2 s)) = k2 (retval (m2 s)) (final (m2 s)) ->
  (m1 ≫= k1) s = (m2 ≫= k2) s.
Proof. intros Hm Hk. by rewrite !run_bind, Hm, Hk. Qed.

Lemma node_Name_scanned d : node_Name (scanned d) = node_Name d.
Proof.
  destruct d as [name stat content|name ok entries]; cbn.
  - by destruct (is_candidate name).
  - by destruct (is_skipped_name name).
Qed.

Lemma visit_scanned path d err s :
  visit env dirPath hostname dryRun path (scanned d) err s =
  visit env dirPath hostname dryRun path d err s.
Proof.
  destruct d as [name stat content|name ok entries]; cbn [scanned].
  - destruct (is_candidate name) eqn:Hc; [done|].
    unfold visit. destruct err; [done|]. cbv zeta.
    unfold is_candidate in Hc. by rewrite Hc.
  - destruct (is_skipped_name name) eqn:Hs;
      unfold visit; destruct err; try done.
Qed.

Lemma walk_entries_scanned
  (walk : string -> Node -> M (option WalkErr)) path entries :
  Forall (fun d1 => forall p s, walk p (scanned d1) s = walk p d1 s) entries ->
  forall s,
    walk_entries walk path (map scanned entries) s =
    walk_entries walk path entries s.
Proof.
  induction 1 as [|d1 entries Hd1 _ IH]; intros s; cbn [map walk_entries];
    [done|].
  rewrite node_Name_scanned.
  apply bind_run_ext; [apply Hd1|].
  destruct (retval _) as [err|]; [done|]. apply IH.
Qed.

Lemma walkDir_scanned d : forall path s,
  walkDir (visit env dirPath hostname dryRun) path (scanned d) s =
  walkDir (visit env dirPath hostname dryRun) path d s.
Proof.
  induction d as [name stat content|name ok entries IH] using Node_ind_entries;
    intros path s.
  - pose proof (visit_scanned path (File name stat content) None s) as Hv.
    cbn [scanned] in *. destruct (is_candidate name); [done|].
    cbn [walkDir]. apply bind_run_ext; [exact Hv|].
    by destruct (retval _).
  - pose proof (visit_scanned path (Dir name ok entries) None s) as Hv.
    cbn [scanned] in *. destruct (is_skipped_name name) eqn:Hs.
    + cbn [walkDir]. apply bind_run_ext; [exact Hv|].
      unfold visit. rewrite Hs. unfold log. rewrite run_emit_bind.
      reflexivity.
    + cbn [walkDir]. apply bind_run_ext; [exact Hv|].
      destruct (retval _) as [err|]; [done|].
      apply bind_run_ext; [by destruct ok|].
      destruct (retval _) as [err|]; [done|].
      apply walk_entries_scanned.
      rewrite Forall_forall in *. intros d1 Hd1. by apply IH.
Qed.

Lemma WalkDir_scanned root d s :
  WalkDir (visit env dirPath hostname dryRun) root (scanned d) s =
  WalkDir (visit env dirPath hostname dryRun) root d s.
Proof.
  unfold WalkDir. apply bind_run_ext; [apply walkDir_scanned|]. reflexivity.
Qed.

End Scanned.

Section ScannedScan.
Import scanner.
Context `{GoStrings} `{GoCrypto}.

(** X17.  A scan depends only on the part of the tree it looks at: two
    directories that differ only below subdirectories named [old] or
    [working] (in any case), or in the content or the stat of files
    without one of the four extensions, are scanned with the same
    result, the same final state and the same events. *)
Theorem ProcessDirectory_scanned (env : Env) (fs' : string -> option Node)
  (dirPath : string) (dryRun : bool) (root root' : Node) (s : State) :
  env_fs env dirPath = Some root ->
  fs' dirPath = Some root' ->
  node_IsDir root = true ->
  node_IsDir root' = true ->
  scanned root' = scanned root ->
  ProcessDirectory (with_fs env fs') dirPath dryRun s =
  ProcessDirectory env dirPath dryRun s.
Proof.
  intros Hroot Hroot' Hdir Hdir' Hsame.
  destruct ((shouldSkipScan (env_now env) dirPath (st_backoff s)).1.1) eqn:Hskip.
  { rewrite (ProcessDirectory_run_skipped env dirPath dryRun s Hskip).
    by rewrite (ProcessDirectory_run_skipped (with_fs env fs') dirPath dryRun s Hskip). }
  assert (Hstat : stat_is_dir (Some root) = true) by (by destruct root).
  assert (Hstat' : stat_is_dir (Some root') = true) by (by destruct root').
  destruct (ProcessDirectory_run_directory env dirPath dryRun root s
              Hskip Hroot Hstat) as (_ & Hret & Hfinal & Hevents).
  destruct (ProcessDirectory_run_directory (with_fs env fs') dirPath dryRun root' s
              Hskip Hroot' Hstat') as (_ & Hret' & Hfinal' & Hevents').
  rewrite (run_eta (ProcessDirectory env dirPath dryRun s)).
  rewrite (run_eta (ProcessDirectory (with_fs env fs') dirPath dryRun s)).
  rewrite Hret, Hfinal, Hevents, Hret', Hfinal', Hevents'.
  change (visit (with_fs env fs') dirPath (env_hostname (with_fs env fs')) dryRun)
    with (visit env dirPath (env_hostname env) dryRun).
  rewrite <-(WalkDir_scanned env dirPath (env_hostname env) dryRun dirPath root').
  rewrite <-(WalkDir_scanned env dirPath (env_hostname env) dryRun dirPath root).
  rewrite Hsame. reflexivity.
Qed.

End ScannedScan.

(** ** internal/scanner: a second scan of an unchanged directory *)

Section SecondPass.
Import scanner.
Context `{GoStrings} `{GoCrypto}.

Ltac quiet_steps tac :=
  repeat first
    [ apply spec_ret; exact I
    | apply spec_log; tac
    | apply spec_metric; tac
    | apply spec_emit; tac
    | apply spec_when; intros ?
    | apply spec_seq; [|intros ?] ].

(** *** What is extracted from a file does not depend on the state *)

Lemma pemLoop_retval_state path dirPath fuel : forall rest s s',
  retval (pemLoop fuel rest path dirPath s) =
  retval (pemLoop fuel rest path dirPath s').
Proof.
  induction fuel as [|fuel IH]; intros rest s s'; cbn [pemLoop]; [reflexivity|].
  rewrite !run_emit_bind. cbn [retval fst snd].
  destruct (pem_Decode rest) as [[block|] rest']; [|reflexivity].
  destruct (negb _); [apply IH|].
  rewrite !run_emit_bind. cbn [retval fst snd].
  destruct (x509_ParseCertificate _); [reflexivity|].
  unfold log, metric. rewrite !run_emit_bind. cbn [retval fst snd]. apply IH.
Qed.

Lemma parseLeafCertificate_retval_state raw ext path dirPath s s' :
  retval (parseLeafCertificate raw ext path dirPath s) =
  retval (parseLeafCertificate raw ext path dirPath s').
Proof.
  unfold parseLeafCertificate. destruct (String.eqb ext ".der").
  - rewrite !run_emit_bind. cbn [retval fst snd].
    by destruct (x509_ParseCertificate raw).
  - apply pemLoop_retval_state.
Qed.

(** *** The events of the steps of a visit *)

Lemma pemLoop_decodes path dirPath fuel : forall rest,
  spec (fun _ => True) (decodes path) (fun _ => True)
    (pemLoop fuel rest path dirPath).
Proof.
  induction fuel as [|fuel IH]; intros rest; cbn [pemLoop].
  - by apply spec_ret.
  - apply spec_seq; [apply spec_emit; apply String.eqb_refl|]. intros _.
    destruct (pem_Decode rest) as [[block|] r]; [|by apply spec_ret].
    destruct (negb _); [apply IH|].
    apply spec_seq; [apply spec_emit; apply String.eqb_refl|]. intros _.
    destruct (x509_ParseCertificate _).
    + quiet_steps ltac:(reflexivity).
    + apply spec_seq; [by apply spec_log|]. intros _.
      apply spec_seq; [by apply spec_metric|]. intros _.
      apply IH.
Qed.

Lemma parseLeafCertificate_decodes raw ext path dirPath :
  spec (fun _ => True) (decodes path) (fun _ => True)
    (parseLeafCertificate raw ext path dirPath).
Proof.
  unfold parseLeafCertificate. destruct (String.eqb ext ".der").
  - apply spec_seq; [apply spec_emit; apply String.eqb_refl|]. intros _.
    destruct (x509_ParseCertificate raw); quiet_steps ltac:(reflexivity).
  - apply pemLoop_decodes.
Qed.

Lemma sanitizeLabelValue_quiet val :
  spec (fun _ => True) quiet (fun _ => True) (sanitizeLabelValue val).
Proof.
  unfold sanitizeLabelValue. cbv zeta.
  destruct (_ <? _)%nat; quiet_steps ltac:(reflexivity).
Qed.

Lemma processCertificate_quiet env c path dirPath hostname dryRun :
  spec (fun _ => True) quiet (fun _ => True)
    (processCertificate env c path dirPath hostname dryRun).
Proof.
  unfold processCertificate. cbv zeta.
  apply spec_seq; [apply sanitizeLabelValue_quiet|]. intros sanitizedFile.
  apply spec_seq; [apply spec_get_seen|]. intros seen.
  apply spec_seq; [by apply spec_put_seen|]. intros _.
  apply spec_seq; [apply sanitizeLabelValue_quiet|]. intros cn.
  apply spec_seq; [apply sanitizeLabelValue_quiet|]. intros issuer.
  apply spec_seq.
  { destruct (_ <? _)%nat; [apply sanitizeLabelValue_quiet | by apply spec_ret]. }
  intros sans.
  apply spec_seq; [|intros _; by apply spec_log].
  destruct (negb dryRun && shouldWriteMetrics env); [|by apply spec_ret].
  destruct (env_config env); [|by apply spec_ret].
  unfold exportMetrics. quiet_steps ltac:(reflexivity).
Qed.

Lemma spec_events {A} (P : Event -> bool) (m : M A) s e :
  spec (fun _ => True) P (fun _ => True) m ->
  e ∈ events (m s) -> P e = true.
Proof.
  intros Hm He. destruct (Hm s I) as (_ & Hes & _).
  rewrite forallb_forall in Hes. apply Hes. by apply list_elem_of_In.
Qed.

(** *** The visit of a candidate file *)

(** A candidate file that is not cached with its current modification
    time and size is read.  An entry is stored exactly when a leaf
    certificate is extracted from it; otherwise the state is left as
    it was. *)
Lemma visit_uncached_run env dirPath hostname dryRun path name info content s :
  is_candidate name = true ->
  cached_as (st_cache s) path info = false ->
  visit env dirPath hostname dryRun path (File name (Some info) content) None s =
    match content with
    | None =>
        ((None : option WalkErr), s,
         [EvMetric (Write_ CertFilesTotal [dirPath] OpInc);
          EvReadFile path;
          EvLog (Log WarnLevel "Read error" path);
          EvMetric (Write_ CertParseErrors [path] OpInc)])
    | Some raw =>
        let pr := parseLeafCertificate raw (strings_ToLower (filepath_Ext name))
                    path dirPath s in
        match retval pr with
        | Err _ =>
            (None, s,
             EvMetric (Write_ CertFilesTotal [dirPath] OpInc) :: EvReadFile path
             :: (events pr ++
                 [EvLog (Log DebugLevel "No valid certificate found in file"
                           path)])%list)
        | Ok leaf =>
            let pc := processCertificate env leaf path dirPath hostname dryRun s in
            (None,
             with_cache (final pc)
               (cache.SetEntryAtomic (st_cache s) path
                  (sha256_Sum256 (Raw leaf)) info),
             EvMetric (Write_ CertFilesTotal [dirPath] OpInc) :: EvReadFile path
             :: (events pr ++ events pc ++ [EvSetEntry path])%list)
        end
    end.
Proof.
  intros Hcand Hnot. unfold visit. cbv zeta.
  unfold is_candidate in Hcand. rewrite Hcand. cbn [negb].
  rewrite run_bind, final_get_cache, retval_get_cache, events_get_cache.
  unfold cache.GetEntryAtomic. unfold cached_as in Hnot.
  assert (Hread : forall s0, s0 = s ->
    (emit (EvReadFile path) ;;
     match content with
     | None =>
         log WarnLevel "Read error" path ;;
         metric CertParseErrors [path] OpInc ;;
         mret (None : option WalkErr)
     | Some raw =>
         r ← parseLeafCertificate raw (strings_ToLower (filepath_Ext name))
               path dirPath;
         match r with
         | Err _ =>
             log DebugLevel "No valid certificate found in file" path ;;
             mret None
         | Ok leafCert =>
             processCertificate env leafCert path dirPath hostname dryRun ;;
             emit (EvSetEntry path) ;;
             c ← get_cache;
             put_cache (cache.SetEntryAtomic c path
                          (sha256_Sum256 (Raw leafCert)) info) ;;
             mret None
         end
     end) s0 =
    match content with
    | None =>
        ((None : option WalkErr), s,
         [EvReadFile path;
          EvLog (Log WarnLevel "Read error" path);
          EvMetric (Write_ CertParseErrors [path] OpInc)])
    | Some raw =>
        let pr := parseLeafCertificate raw (strings_ToLower (filepath_Ext name))
                    path dirPath s in
        match retval pr with
        | Err _ =>
            (None, s,
             EvReadFile path
             :: (events pr ++
                 [EvLog (Log DebugLevel "No valid certificate found in file"
                           path)])%list)
        | Ok leaf =>
            let pc := processCertificate env leaf path dirPath hostname dryRun s in
            (None,
             with_cache (final pc)
               (cache.SetEntryAtomic (st_cache s) path
                  (sha256_Sum256 (Raw leaf)) info),
             EvReadFile path
             :: (events pr ++ events pc ++ [EvSetEntry path])%list)
        end
    end).
  { intros s0 ->. rewrite run_emit_bind.
    destruct content as [raw|].
    - rewrite run_bind, parseLeafCertificate_final. cbv zeta.
      destruct (retval (parseLeafCertificate raw _ path dirPath s))
        as [leaf|msg].
      + rewrite run_bind. rewrite run_emit_bind.
        rewrite run_bind, final_get_cache, retval_get_cache, events_get_cache.
        rewrite run_bind, final_put_cache, events_put_cache.
        rewrite processCertificate_final. cbn [retval final events fst snd].
        rewrite final_ret, events_ret, retval_ret.
        rewrite ?app_nil_l, ?app_nil_r. reflexivity.
      + unfold log. rewrite run_emit_bind.
        cbn [retval final events fst snd].
        rewrite final_ret, events_ret, retval_ret. reflexivity.
    - cbv beta. unfold log, metric. rewrite !run_emit_bind. reflexivity. }
  destruct (cache.data (st_cache s) !! path) as [cached|] eqn:Hd;
    cbv beta iota; rewrite run_bind, final_metric, events_metric;
    cbn [andb]; rewrite ?Hnot; rewrite (Hread s eq_refl);
    destruct content as [raw|]; cbv zeta;
    try destruct (retval (parseLeafCertificate raw _ path dirPath s));
    reflexivity.
Qed.

(** A candidate file that cannot be stat'ed is not read. *)
Lemma visit_stat_error_run env dirPath hostname dryRun path name content s :
  is_candidate name = true ->
  visit env dirPath hostname dryRun path (File name None content) None s =
    (None, s,
     [EvLog (Log WarnLevel "Stat error" path);
      EvMetric (Write_ CertParseErrors [path] OpInc)]).
Proof.
  intros Hcand. unfold visit. cbv zeta.
  unfold is_candidate in Hcand. rewrite Hcand. reflexivity.
Qed.

Lemma decodes_file path e q :
  decodes path e = true -> file_of e = Some q ->
  q = path /\ e <> EvSetEntry q /\ e <> EvReadFile q.
Proof.
  destruct e as [l|w|p|p|p|p]; cbn; try discriminate;
    intros Hp [= <-]; apply String.eqb_eq in Hp; by subst.
Qed.

Lemma quiet_file e : quiet e = true -> file_of e = None.
Proof. by destruct e. Qed.

Section Visit.
Variable env : Env.
Variables (dirPath hostname : string) (dryRun : bool).

(** The file events of the visit of a file that is read are about
    that file. *)
Lemma visit_uncached_about path name info content s e q :
  is_candidate name = true ->
  cached_as (st_cache s) path info = false ->
  e ∈ events (visit env dirPath hostname dryRun path (File name (Some info) content) None s) ->
  file_of e = Some q -> q = path.
Proof.
  intros Hcand Hnot.
  rewrite (visit_uncached_run env dirPath hostname dryRun path name info
             content s Hcand Hnot).
  destruct content as [raw|]; cbv zeta.
  - destruct (retval (parseLeafCertificate raw _ path dirPath s))
      as [leaf|msg] eqn:Hp; cbn [events snd];
      rewrite !elem_of_cons, !elem_of_app;
      intros [->|[->|He]] Hq; try discriminate Hq;
      try (by injection Hq as <-).
    + destruct He as [He|[He|He]].
      * apply (spec_events _ _ _ _ (parseLeafCertificate_decodes _ _ _ _)) in He.
        by destruct (decodes_file _ _ _ He Hq).
      * apply (spec_events _ _ _ _
                 (processCertificate_quiet _ _ _ _ _ _)) in He.
        apply quiet_file in He. congruence.
      * apply list_elem_of_singleton in He as ->. by injection Hq as <-.
    + destruct He as [He|He].
      * apply (spec_events _ _ _ _ (parseLeafCertificate_decodes _ _ _ _)) in He.
        by destruct (decodes_file _ _ _ He Hq).
      * apply list_elem_of_singleton in He as ->. discriminate Hq.
  - cbn [events snd]. rewrite !elem_of_cons, elem_of_nil.
    intros [->|[->|[->|[->|[]]]]] Hq; try discriminate Hq.
    by injection Hq as <-.
Qed.

(** The first visit of a candidate file.  It changes the entry of no
    other path, its file events are about the file, and afterwards
    the file is cached with its modification time and size, unless
    it was read and no leaf certificate was found in it. *)
Lemma visit_first path name stat content s :
  is_candidate name = true ->
  let v := visit env dirPath hostname dryRun path (File name stat content) None s in
  (forall q, q <> path ->
     cache.data (st_cache (final v)) !! q = cache.data (st_cache s) !! q) /\
  (forall e q, e ∈ events v -> file_of e = Some q -> q = path) /\
  (forall info, stat = Some info ->
     cached_as (st_cache (final v)) path info = true \/
     (EvReadFile path ∈ events v /\ (EvSetEntry path ∉ events v) /\
      no_leaf dirPath path name content)).
Proof.
  intros Hcand v. unfold v.
  destruct stat as [info|].
  2:{ rewrite visit_stat_error_run by exact Hcand.
      cbn [final events fst snd]. split; [done|]. split; [|done].
      intros e q. rewrite !elem_of_cons, elem_of_nil.
      by intros [->|[->|[]]]. }
  destruct (cached_as (st_cache s) path info) eqn:Hc.
  { rewrite visit_cached_file by exact Hc. rewrite Hcand.
    cbn [final events fst snd]. split; [done|]. split.
    - intros e q. rewrite !elem_of_cons, elem_of_nil.
      by intros [->|[->|[]]].
    - intros info' [= <-]. by left. }
  split; [|split].
  - rewrite (visit_uncached_run env dirPath hostname dryRun path name info
               content s Hcand Hc).
    destruct content as [raw|]; cbv zeta; [|done].
    destruct (retval (parseLeafCertificate raw _ path dirPath s)); [|done].
    intros q Hq. cbn [final fst snd]. rewrite processCertificate_final.
    cbn. by rewrite lookup_insert_ne.
  - intros e q. by apply visit_uncached_about.
  - intros info' [= <-].
    rewrite (visit_uncached_run env dirPath hostname dryRun path name info
               content s Hcand Hc).
    destruct content as [raw|]; cbv zeta.
    + destruct (retval (parseLeafCertificate raw _ path dirPath s))
        as [leaf|msg] eqn:Hp; cbn [final events fst snd].
      * left. rewrite processCertificate_final. unfold cached_as. cbn.
        rewrite lookup_insert_eq. cbn. by rewrite !Z.eqb_refl.
      * right. split; [|split].
        -- apply list_elem_of_further, list_elem_of_here.
        -- rewrite !elem_of_cons, elem_of_app.
           intros [[=]|[[=]|[He|He]]].
           ++ apply (spec_events _ _ _ _
                       (parseLeafCertificate_decodes _ _ _ _)) in He.
              discriminate He.
           ++ apply list_elem_of_singleton in He. discriminate He.
        -- intros s'. exists msg.
           by rewrite (parseLeafCertificate_retval_state _ _ _ _ s' s).
    + right. cbn [events snd]. split; [|split; [|done]].
      * apply list_elem_of_further, list_elem_of_here.
      * rewrite !elem_of_cons, elem_of_nil.
        by intros [[=]|[[=]|[[=]|[[=]|[]]]]].
Qed.

(** The visit of a candidate file that is cached with its
    modification time and size, or in which no leaf certificate is
    found: the state is left as it was, no entry is stored, and the
    file is touched only when it is not cached. *)
Lemma visit_second path name stat content s :
  is_candidate name = true ->
  (forall info, stat = Some info ->
     cached_as (st_cache s) path info = true \/
     no_leaf dirPath path name content) ->
  let v := visit env dirPath hostname dryRun path (File name stat content) None s in
  final v = s /\
  (forall e q, e ∈ events v -> file_of e = Some q ->
     q = path /\ e <> EvSetEntry q /\
     exists info, stat = Some info /\
                  cached_as (st_cache s) path info = false).
Proof.
  intros Hcand Hsettled v. unfold v.
  destruct stat as [info|].
  2:{ rewrite visit_stat_error_run by exact Hcand.
      cbn [final events fst snd]. split; [done|].
      intros e q. rewrite !elem_of_cons, elem_of_nil.
      by intros [->|[->|[]]]. }
  destruct (cached_as (st_cache s) path info) eqn:Hc.
  { rewrite visit_cached_file by exact Hc. rewrite Hcand.
    cbn [final events fst snd]. split; [done|].
    intros e q. rewrite !elem_of_cons, elem_of_nil.
    by intros [->|[->|[]]]. }
  destruct (Hsettled info eq_refl) as [Hcached|Hno]; [congruence|].
  assert (Hrun := visit_uncached_run env dirPath hostname dryRun path name
                    info content s Hcand Hc).
  assert (Habout := fun e q =>
            visit_uncached_about path name info content s e q Hcand Hc).
  unfold no_leaf in Hno.
  destruct content as [raw|]; cbv zeta in Hrun.
  - destruct (Hno s) as [msg Hmsg]. rewrite Hmsg in Hrun.
    split; [by rewrite Hrun|].
    intros e q He Hq. split; [by apply (Habout e q)|].
    split; [|by exists info].
    intros ->. rewrite Hrun in He. cbn [events snd] in He.
    rewrite !elem_of_cons, elem_of_app in He.
    destruct He as [[=]|[[=]|[He|He]]].
    + apply (spec_events _ _ _ _
               (parseLeafCertificate_decodes _ _ _ _)) in He.
      discriminate He.
    + apply list_elem_of_singleton in He. discriminate He.
  - split; [by rewrite Hrun|].
    intros e q He Hq. split; [by apply (Habout e q)|].
    split; [|by exists info].
    intros ->. rewrite Hrun in He. cbn [events snd] in He.
    rewrite !elem_of_cons, elem_of_nil in He.
    by destruct He as [[=]|[[=]|[[=]|[[=]|[]]]]].
Qed.

End Visit.

Section Walk.
Variable env : Env.
Variables (dirPath hostname : string) (dryRun : bool).

Lemma final_visits_cons path d l s :
  final (visits env dirPath hostname dryRun ((path, d) :: l) s) =
  final (visits env dirPath hostname dryRun l
           (final (visit env dirPath hostname dryRun path d None s))).
Proof. cbn [visits]. by rewrite final_bind. Qed.

Lemma events_visits_cons path d l s :
  events (visits env dirPath hostname dryRun ((path, d) :: l) s) =
  (events (visit env dirPath hostname dryRun path d None s) ++
   events (visits env dirPath hostname dryRun l
             (final (visit env dirPath hostname dryRun path d None s))))%list.
Proof. cbn [visits]. by rewrite events_bind. Qed.

Lemma visits_app l1 : forall l2 s,
  let v1 := visits env dirPath hostname dryRun l1 s in
  let v2 := visits env dirPath hostname dryRun l2 (final v1) in
  final (visits env dirPath hostname dryRun (l1 ++ l2) s) = final v2 /\
  events (visits env dirPath hostname dryRun (l1 ++ l2) s) =
    (events v1 ++ events v2)%list.
Proof.
  induction l1 as [|[p d] l1 IH]; intros l2 s; cbv zeta.
  - by rewrite app_nil_l.
  - rewrite <-app_comm_cons.
    rewrite !final_visits_cons, !events_visits_cons.
    destruct (IH l2 (final (visit env dirPath hostname dryRun p d None s)))
      as [-> ->].
    by rewrite app_assoc.
Qed.

(** The first pass over a list of candidate files with distinct
    paths. *)
Lemma visits_first l : forall s,
  Forall (fun pd : string * Node =>
            exists name stat content,
              pd.2 = File name stat content /\ is_candidate name = true) l ->
  NoDup l.*1 ->
  let v := visits env dirPath hostname dryRun l s in
  (forall q, q ∉ l.*1 ->
     cache.data (st_cache (final v)) !! q = cache.data (st_cache s) !! q) /\
  (forall e q, e ∈ events v -> file_of e = Some q -> q ∈ l.*1) /\
  (forall p name info content,
     (p, File name (Some info) content) ∈ l ->
     cached_as (st_cache (final v)) p info = true \/
     (EvReadFile p ∈ events v /\ (EvSetEntry p ∉ events v) /\
      no_leaf dirPath p name content)).
Proof.
  induction l as [|[p0 d0] l IH]; intros s Hfiles Hnd v.
  - split; [done|]. split.
    + intros e q He. by apply elem_of_nil in He.
    + intros p name info content Hin. by apply elem_of_nil in Hin.
  - apply Forall_cons in Hfiles
      as [(name0 & stat0 & content0 & Hd0 & Hcand0) Hfiles].
    cbn in Hd0. subst d0.
    rewrite fmap_cons in Hnd. apply NoDup_cons in Hnd as [Hp0 Hnd].
    cbn [fst] in Hp0.
    destruct (visit_first env dirPath hostname dryRun p0 name0 stat0
                content0 s Hcand0) as (Hframe0 & Habout0 & Hset0).
    set (v0 := visit env dirPath hostname dryRun p0
                 (File name0 stat0 content0) None s) in *.
    destruct (IH (final v0) Hfiles Hnd) as (Hframe & Habout & Hset).
    unfold v. rewrite final_visits_cons, events_visits_cons. fold v0.
    set (vl := visits env dirPath hostname dryRun l (final v0)) in *.
    rewrite fmap_cons. cbn [fst].
    split; [|split].
    + intros q [Hne Hq]%not_elem_of_cons.
      by rewrite (Hframe q Hq), (Hframe0 q Hne).
    + intros e q [He|He]%elem_of_app Hq.
      * rewrite (Habout0 e q He Hq). apply list_elem_of_here.
      * apply list_elem_of_further. by apply (Habout e q).
    + intros p name info content [Hin|Hin]%elem_of_cons.
      * injection Hin as -> -> <- ->.
        destruct (Hset0 info eq_refl) as [Hc|(Hr & Hns & Hnl)].
        -- left. unfold cached_as in *. by rewrite (Hframe p0 Hp0).
        -- right. split; [|split; [|exact Hnl]].
           ++ apply elem_of_app. by left.
           ++ intros [He|He]%elem_of_app; [by apply Hns|].
              by apply Hp0, (Habout _ _ He).
      * assert (Hp : p ∈ l.*1).
        { apply list_elem_of_fmap. by exists (p, File name (Some info) content). }
        destruct (Hset p name info content Hin) as [Hc|(Hr & Hns & Hnl)];
          [by left|right].
        split; [|split; [|exact Hnl]].
        -- apply elem_of_app. by right.
        -- intros [He|He]%elem_of_app; [|by apply Hns].
           apply Hp0. by rewrite <-(Habout0 _ p He eq_refl).
Qed.

(** A pass over candidate files each of which is cached with its
    modification time and size, or holds no leaf certificate. *)
Lemma visits_second l : forall s,
  Forall (fun pd : string * Node =>
            exists name stat content,
              pd.2 = File name stat content /\ is_candidate name = true) l ->
  (forall p name info content,
     (p, File name (Some info) content) ∈ l ->
     cached_as (st_cache s) p info = true \/
     no_leaf dirPath p name content) ->
  let v := visits env dirPath hostname dryRun l s in
  final v = s /\
  (forall e q, e ∈ events v -> file_of e = Some q ->
     e <> EvSetEntry q /\
     exists name info content,
       (q, File name (Some info) content) ∈ l /\
       cached_as (st_cache s) q info = false).
Proof.
  induction l as [|[p0 d0] l IH]; intros s Hfiles Hsettled v.
  - split; [done|]. intros e q He. by apply elem_of_nil in He.
  - apply Forall_cons in Hfiles
      as [(name0 & stat0 & content0 & Hd0 & Hcand0) Hfiles].
    cbn in Hd0. subst d0.
    destruct (visit_second env dirPath hostname dryRun p0 name0 stat0
                content0 s Hcand0) as (Hfinal0 & Hev0).
    { intros info ->. apply (Hsettled p0 name0 info content0).
      apply list_elem_of_here. }
    destruct (IH s Hfiles) as (Hfinal & Hev).
    { intros p name info content Hin. apply (Hsettled p name info content).
      by apply list_elem_of_further. }
    unfold v. rewrite final_visits_cons, events_visits_cons, Hfinal0.
    split; [exact Hfinal|].
    intros e q [He|He]%elem_of_app Hq.
    + destruct (Hev0 e q He Hq) as (-> & Hne & info & -> & Hc).
      split; [exact Hne|]. exists name0, info, content0.
      split; [apply list_elem_of_here|exact Hc].
    + destruct (Hev e q He Hq) as (Hne & name & info & content & Hin & Hc).
      split; [exact Hne|]. exists name, info, content.
      split; [by apply list_elem_of_further|exact Hc].
Qed.

Lemma candidates_files d : forall path,
  Forall (fun pd : string * Node =>
            exists name stat content,
              pd.2 = File name stat content /\ is_candidate name = true)
    (candidates path d).
Proof.
  induction d as [name stat content|name ok entries IH] using Node_ind_entries;
    intros path; cbn [candidates].
  - destruct (is_candidate name) eqn:Hcand; [|constructor].
    constructor; [|constructor]. by exists name, stat, content.
  - destruct (is_skipped_name name); [constructor|].
    induction IH as [|d1 entries Hd1 _ IHentries]; [constructor|].
    cbn [map concat]. apply Forall_app. split; [apply Hd1|exact IHentries].
Qed.

(** The walk is the sequence of the visits of the candidate files it
    reaches, as far as the state and the file events go: what else
    it visits changes nothing and touches no file. *)
Lemma walk_entries_candidates path entries :
  Forall (fun d1 => forall path s,
    let w := walkDir (visit env dirPath hostname dryRun) path d1 s in
    let v := visits env dirPath hostname dryRun (candidates path d1) s in
    retval w = None /\ final w = final v /\
    List.filter touches_file (events w) = List.filter touches_file (events v))
    entries ->
  forall s,
    let w := walk_entries (walkDir (visit env dirPath hostname dryRun))
               path entries s in
    let v := visits env dirPath hostname dryRun
               (concat (map (fun d1 =>
                               candidates (filepath_Join path (node_Name d1)) d1)
                            entries)) s in
    retval w = None /\ final w = final v /\
    List.filter touches_file (events w) = List.filter touches_file (events v).
Proof.
  induction 1 as [|d1 entries Hd1 _ IH]; intros s; cbv zeta;
    cbn [walk_entries map concat];
    [split; [reflexivity|split; reflexivity]|].
  destruct (Hd1 (filepath_Join path (node_Name d1)) s) as (Hr1 & Hf1 & He1).
  rewrite run_bind, Hr1. cbn [retval final events fst snd].
  destruct (visits_app (candidates (filepath_Join path (node_Name d1)) d1)
              (concat (map (fun d1 =>
                              candidates (filepath_Join path (node_Name d1)) d1)
                           entries)) s) as [-> ->].
  rewrite <-Hf1.
  destruct (IH (final (walkDir (visit env dirPath hostname dryRun)
                         (filepath_Join path (node_Name d1)) d1 s)))
    as (Hr & Hf & He).
  split; [exact Hr|]. split; [exact Hf|].
  by rewrite !List.filter_app, He1, He.
Qed.

Lemma walkDir_candidates d : forall path s,
  let w := walkDir (visit env dirPath hostname dryRun) path d s in
  let v := visits env dirPath hostname dryRun (candidates path d) s in
  retval w = None /\ final w = final v /\
  List.filter touches_file (events w) = List.filter touches_file (events v).
Proof.
  induction d as [name stat content|name ok entries IH] using Node_ind_entries;
    intros path s; cbv zeta; cbn [walkDir candidates].
  - rewrite run_bind, visit_retval_file.
    cbn [retval final events fst snd]. rewrite app_nil_r.
    destruct (is_candidate name) eqn:Hcand.
    + cbn [visits]. rewrite run_bind. cbn [retval final events fst snd].
      by rewrite app_nil_r.
    + unfold visit. cbv zeta. unfold is_candidate in Hcand. by rewrite Hcand.
  - assert (Hv :
      visit env dirPath hostname dryRun path (Dir name ok entries) None s =
        if is_skipped_name name
        then (Some SkipDir, s,
              [EvLog (Log InfoLevel "Skipping subdirectory" path)])
        else (None, s, []))
      by (unfold visit; by destruct (is_skipped_name name)).
    rewrite run_bind, Hv.
    destruct (is_skipped_name name) eqn:Hskip;
      cbn [retval final events fst snd].
    + by cbn.
    + rewrite app_nil_l.
      assert (Hsecond :
        (if ok then mret None
         else visit env dirPath hostname dryRun path (Dir name ok entries)
                (Some "readdir error")) s
        = ((None : option WalkErr), s, [])) by (by destruct ok).
      rewrite run_bind, Hsecond. cbn [retval final events fst snd].
      rewrite app_nil_l.
      by apply walk_entries_candidates.
Qed.

Lemma WalkDir_candidates root d s :
  let w := WalkDir (visit env dirPath hostname dryRun) root d s in
  let v := visits env dirPath hostname dryRun (candidates root d) s in
  retval w = None /\ final w = final v /\
  List.filter touches_file (events w) = List.filter touches_file (events v).
Proof.
  cbv zeta. unfold WalkDir.
  destruct (walkDir_candidates d root s) as (Hr & Hf & He).
  rewrite run_bind, Hr. cbn [retval final events fst snd].
  by rewrite app_nil_r.
Qed.

End Walk.

(** *** The scan of a directory, as far as files go *)

Lemma file_of_touches e p : file_of e = Some p -> touches_file e = true.
Proof. by destruct e. Qed.

Lemma touches_file_of e : touches_file e = true -> exists p, file_of e = Some p.
Proof. destruct e as [l|w|p|p|p|p]; try discriminate; by exists p. Qed.

Lemma filter_touches_elem es1 es2 e :
  List.filter touches_file es1 = List.filter touches_file es2 ->
  touches_file e = true -> e ∈ es1 -> e ∈ es2.
Proof.
  intros Heq Ht He. apply list_elem_of_In.
  apply (proj1 (filter_In touches_file e es2)). rewrite <-Heq.
  apply filter_In. split; [by apply list_elem_of_In|exact Ht].
Qed.

Lemma filter_touches_logs (lines : list LogEntry) :
  List.filter touches_file (EvLog <$> lines) = [].
Proof. induction lines as [|l lines IH]; [done|]. by rewrite fmap_cons. Qed.

Lemma filter_touches_notice env dirPath dryRun :
  List.filter touches_file (dry_run_notice env dirPath dryRun) = [].
Proof.
  unfold dry_run_notice. by destruct (negb dryRun && negb (shouldWriteMetrics env)).
Qed.

(** A scan that does not walk touches no file and leaves the cache
    alone. *)
Lemma ProcessDirectory_not_walked env dirPath dryRun s :
  stat_is_dir (env_fs env dirPath) = false ->
  let r := ProcessDirectory env dirPath dryRun s in
  st_cache (final r) = st_cache s /\
  List.filter touches_file (events r) = [].
Proof.
  intros Hstat r. unfold r.
  destruct ((shouldSkipScan (env_now env) dirPath (st_backoff s)).1.1) eqn:Hskip.
  - rewrite (ProcessDirectory_run_skipped env dirPath dryRun s Hskip).
    cbn [final events fst snd]. split; [done|].
    by rewrite List.filter_app, filter_touches_notice.
  - rewrite (ProcessDirectory_run_not_a_directory env dirPath dryRun s
               Hskip Hstat).
    cbn [final events fst snd]. split; [done|].
    by rewrite !List.filter_app, filter_touches_notice, filter_touches_logs.
Qed.

(** The scan of a directory is, as far as the cache and the file
    events go, the sequence of the visits of the candidate files the
    walk reaches; it leaves no deadline for the directory. *)
Lemma ProcessDirectory_walked env dirPath dryRun root s :
  (forall t, st_backoff s !! dirPath = Some t -> t <= env_now env) ->
  env_fs env dirPath = Some root ->
  stat_is_dir (Some root) = true ->
  let r := ProcessDirectory env dirPath dryRun s in
  let v := visits env dirPath (env_hostname env) dryRun
             (candidates dirPath root)
             (with_seen (with_backoff s (delete dirPath (st_backoff s))) ∅) in
  final r = final v /\
  List.filter touches_file (events r) = List.filter touches_file (events v) /\
  st_backoff (final r) !! dirPath = None.
Proof.
  intros Hb Hroot Hdir r v.
  assert (Hskip : (shouldSkipScan (env_now env) dirPath (st_backoff s)).1.1 = false).
  { apply not_true_is_false. rewrite shouldSkipScan_true.
    intros (t & Ht & Hlt). specialize (Hb _ Ht). lia. }
  destruct (ProcessDirectory_run_directory env dirPath dryRun root s
              Hskip Hroot Hdir) as (_ & _ & Hfinal & Hevents).
  fold r in Hfinal, Hevents.
  destruct (WalkDir_candidates env dirPath (env_hostname env) dryRun dirPath root
              (with_seen (with_backoff s (delete dirPath (st_backoff s))) ∅))
    as (_ & Hf & He).
  fold v in Hf, He.
  split; [by rewrite Hfinal|]. split.
  - rewrite Hevents, !List.filter_app.
    rewrite filter_touches_notice, filter_touches_logs, He.
    rewrite !app_nil_l.
    destruct (negb dryRun && shouldWriteMetrics env); by rewrite app_nil_r.
  - rewrite Hfinal.
    destruct (WalkDir_visit_inv env
                (fun s' => st_backoff s' = delete dirPath (st_backoff s))
                dirPath (env_hostname env) dryRun) with
      (root := dirPath) (d := root)
      (s := with_seen (with_backoff s (delete dirPath (st_backoff s))) ∅)
      as (Hq & _).
    + intros s' leaf raw ext path n info _ Hs'. exact Hs'.
    + reflexivity.
    + rewrite Hq. apply lookup_delete_eq.
Qed.


End SecondPass.


(** X11, witness: the first visit of the certificate of the fixtures. *)
Lemma visit_then_revisit_witness :
  scanner.retval
    (@scanner.visit AsciiStrings.instance Fixtures.toy_crypto
       (Fixtures.env_of false Fixtures.tree_one) "/certs" "node1" false
       "/certs/a.pem" (File "a.pem" (Some Fixtures.info_a) (Some "Ca")) None
       Fixtures.state0) = None.
Proof.
  refine (proj1 (@visit_then_revisit AsciiStrings.instance Fixtures.toy_crypto
                   (Fixtures.env_of false Fixtures.tree_one)
                   "/certs" "node1" "/certs/a.pem" "a.pem" "Ca" false
                   Fixtures.info_a Fixtures.state0 _ _)).
  - vm_compute. reflexivity.
  - vm_compute. reflexivity.
Defined.

(** X12, witness: the directory of the fixtures with a deadline ten days
    ahead. *)
Lemma ProcessDirectory_backed_off_witness :
  let s := scanner.with_backoff Fixtures.state0 {[ "/certs" := Fixtures.t2024 ]} in
  scanner.final
    (@scanner.ProcessDirectory AsciiStrings.instance Fixtures.toy_crypto
       (Fixtures.env_of false Fixtures.tree_certs) "/certs" false s) = s.
Proof.
  intros s.
  refine (proj1 (proj2 (@ProcessDirectory_backed_off AsciiStrings.instance
                          Fixtures.toy_crypto
                          (Fixtures.env_of false Fixtures.tree_certs)
                          "/certs" false s Fixtures.t2024 _ _))).
  - apply lookup_singleton_eq.
  - vm_compute. reflexivity.
Defined.


(** X14, witness: the directory of the fixtures. *)
Lemma ProcessDirectory_directory_witness :
  scanner.st_backoff
    (scanner.final
       (@scanner.ProcessDirectory AsciiStrings.instance Fixtures.toy_crypto
          (Fixtures.env_of false Fixtures.tree_certs) "/certs" false
          Fixtures.state0)) = delete "/certs" ∅.
Proof.
  refine (proj1 (proj2 (proj2
            (@ProcessDirectory_directory AsciiStrings.instance
               Fixtures.toy_crypto
               (Fixtures.env_of false Fixtures.tree_certs)
               "/certs" false Fixtures.tree_certs Fixtures.state0 _ _ _)))).
  - intros t Ht. cbn in Ht. rewrite lookup_empty in Ht. discriminate Ht.
  - reflexivity.
  - reflexivity.
Defined.

(** X15, witness: the one key of the map returned for the directory that
    holds one certificate. *)
Lemma ProcessDirectory_duplicate_keys_witness :
  let key := fmt_hex (vec_to_list (Fixtures.toy_Sum256 "a")) in
  String.length key = 64%nat.
Proof.
  intros key.
  refine (proj1 (proj2 (@ProcessDirectory_duplicate_keys AsciiStrings.instance
                          Fixtures.toy_crypto
                          (Fixtures.env_of false Fixtures.tree_one)
                          "/certs" false Fixtures.state0 {[ key := 1 ]} key _ _))).
  - vm_compute. reflexivity.
  - rewrite lookup_singleton_eq. by eexists.
Defined.

(** X17, witness: the directory of the fixtures and what a scan looks at
    of it. *)
Lemma ProcessDirectory_scanned_witness :
  let env := Fixtures.env_of false Fixtures.tree_certs in
  let root' := @scanner.scanned AsciiStrings.instance Fixtures.tree_certs in
  @scanner.ProcessDirectory AsciiStrings.instance Fixtures.toy_crypto
    (scanner.with_fs env (fun _ => Some root')) "/certs" false Fixtures.state0 =
  @scanner.ProcessDirectory AsciiStrings.instance Fixtures.toy_crypto
    env "/certs" false Fixtures.state0.
Proof.
  intros env root'.
  refine (@ProcessDirectory_scanned AsciiStrings.instance Fixtures.toy_crypto
            env (fun _ => Some root') "/certs" false
            Fixtures.tree_certs root' Fixtures.state0 _ _ _ _ _).
  - reflexivity.
  - reflexivity.
  - reflexivity.
  - reflexivity.
  - vm_compute. reflexivity.
Defined.

(** ** internal/watcher: the set of watched directories *)

Section RangeDeleteLog.
Context {A : Type}.
Variable P : string -> bool.
Variable line : string -> LogEntry.
Variable step :
  gmap string A * list LogEntry -> string -> gmap string A * list LogEntry.
Hypothesis step_eq : forall acc k,
  step acc k =
    if P k then (delete k acc.1, (acc.2 ++ [line k])%list) else acc.

Lemma step_delete acc k :
  (step acc k).1 = if P k then delete k acc.1 else acc.1.
Proof. rewrite step_eq. by destruct (P k). Qed.

Lemma foldl_log_lines keys : forall acc,
  (foldl step acc keys).2 = (acc.2 ++ (line <$> List.filter P keys))%list.
Proof.
  induction keys as [|k keys IH]; intros acc; cbn [foldl List.filter].
  - cbn. by rewrite app_nil_r.
  - rewrite IH, step_eq. destruct (P k); cbn [snd fmap list_fmap]; [|done].
    by rewrite <-app_assoc.
Qed.

(** The loop over the keys of the map itself. *)
Lemma range_delete_log (m : gmap string A) :
  let r := foldl step (m, []) (map_to_list m).*1 in
  (forall p, r.1 !! p = if P p then None else m !! p) /\
  r.2 = line <$> List.filter P (map_to_list m).*1 /\
  (forall k, k ∈ List.filter P (map_to_list m).*1 <->
             P k = true /\ is_Some (m !! k)).
Proof.
  intros r. split; [|split].
  - intros p. unfold r. apply (foldl_delete_keys step P step_delete).
  - unfold r. by rewrite foldl_log_lines.
  - intros k. rewrite list_elem_of_In, filter_In, <-list_elem_of_In.
    rewrite list_elem_of_fmap. split.
    + intros [([k' x] & -> & Hin%elem_of_map_to_list) Hk]. split; [done|].
      by exists x.
    + intros [Hk [x Hx]]. split; [|done]. exists (k, x).
      split; [done|]. by apply elem_of_map_to_list.
Qed.

(** When no key of the map satisfies [P], the loop does nothing. *)
Lemma range_delete_log_none (m : gmap string A) :
  (forall k, is_Some (m !! k) -> P k = false) ->
  foldl step (m, []) (map_to_list m).*1 = (m, []).
Proof.
  intros Hnone.
  destruct (range_delete_log m) as (Hlookup & Hlines & Hkeys).
  destruct (foldl step (m, []) (map_to_list m).*1) as [m' lines].
  cbn [fst snd] in *. f_equal.
  - apply map_eq. intros p. rewrite Hlookup.
    destruct (P p) eqn:Hp; [|done].
    destruct (m !! p) as [x|] eqn:Hx; [|done].
    rewrite Hnone in Hp by (by exists x). discriminate.
  - rewrite Hlines.
    rewrite (elem_of_nil_inv (List.filter P (map_to_list m).*1)); [done|].
    intros k [Hk Hsome]%Hkeys. rewrite Hnone in Hk by done. discriminate.
Qed.

End RangeDeleteLog.

Lemma prefix_app (s t : string) : String.prefix s (s ++ t)%string = true.
Proof.
  induction s as [|c s IH]; [by destruct t|].
  change (String c s ++ t)%string with (String c (s ++ t)%string). cbn.
  destruct (ascii_dec c c); [exact IH|done].
Qed.

Section WatchedDirs.
Import watcher.

Lemma remove_step_eq env dirPath acc k :
  remove_step env dirPath acc k =
    if String.prefix dirPath k
    then (delete k acc.1,
          (acc.2 ++
           [if fsnotify_Remove env k
            then Log DebugLevel "Removed directory from watcher" k
            else Log DebugLevel "Failed to remove directory from watcher" k])%list)
    else acc.
Proof. reflexivity. Qed.

Lemma cleanup_step_eq env acc k :
  cleanup_step env acc k =
    if is_not_exist (os_Stat env k)
    then (delete k acc.1,
          (acc.2 ++
           [if fsnotify_Remove env k
            then Log DebugLevel "Removed stale directory from watcher" k
            else Log WarnLevel "Failed to remove stale watcher" k])%list)
    else acc.
Proof. reflexivity. Qed.

Lemma removeDirectoryFromWatcher_lookup env dirPath (m : gmap string bool) p :
  (removeDirectoryFromWatcher env dirPath m).1.2 !! p =
    if String.prefix dirPath p then None else m !! p.
Proof.
  pose proof (range_delete_log (String.prefix dirPath) _ _
                (remove_step_eq env dirPath) m) as (Hlookup & _).
  unfold removeDirectoryFromWatcher.
  destruct (foldl _ _ _) as [m' lines]. apply Hlookup.
Qed.

Lemma cleanupStaleWatchers_lookup env (m : gmap string bool) p :
  (cleanupStaleWatchers env m).1.2 !! p =
    if is_not_exist (os_Stat env p) then None else m !! p.
Proof.
  pose proof (range_delete_log (fun k => is_not_exist (os_Stat env k)) _ _
                (cleanup_step_eq env) m) as (Hlookup & _).
  unfold cleanupStaleWatchers.
  destruct (foldl _ _ _) as [m' lines]. apply Hlookup.
Qed.

(** X18.  [removeDirectoryFromWatcher] forgets exactly the watched
    paths that start with the given path as a string, whether or not
    [fsnotify] could remove them, and keeps the others as they are.
    These are the directory itself and what is below it, and also any
    other path the directory's path is a prefix of, such as a sibling
    with a longer name.  One line is logged per forgotten path. *)
Theorem removeDirectoryFromWatcher_spec (env : Env) (dirPath : string)
  (m : gmap string bool) :
  let r := removeDirectoryFromWatcher env dirPath m in
  (forall p, r.1.2 !! p = if String.prefix dirPath p then None else m !! p) /\
  (forall suffix, r.1.2 !! (dirPath ++ suffix)%string = None) /\
  (forall l, l ∈ r.2 ->
     exists p, String.prefix dirPath p = true /\ is_Some (m !! p) /\
               log_subject l = p /\ log_level l = DebugLevel) /\
  (length r.2 + size r.1.2 = size m)%nat /\
  removeDirectoryFromWatcher env dirPath r.1.2 = (tt, r.1.2, []).
Proof.
  intros r.
  pose proof (range_delete_log (String.prefix dirPath) _ _
                (remove_step_eq env dirPath) m) as (Hlookup & Hlines & Hkeys).
  assert (Hr : r = (tt, (foldl (remove_step env dirPath) (m, [])
                           (map_to_list m).*1).1,
                    (foldl (remove_step env dirPath) (m, [])
                           (map_to_list m).*1).2)).
  { unfold r, removeDirectoryFromWatcher.
    by destruct (foldl _ _ _) as [m' lines]. }
  rewrite Hr. cbn [fst snd].
  set (m' := (foldl (remove_step env dirPath) (m, []) (map_to_list m).*1).1) in *.
  split; [exact Hlookup|]. split; [|split; [|split]].
  - intros suffix. by rewrite Hlookup, prefix_app.
  - intros l. rewrite Hlines. intros (p & -> & Hp)%list_elem_of_fmap.
    apply Hkeys in Hp as [Hp Hsome]. exists p.
    split; [done|]. split; [done|]. by destruct (fsnotify_Remove env p).
  - rewrite Hlines, length_fmap.
    assert (Hsplit : forall keys : list string,
      (length (List.filter (String.prefix dirPath) keys) +
       length (List.filter (fun k => negb (String.prefix dirPath k)) keys)
       = length keys)%nat).
    { induction keys as [|k keys IH]; [done|]. cbn.
      destruct (String.prefix dirPath k); cbn; lia. }
    rewrite <-(length_map_to_list m), <-(length_fmap fst (map_to_list m)).
    rewrite <-(Hsplit (map_to_list m).*1). f_equal.
    rewrite <-(length_map_to_list m'), <-(length_fmap fst (map_to_list m')).
    apply Permutation_length. apply NoDup_Permutation.
    + apply NoDup_fst_map_to_list.
    + apply NoDup_ListNoDup, List.NoDup_filter, NoDup_ListNoDup,
        NoDup_fst_map_to_list.
    + intros p. split.
      * intros ([p' x] & -> & Hin%elem_of_map_to_list)%list_elem_of_fmap. cbn.
        apply list_elem_of_In, filter_In. rewrite Hlookup in Hin.
        destruct (String.prefix dirPath p') eqn:Hp; [done|].
        split; [|done]. apply list_elem_of_In, list_elem_of_fmap.
        exists (p', x). split; [done|]. by apply elem_of_map_to_list.
      * intros [Hin Hp]%list_elem_of_In%filter_In.
        apply list_elem_of_In, list_elem_of_fmap in Hin
          as ([p' x] & -> & Hin%elem_of_map_to_list).
        cbn in Hp. apply list_elem_of_fmap. exists (p', x). split; [done|].
        apply elem_of_map_to_list. rewrite Hlookup.
        by destruct (String.prefix dirPath p').
  - unfold removeDirectoryFromWatcher.
    rewrite (range_delete_log_none (String.prefix dirPath) _ _
               (remove_step_eq env dirPath)); [done|].
    intros k [x Hx]. rewrite Hlookup in Hx.
    by destruct (String.prefix dirPath k).
Qed.

(** X19.  [cleanupStaleWatchers] forgets exactly the watched paths for
    which [os.Stat] reports that nothing exists, whether or not
    [fsnotify] could remove them; a path whose stat fails in another way
    stays watched.  One line is logged per forgotten path, and a second
    cleanup right away does nothing. *)
Theorem cleanupStaleWatchers_spec (env : Env) (m : gmap string bool) :
  let r := cleanupStaleWatchers env m in
  (forall p, r.1.2 !! p =
     if is_not_exist (os_Stat env p) then None else m !! p) /\
  (forall p, os_Stat env p = StatFailed -> r.1.2 !! p = m !! p) /\
  (forall l, l ∈ r.2 ->
     exists p, os_Stat env p = StatNotExist /\ is_Some (m !! p) /\
               log_subject l = p) /\
  cleanupStaleWatchers env r.1.2 = (tt, r.1.2, []).
Proof.
  intros r.
  pose proof (range_delete_log (fun k => is_not_exist (os_Stat env k)) _ _
                (cleanup_step_eq env) m) as (Hlookup & Hlines & Hkeys).
  assert (Hr : r = (tt, (foldl (cleanup_step env) (m, []) (map_to_list m).*1).1,
                    (foldl (cleanup_step env) (m, []) (map_to_list m).*1).2)).
  { unfold r, cleanupStaleWatchers. by destruct (foldl _ _ _) as [m' lines]. }
  rewrite Hr. cbn [fst snd].
  split; [exact Hlookup|]. split; [|split].
  - intros p Hp. by rewrite Hlookup, Hp.
  - intros l. rewrite Hlines. intros (p & -> & Hp)%list_elem_of_fmap.
    apply Hkeys in Hp as [Hp Hsome]. exists p.
    split; [by destruct (os_Stat env p)|]. split; [done|].
    by destruct (fsnotify_Remove env p).
  - unfold cleanupStaleWatchers.
    rewrite (range_delete_log_none (fun k => is_not_exist (os_Stat env k)) _ _
               (cleanup_step_eq env)); [done|].
    intros k [x Hx]. rewrite Hlookup in Hx.
    by destruct (is_not_exist (os_Stat env k)).
Qed.

End WatchedDirs.

(** ** internal/watcher: events and the registration of directories *)

Lemma land_submask (a mask b : Z) :
  Z.land a mask = 0 -> Z.land mask b = b -> Z.land a b = 0.
Proof.
  intros Ha Hb. by rewrite <-Hb, Z.land_assoc, Ha, Z.land_0_l.
Qed.

Section WatcherRuns.
Import watcher.

Lemma wrun_bind {A B} (x : W A) (k : A -> W B) m :
  (x ≫= k) m =
    ((k (x m).1.1 (x m).1.2).1.1, (k (x m).1.1 (x m).1.2).1.2,
     ((x m).2 ++ (k (x m).1.1 (x m).1.2).2)%list).
Proof.
  unfold mbind, W_bind. destruct (x m) as [[a m1] l1]. cbn.
  by destruct (k a m1) as [[b m2] l2].
Qed.

Lemma wbind_val {A B} (x : W A) (k : A -> W B) m :
  ((x ≫= k) m).1.1 = (k (x m).1.1 (x m).1.2).1.1.
Proof. by rewrite wrun_bind. Qed.

Lemma wbind_map {A B} (x : W A) (k : A -> W B) m :
  ((x ≫= k) m).1.2 = (k (x m).1.1 (x m).1.2).1.2.
Proof. by rewrite wrun_bind. Qed.

(** X20.  One file-system event.  A reload is triggered exactly when
    the event has one of the operations Create, Write, Remove and
    Rename; an event without any of them, such as a Chmod alone, changes
    nothing and logs nothing.  Only an event with Remove can change the
    set of watched directories, and then only by forgetting paths that
    start with the event's path: all of them when the path is gone or
    is a directory, none when it is another file or its stat fails
    otherwise. *)
Theorem handleEvent_spec (env : Env) (ev : FsEvent) (m : gmap string bool) :
  let r := handleEvent env ev m in
  (r.1.1 = false -> r = (false, m, [])) /\
  (Z.land (ev_Op ev) Create <> 0 \/ Z.land (ev_Op ev) Write <> 0 \/
   Z.land (ev_Op ev) Remove <> 0 \/ Z.land (ev_Op ev) Rename <> 0 ->
   r.1.1 = true) /\
  (ev_Op ev = Chmod -> r = (false, m, [])) /\
  (Z.land (ev_Op ev) Remove = 0 -> r.1.2 = m) /\
  (forall p, r.1.2 !! p = m !! p \/
             (r.1.2 !! p = None /\ String.prefix (ev_Name ev) p = true)) /\
  (Z.land (ev_Op ev) Remove <> 0 ->
   os_Stat env (ev_Name ev) = StatNotExist ->
   forall p, r.1.2 !! p =
     if String.prefix (ev_Name ev) p then None else m !! p).
Proof.
  intros r.
  set (mask := Z.lor (Z.lor (Z.lor Create Write) Remove) Rename).
  assert (Hnone : Z.land (ev_Op ev) mask = 0 -> r = (false, m, [])).
  { intros Hmask. unfold r, handleEvent. fold mask.
    rewrite (land_submask _ mask Remove Hmask eq_refl), Hmask. reflexivity. }
  assert (Hval : r.1.1 = negb (Z.land (ev_Op ev) mask =? 0)).
  { unfold r, handleEvent. fold mask. rewrite wbind_val.
    by destruct (negb (Z.land (ev_Op ev) mask =? 0)). }
  assert (Hmap : r.1.2 =
    if negb (Z.land (ev_Op ev) Remove =? 0) then
      match os_Stat env (ev_Name ev) with
      | StatNotExist => (removeDirectoryFromWatcher env (ev_Name ev) m).1.2
      | StatInfo info =>
          if fi_IsDir info
          then (removeDirectoryFromWatcher env (ev_Name ev) m).1.2
          else m
      | StatFailed => m
      end
    else m).
  { unfold r, handleEvent. fold mask. rewrite wbind_map.
    destruct (negb (Z.land (ev_Op ev) mask =? 0)); cbn [fst snd];
      destruct (negb (Z.land (ev_Op ev) Remove =? 0)); try reflexivity;
      destruct (os_Stat env (ev_Name ev)) as [info| |]; try reflexivity;
      destruct (fi_IsDir info); reflexivity. }
  pose proof (removeDirectoryFromWatcher_lookup env (ev_Name ev) m) as Hrm.
  split; [|split; [|split; [|split; [|split]]]].
  - rewrite Hval. intros Hz. apply Hnone.
    by destruct (Z.eqb_spec (Z.land (ev_Op ev) mask) 0).
  - intros Hbits. rewrite Hval.
    destruct (Z.eqb_spec (Z.land (ev_Op ev) mask) 0) as [Hmask|]; [|done].
    exfalso.
    destruct Hbits as [Hb|[Hb|[Hb|Hb]]]; apply Hb;
      by apply (land_submask _ mask).
  - intros Hop. apply Hnone. by rewrite Hop.
  - intros Hz. by rewrite Hmap, Hz.
  - intros p. rewrite Hmap.
    destruct (negb (Z.land (ev_Op ev) Remove =? 0)); [|by left].
    assert (Hcase : (removeDirectoryFromWatcher env (ev_Name ev) m).1.2 !! p
                      = m !! p \/
                    ((removeDirectoryFromWatcher env (ev_Name ev) m).1.2 !! p
                       = None /\ String.prefix (ev_Name ev) p = true)).
    { rewrite Hrm. destruct (String.prefix (ev_Name ev) p); [by right|by left]. }
    destruct (os_Stat env (ev_Name ev)) as [info| |]; [|done|by left].
    destruct (fi_IsDir info); [done|by left].
  - intros Hrem Hstat p. rewrite Hmap, Hstat.
    destruct (Z.eqb_spec (Z.land (ev_Op ev) Remove) 0); [done|].
    apply Hrm.
Qed.

End WatcherRuns.

Section WatcherWalk.
Import watcher.
Context `{GoStrings}.
Variable env : Env.

(** *** An invariant of the walk *)

Section Invariant.
Variable Q : gmap string bool -> Prop.
Variable Good : string -> Node -> Prop.
Hypothesis Good_down : forall path name ok entries,
  Good path (Dir name ok entries) ->
  Forall (fun d1 => Good (filepath_Join path (node_Name d1)) d1) entries.
Hypothesis register_Q : forall path d err m,
  Good path d -> Q m -> Q (register env path d err m).1.2.

Lemma register_val path d err m :
  (register env path d err m).1.1 = None \/
  ((register env path d err m).1.1 = Some SkipDir /\ node_IsDir d = true).
Proof.
  unfold register. destruct err; [by left|].
  destruct (node_IsDir d) eqn:Hd; [|by left]. cbn [negb].
  rewrite wbind_val. cbn [get_watched fst snd].
  destruct (watched m path); [by left|].
  destruct (scanner.is_skipped_name (node_Name d)); [by right|].
  destruct (fsnotify_Add env path); by left.
Qed.

Lemma walk_entries_inv (walk : string -> Node -> W (option WalkErr))
  path entries :
  Forall (fun d1 => forall m, Q m ->
            Q (walk (filepath_Join path (node_Name d1)) d1 m).1.2 /\
            (walk (filepath_Join path (node_Name d1)) d1 m).1.1 = None)
         entries ->
  forall m, Q m ->
    Q (walk_entries walk path entries m).1.2 /\
    (walk_entries walk path entries m).1.1 = None.
Proof.
  induction 1 as [|d1 entries Hd1 _ IH]; intros m Hm; cbn [walk_entries].
  - by split.
  - rewrite wbind_map, wbind_val.
    destruct (Hd1 m Hm) as [HQ ->]. by apply IH.
Qed.

Lemma walkDir_inv d : forall path m,
  Good path d -> Q m ->
  Q (walkDir (register env) path d m).1.2 /\
  (walkDir (register env) path d m).1.1 = None.
Proof.
  induction d as [name stat content|name ok entries IH] using Node_ind_entries;
    intros path m Hgood Hm; cbn [walkDir]; rewrite wbind_map, wbind_val.
  - pose proof (register_Q path _ None m Hgood Hm) as HQ.
    destruct (register_val path (File name stat content) None m)
      as [->|[_ Hd]]; [by split|discriminate].
  - pose proof (register_Q path _ None m Hgood Hm) as HQ.
    destruct (register_val path (Dir name ok entries) None m)
      as [->|[-> _]]; [|by split].
    rewrite wbind_map, wbind_val.
    set (m1 := (register env path (Dir name ok entries) None m).1.2) in *.
    assert (Hsecond :
      Q ((if ok then mret None
          else register env path (Dir name ok entries)
                 (Some "readdir error")) m1).1.2 /\
      (((if ok then mret None
         else register env path (Dir name ok entries)
                (Some "readdir error")) m1).1.1 = None)).
    { destruct ok; [by split|]. split; [by apply register_Q|done]. }
    destruct Hsecond as [HQ2 ->].
    apply walk_entries_inv; [|done].
    pose proof (Good_down _ _ _ _ Hgood) as Hdown.
    rewrite Forall_forall in *. intros d1 Hd1 m' Hm'.
    apply IH; auto.
Qed.

End Invariant.

Lemma dir_paths_down path name ok entries d1 p :
  d1 ∈ entries ->
  p ∈ dir_paths (filepath_Join path (node_Name d1)) d1 ->
  p ∈ dir_paths path (Dir name ok entries).
Proof.
  intros Hd1 Hp. cbn [dir_paths]. apply elem_of_app. right.
  apply list_elem_of_In, in_concat.
  exists (dir_paths (filepath_Join path (node_Name d1)) d1).
  split; [|by apply list_elem_of_In].
  apply in_map_iff. exists d1. split; [done|]. by apply list_elem_of_In.
Qed.

(** X21.  [addDirectoryToWatcher] never fails: it returns nil whatever
    cannot be read or added.  After the stale watchers are cleaned up,
    it only adds: what is watched then stays watched, and every path it
    adds is the path of a directory of the tree whose name is not an
    excluded one, was not watched, and was accepted by [fsnotify].  A
    file is never added. *)
Theorem addDirectoryToWatcher_sound (dirPath : string) (root : option Node)
  (m : gmap string bool) :
  let r := addDirectoryToWatcher env dirPath root m in
  let m1 := (cleanupStaleWatchers env m).1.2 in
  r.1.1 = None /\
  (forall p, watched m1 p = true -> watched r.1.2 p = true) /\
  (forall p, r.1.2 !! p = m1 !! p \/
     (r.1.2 !! p = Some true /\ watched m1 p = false /\
      fsnotify_Add env p = true /\
      exists d, root = Some d /\ p ∈ dir_paths dirPath d)).
Proof.
  intros r m1.
  assert (Hgoal :
    r.1.1 = None /\
    (forall p, r.1.2 !! p = m1 !! p \/
       (r.1.2 !! p = Some true /\ watched m1 p = false /\
        fsnotify_Add env p = true /\
        exists d, root = Some d /\ p ∈ dir_paths dirPath d))).
  { unfold r, addDirectoryToWatcher. rewrite wbind_val, wbind_map. fold m1.
    destruct root as [d|]; [|split; [done|by left]].
    set (Q := fun m' : gmap string bool =>
      forall p, m' !! p = m1 !! p \/
        (m' !! p = Some true /\ watched m1 p = false /\
         fsnotify_Add env p = true /\ p ∈ dir_paths dirPath d)).
    set (Good := fun (path : string) (d' : Node) =>
      forall p, p ∈ dir_paths path d' -> p ∈ dir_paths dirPath d).
    assert (Hwalk : Q (walkDir (register env) dirPath d m1).1.2 /\
                    (walkDir (register env) dirPath d m1).1.1 = None).
    { apply (walkDir_inv Q Good).
      - intros path name ok entries Hgood. apply Forall_forall.
        intros d1 Hd1 p Hp. apply Hgood.
        by apply (dir_paths_down path name ok entries d1).
      - intros path d' err m' Hgood Hm'. unfold register.
        destruct err; [done|].
        destruct (node_IsDir d') eqn:Hd; [|done]. cbn [negb].
        rewrite wbind_map. cbn [get_watched fst snd].
        destruct (watched m' path) eqn:Hw; [done|].
        destruct (scanner.is_skipped_name (node_Name d')) eqn:Hs; [done|].
        destruct (fsnotify_Add env path) eqn:Hadd; [|done].
        change (Q (<[path := true]> m')).
        intros p. destruct (decide (p = path)) as [->|Hne].
        + right. rewrite lookup_insert_eq. split; [done|].
          split; [|split; [done|]].
          * destruct (Hm' path) as [Heq|[Heq _]].
            -- unfold watched in *. by rewrite <-Heq.
            -- unfold watched in Hw. rewrite Heq in Hw. discriminate.
          * apply Hgood. destruct d' as [|name ok entries]; [discriminate|].
            cbn [dir_paths node_Name] in *. rewrite Hs.
            apply elem_of_app. left. apply list_elem_of_here.
        + rewrite lookup_insert_ne by done. apply Hm'.
      - by intros p Hp.
      - intros p. by left. }
    destruct Hwalk as [HQ Hval]. unfold WalkDir.
    rewrite wbind_val, wbind_map, Hval. split; [done|].
    intros p. destruct (HQ p) as [Heq|(Heq & Hw & Hadd & Hp)]; [by left|].
    right. repeat split; try done. by exists d. }
  destruct Hgoal as [Hval Hmap].
  split; [exact Hval|]. split; [|exact Hmap].
  intros p Hp. destruct (Hmap p) as [Heq|(Heq & _)].
  - unfold watched in *. by rewrite Heq.
  - unfold watched. by rewrite Heq.
Qed.


(** *** What gets watched *)

Lemma register_run path d m :
  register env path d None m =
    if negb (node_IsDir d) then (None, m, [])
    else if watched m path then (None, m, [])
    else if scanner.is_skipped_name (node_Name d) then
      (Some SkipDir, m,
       [Log DebugLevel "Skipping excluded directory from watcher" path])
    else if fsnotify_Add env path then
      (None, <[path := true]> m,
       [Log DebugLevel "Added directory to file system watcher" path])
    else
      (None, m, [Log WarnLevel "Failed to add directory to watcher" path]).
Proof.
  unfold register. destruct (negb (node_IsDir d)); [done|].
  rewrite wrun_bind. cbn [get_watched fst snd].
  destruct (watched m path); [done|].
  destruct (scanner.is_skipped_name (node_Name d)); [done|].
  by destruct (fsnotify_Add env path).
Qed.

Lemma walkDir_monotone d path m :
  (walkDir (register env) path d m).1.1 = None /\
  forall p, watched m p = true ->
            watched (walkDir (register env) path d m).1.2 p = true.
Proof.
  destruct (walkDir_inv
              (fun m' => forall p, watched m p = true -> watched m' p = true)
              (fun _ _ => True)) with (d := d) (path := path) (m := m)
    as [HQ Hval]; try done.
  - intros. by apply Forall_forall.
  - intros path' d' err m' _ Hm'. destruct err as [msg|]; [done|].
    rewrite register_run.
    destruct (negb (node_IsDir d')); [done|].
    destruct (watched m' path'); [done|].
    destruct (scanner.is_skipped_name (node_Name d')); [done|].
    destruct (fsnotify_Add env path'); [|done].
    cbn [fst snd]. intros p Hp. specialize (Hm' p Hp). unfold watched in *.
    destruct (decide (p = path')) as [->|Hne].
    + by rewrite lookup_insert_eq.
    + by rewrite lookup_insert_ne.
Qed.

Lemma walk_entries_reached path entries :
  Forall (fun d1 => forall m,
    let r := walkDir (register env) (filepath_Join path (node_Name d1)) d1 m in
    r.1.1 = None /\
    (forall p, watched m p = true -> watched r.1.2 p = true) /\
    (forall p, p ∈ reached (filepath_Join path (node_Name d1)) d1 ->
               watched r.1.2 p = true)) entries ->
  forall m,
    let r := walk_entries (walkDir (register env)) path entries m in
    (forall p, watched m p = true -> watched r.1.2 p = true) /\
    (forall d1 p, d1 ∈ entries ->
       p ∈ reached (filepath_Join path (node_Name d1)) d1 ->
       watched r.1.2 p = true).
Proof.
  induction 1 as [|d1 entries Hd1 _ IH]; intros m; cbn [walk_entries].
  - split; [done|]. intros d1 p Hd1. by apply elem_of_nil in Hd1.
  - cbv zeta. rewrite wbind_map.
    destruct (Hd1 m) as (-> & Hmono & Hreached).
    set (m1 := (walkDir (register env) (filepath_Join path (node_Name d1)) d1 m).1.2)
      in *.
    destruct (IH m1) as (Hmono' & Hreached'). split.
    + intros p Hp. by apply Hmono', Hmono.
    + intros d2 p [->|Hd2]%elem_of_cons Hp.
      * by apply Hmono', Hreached.
      * by apply (Hreached' d2).
Qed.

Lemma walkDir_reached d : forall path m,
  (forall p, p ∈ reached path d -> fsnotify_Add env p = true) ->
  let r := walkDir (register env) path d m in
  r.1.1 = None /\
  (forall p, watched m p = true -> watched r.1.2 p = true) /\
  (forall p, p ∈ reached path d -> watched r.1.2 p = true).
Proof.
  induction d as [name stat content|name ok entries IH] using Node_ind_entries;
    intros path m Hadd r.
  - destruct (walkDir_monotone (File name stat content) path m) as [Hval Hmono].
    split; [exact Hval|]. split; [exact Hmono|].
    intros p Hp. by apply elem_of_nil in Hp.
  - destruct (walkDir_monotone (Dir name ok entries) path m) as [Hval Hmono].
    split; [exact Hval|]. split; [exact Hmono|].
    cbn [reached] in *.
    destruct (scanner.is_skipped_name name) eqn:Hskip.
    { intros p Hp. by apply elem_of_nil in Hp. }
    assert (Hpath : fsnotify_Add env path = true).
    { apply Hadd. apply list_elem_of_here. }
    unfold r. cbn [walkDir]. rewrite wbind_map.
    rewrite register_run. cbn [node_IsDir node_Name negb].
    rewrite Hskip, Hpath.
    set (m1 := if watched m path then m else <[path := true]> m).
    assert (Hm1 : watched m1 path = true).
    { unfold m1. destruct (watched m path) eqn:Hw; [done|].
      unfold watched. by rewrite lookup_insert_eq. }
    assert (Hfirst :
      (if watched m path then (@None WalkErr, m, [])
       else (None, <[path := true]> m,
             [Log DebugLevel "Added directory to file system watcher" path]))
      = (None, m1, if watched m path then []
                   else [Log DebugLevel "Added directory to file system watcher"
                           path])).
    { unfold m1. by destruct (watched m path). }
    rewrite Hfirst. cbn [fst snd]. rewrite wbind_map.
    assert (Hsecond :
      ((if ok then mret (@None WalkErr)
        else register env path (Dir name ok entries) (Some "readdir error")) m1).1
      = (None, m1)).
    { by destruct ok. }
    rewrite Hsecond. cbn [fst snd].
    destruct (walk_entries_reached path entries) with (m := m1)
      as (Hmono1 & Hreached1).
    { rewrite Forall_forall in *. intros d1 Hd1 m'. apply IH; [done|].
      intros p Hp. apply Hadd. apply list_elem_of_further.
      apply list_elem_of_In, in_concat.
      exists (reached (filepath_Join path (node_Name d1)) d1).
      split; [|by apply list_elem_of_In].
      apply in_map_iff. exists d1. split; [done|]. by apply list_elem_of_In. }
    intros p [->|Hp]%elem_of_cons; [by apply Hmono1|].
    apply list_elem_of_In, in_concat in Hp as (l & Hl & Hp).
    apply in_map_iff in Hl as (d1 & <- & Hd1).
    apply (Hreached1 d1); by apply list_elem_of_In.
Qed.

(** X22.  When [fsnotify] accepts them, [addDirectoryToWatcher] leaves
    every directory of the tree watched that is not below, or itself, a
    directory with an excluded name: the root, and the subdirectories
    at any depth, also below directories that cannot be read. *)
Theorem addDirectoryToWatcher_complete (dirPath : string) (d : Node)
  (m : gmap string bool) :
  (forall p, p ∈ reached dirPath d -> fsnotify_Add env p = true) ->
  forall p, p ∈ reached dirPath d ->
    watched (addDirectoryToWatcher env dirPath (Some d) m).1.2 p = true.
Proof.
  intros Hadd p Hp. unfold addDirectoryToWatcher.
  rewrite wbind_map. unfold WalkDir. rewrite wbind_map.
  destruct (walkDir_reached d dirPath (cleanupStaleWatchers env m).1.2 Hadd)
    as (Hval & _ & Hreached).
  rewrite Hval. by apply Hreached.
Qed.

End WatcherWalk.

(** X22, witness: the directory of the fixtures, given as [./certs], with
    nothing watched and an [fsnotify] that accepts every path.  The
    subdirectory is watched under the cleaned path [certs/sub] that the
    walk passes for it. *)
Lemma addDirectoryToWatcher_complete_witness :
  let env := {| watcher.os_Stat := fun _ => StatNotExist;
                watcher.fsnotify_Add := fun _ => true;
                watcher.fsnotify_Remove := fun _ => true |} in
  watcher.watched
    (@watcher.addDirectoryToWatcher AsciiStrings.instance env "./certs"
       (Some Fixtures.tree_certs) ∅).1.2 "certs/sub" = true.
Proof.
  intros env.
  refine (@addDirectoryToWatcher_complete AsciiStrings.instance env "./certs"
            Fixtures.tree_certs ∅ _ "certs/sub" _).
  - intros p _. reflexivity.
  - vm_compute. apply list_elem_of_further, list_elem_of_here.
Defined.

(** ** internal/server: the /certs endpoint against the scanner *)

Section ServerProperties.
Import scanner.
Context `{GoStrings} `{GoCrypto} `{GoTime}.

(** X23.  For a file that is not read as DER by the scanner and whose
    first PEM block is a certificate that parses, the scanner and the
    [/certs] endpoint agree on the leaf certificate: the scanner
    returns it, and the endpoint reports it for the file; the endpoint
    lists it when the cache has an entry for the path. *)
Theorem certsHandler_agrees_with_scanner (cfg : config.Config) (now : Z)
  (readFile : string -> option string) (c : cache.Cache)
  (path dirPath ext raw : string) (block : PemBlock) (leaf : Certificate)
  (s : State) :
  readFile path = Some raw ->
  (pem_Decode raw).1 = Some block ->
  pem_Type block = "CERTIFICATE" ->
  x509_ParseCertificate (pem_Bytes block) = Ok leaf ->
  ext <> ".der" ->
  retval (parseLeafCertificate raw ext path dirPath s) = Ok leaf /\
  server.certOfPath cfg now readFile path = Some (server.certInfo cfg now leaf) /\
  (is_Some (cache.data c !! path) ->
     server.certInfo cfg now leaf ∈ server.certsHandler cfg now readFile c).
Proof.
  intros Hread Hdec Htype Hparse Hext.
  assert (Hinfo : server.certOfPath cfg now readFile path
                  = Some (server.certInfo cfg now leaf)).
  { unfold server.certOfPath. rewrite Hread. cbv zeta. rewrite Hdec, Htype.
    rewrite String.eqb_refl. cbn [negb]. by rewrite Hparse. }
  split; [|split; [exact Hinfo|]].
  - unfold parseLeafCertificate.
    rewrite (proj2 (String.eqb_neq _ _) Hext).
    cbn [pemLoop]. rewrite retval_bind, final_emit.
    destruct (pem_Decode raw) as [b rest]. cbn [fst] in Hdec. subst b.
    rewrite Htype, String.eqb_refl. cbn [negb].
    rewrite retval_bind, final_emit, Hparse.
    unfold metric. by rewrite run_emit_bind.
  - intros [e He]. unfold server.certsHandler.
    apply list_elem_of_omap. exists path. split; [|exact Hinfo].
    unfold cache.GetPaths. apply list_elem_of_fmap. exists (path, e).
    split; [done|]. by apply elem_of_map_to_list.
Qed.

(** X24.  The endpoint reports a certificate as expiring soon exactly
    when the scanner, at the same instant and with the same
    configuration, writes the expiring-soon metric for it. *)
Theorem certInfo_expiring_soon_agrees (env : Env) (cfg : config.Config)
  (c : Certificate) (file sanitizedFile cn issuer sans hostname : string)
  (issuerCode count : Z) (s : State) :
  server.ci_ExpiringSoon (server.certInfo cfg (env_now env) c) = true <->
  exists w,
    EvMetric w ∈ events (exportMetrics env cfg c file sanitizedFile cn issuer
                           sans hostname issuerCode count s) /\
    mw_metric w = CertExpiringSoon.
Proof.
  set (soon := time_Sub (NotAfter c) (env_now env)
                 <=? wrap64 (config.ExpiryThresholdDays cfg * 24 * Hour)).
  change (server.ci_ExpiringSoon (server.certInfo cfg (env_now env) c))
    with soon.
  split.
  - intros Hsoon.
    exists (Write_ CertExpiringSoon
              [cn; sanitizedFile; hostname; fmt_Sprint_int count] (OpSet 1)).
    split; [|done]. unfold exportMetrics. fold soon. rewrite Hsoon.
    do 7 (rewrite events_bind; apply elem_of_app; right).
    rewrite events_bind. apply elem_of_app. left.
    cbn [when]. rewrite events_bind, events_metric.
    apply elem_of_app. left. apply list_elem_of_here.
  - intros (w & Hw & Hm).
    set (P := fun e : Event =>
      match e with
      | EvMetric (Write_ CertExpiringSoon _ _) => soon
      | _ => true
      end).
    assert (Hspec : spec (fun _ => True) P (fun _ => True)
              (exportMetrics env cfg c file sanitizedFile cn issuer sans
                 hostname issuerCode count)).
    { unfold exportMetrics. fold soon.
      repeat first
        [ apply spec_ret; exact I
        | apply spec_log; reflexivity
        | apply spec_metric; first [reflexivity | assumption]
        | apply spec_when; intros ?
        | apply spec_seq; [|intros ?] ]. }
    destruct (Hspec s I) as (_ & Hes & _).
    rewrite forallb_forall in Hes.
    specialize (Hes _ (proj1 (list_elem_of_In _ _) Hw)).
    destruct w as [m labels op]. cbn in Hm. subst m. exact Hes.
Qed.

End ServerProperties.

(** X23, witness: the certificate file of the fixtures, cached. *)
Lemma certsHandler_agrees_with_scanner_witness :
  let time : GoTime := {| time_Format_RFC3339 := fun _ => "2024-01-01T00:00:00Z" |} in
  let cfg := Fixtures.config_of false in
  let readFile := fun path : string =>
    if String.eqb path "/certs/a.pem" then Some "Ca" else None in
  @server.certOfPath Fixtures.toy_crypto time cfg 0 readFile "/certs/a.pem" =
    Some (@server.certInfo time cfg 0 (Fixtures.toy_cert "a")).
Proof.
  intros time cfg readFile.
  refine (proj1 (proj2
            (@certsHandler_agrees_with_scanner Fixtures.toy_crypto time cfg 0
               readFile (cache.New "/cache.json") "/certs/a.pem" "/certs" ".pem"
               "Ca" {| pem_Type := "CERTIFICATE"; pem_Bytes := "a" |}
               (Fixtures.toy_cert "a") Fixtures.state0 _ _ _ _ _))).
  - reflexivity.
  - reflexivity.
  - reflexivity.
  - reflexivity.
  - discriminate.
Defined.
